(** * Ghost pathfinding and score keeping of the Pac-Man modules

    A shallow embedding of [PathFinder.py] (the [Direction] enum and the
    [Pathfinder] class) and of [ScoreManager.py], followed by the properties
    the specification states about them.

    Python integers are unbounded and are modelled by [Z].  Python exceptions
    are modelled by an error monad whose errors carry the name of the
    exception raised.  Python floats are IEEE 754 binary64 numbers and are
    modelled by the Standard Library's [spec_float] with precision 53 and
    maximal exponent 1024. *)

From Stdlib Require Import ZArith List Bool Lia.
From Stdlib Require Import Floats.SpecFloat.
From Stdlib Require String.
Import ListNotations.
Import String.StringSyntax.

Delimit Scope string_scope with string.

Local Open Scope Z_scope.

(** ** Python exceptions *)

Inductive exn : Type :=
| IndexError     (* list index out of range *)
| OverflowError  (* int too large to convert to float *)
| ValueError.    (* x is not in list *)

Inductive result (A : Type) : Type :=
| Ok (a : A)
| Raise (e : exn).

Arguments Ok {A} a.
Arguments Raise {A} e.

Definition bind {A B : Type} (r : result A) (k : A -> result B) : result B :=
  match r with
  | Ok a => k a
  | Raise e => Raise e
  end.

Notation "x <- r ;; k" := (bind r (fun x => k))
  (at level 61, r at next level, right associativity).

(** [len(l)] and [l[i]] on a Python list; a negative index counts from the
    end, an index outside [-len(l) .. len(l)-1] raises [IndexError]. *)

Definition len {A : Type} (l : list A) : Z := Z.of_nat (length l).

Definition getitem {A : Type} (l : list A) (i : Z) : result A :=
  let j := if i <? 0 then len l + i else i in
  if j <? 0 then Raise IndexError
  else match nth_error l (Z.to_nat j) with
       | Some a => Ok a
       | None => Raise IndexError
       end.

(** ** class Direction(Enum) *)

Inductive Direction : Type := UP | DOWN | LEFT | RIGHT.

Definition value (d : Direction) : Z * Z :=
  match d with
  | UP => (0, -1)
  | DOWN => (0, 1)
  | LEFT => (-1, 0)
  | RIGHT => (1, 0)
  end.

Definition opposite (d : Direction) : Direction :=
  match d with
  | UP => DOWN
  | DOWN => UP
  | LEFT => RIGHT
  | RIGHT => LEFT
  end.

Definition Direction_eqb (a b : Direction) : bool :=
  match a, b with
  | UP, UP | DOWN, DOWN | LEFT, LEFT | RIGHT, RIGHT => true
  | _, _ => false
  end.

(** ** Floats

    The floats of [PathFinder.py] are the distances [math.dist] returns and
    [float("inf")].  [math.dist] is library code: it converts each
    coordinate to a binary64 number, subtracts per axis, and returns the
    norm of the differences.  The conversion and the subtraction are
    correctly rounded operations and are taken from [SpecFloat].

    The library computes the norm in extended precision.  Its result is
    within one unit in the last place of the exact root, but it is not
    always the nearest float: for the differences 5 and 419430400 the
    library returns the float above the nearest one.  [norm2] below is the
    nearest float, the correctly rounded root of the exact sum of squares.
    It stands for the library's norm in two ways only:
    - where the sum of the squares is an integer below [2^53], which covers
      all coordinates of magnitude up to [2^23], the library's result is
      taken to be the nearest float, and the value of [norm2] is used;
    - elsewhere only what the last bit cannot change is used: that a
      distance is computed or that the conversion overflows, that it is a
      number and not negative, that it is finite for differences far below
      the largest float and infinite far above it, and that equal
      differences have equal distances.
    The claims and the further properties below do not rest on the last bit
    of a distance outside the first range. *)

Module Float.

Definition prec : Z := 53.
Definition emax : Z := 1024.

Definition float : Type := spec_float.

(** [float("inf")] *)
Definition inf : float := S754_infinity false.

(** [a < b] and [a == b] on floats. *)
Definition ltb (a b : float) : bool := SFltb a b.
Definition eqb (a b : float) : bool := SFeqb a b.

(** Conversion of a Python int to a float: the nearest binary64 number,
    ties to even; an int that rounds beyond the largest finite float raises
    [OverflowError]. *)
Definition of_int (z : Z) : result float :=
  match binary_normalize prec emax z 0 false with
  | S754_infinity _ => Raise OverflowError
  | f => Ok f
  end.

(** [fabs(a - b)] *)
Definition abs_diff (a b : float) : float := SFabs (SFsub prec emax a b).

(** The exact sum of the squares of [mx * 2^ex] and [my * 2^ey], as a
    mantissa and an exponent. *)
Definition square_sum (mx : positive) (ex : Z) (my : positive) (ey : Z)
  : positive * Z :=
  let e := Z.min ex ey in
  let ax := fst (shl_align mx ex e) in
  let ay := fst (shl_align my ey e) in
  ((ax * ax + ay * ay)%positive, 2 * e).

(** The reference value of the Euclidean norm of the vector [(x, y)] of two
    non-negative floats: an infinite component gives [inf]; otherwise the
    square root of the exact sum of the two squares is rounded to the
    nearest float, which is [inf] when it is beyond the largest finite
    float.  The library's norm can differ from it in the last bit, as
    explained above. *)
Definition norm2 (x y : float) : float :=
  match x, y with
  | S754_nan, _ | _, S754_nan => S754_nan
  | S754_infinity _, _ | _, S754_infinity _ => inf
  | S754_zero _, S754_zero _ => S754_zero false
  | S754_zero _, S754_finite _ m e
  | S754_finite _ m e, S754_zero _ =>
      SFsqrt prec emax (S754_finite false (m * m) (2 * e))
  | S754_finite _ mx ex, S754_finite _ my ey =>
      let '(m, e) := square_sum mx ex my ey in
      SFsqrt prec emax (S754_finite false m e)
  end.

End Float.

(** [math.dist((x1, y1), (x2, y2))]: every coordinate is converted to a
    float, the absolute differences are taken per axis, and the norm of the
    difference vector is returned. *)
Definition math_dist (p q : Z * Z) : result Float.float :=
  px <- Float.of_int (fst p) ;;
  qx <- Float.of_int (fst q) ;;
  py <- Float.of_int (snd p) ;;
  qy <- Float.of_int (snd q) ;;
  Ok (Float.norm2 (Float.abs_diff px qx) (Float.abs_diff py qy)).

(** ** class Pathfinder *)

Definition DIRECTION_PREFERENCE : list Direction := [UP; LEFT; DOWN; RIGHT].

Record Pathfinder : Type := {
  maze : list (list Z);
  height : Z;
  width : Z
}.

(** [Pathfinder.__init__] *)
Definition Pathfinder_init (maze0 : list (list Z)) : Pathfinder :=
  {| maze := maze0;
     height := len maze0;
     width := match maze0 with
              | [] => 0
              | row0 :: _ => len row0
              end |}.

Definition is_valid_tile (self : Pathfinder) (x y : Z) : result bool :=
  if (x <? 0) || (x >=? width self) || (y <? 0) || (y >=? height self)
  then Ok false
  else
    row <- getitem (maze self) y ;;
    cell <- getitem row x ;;
    Ok (cell =? 0).

(** The [for direction in self.DIRECTION_PREFERENCE] loop of
    [get_available_exits], [available] being the list built so far. *)
Fixpoint exits_loop (self : Pathfinder) (x y : Z) (current_direction : Direction)
    (directions : list Direction) (available : list Direction)
  : result (list Direction) :=
  match directions with
  | [] => Ok available
  | direction :: rest =>
      if Direction_eqb direction (opposite current_direction)
      then exits_loop self x y current_direction rest available
      else
        let '(dx, dy) := value direction in
        let next_x := x + dx in
        let next_y := y + dy in
        valid <- is_valid_tile self next_x next_y ;;
        if valid
        then exits_loop self x y current_direction rest (available ++ [direction])
        else exits_loop self x y current_direction rest available
  end.

Definition get_available_exits (self : Pathfinder) (x y : Z)
    (current_direction : Direction) : result (list Direction) :=
  exits_loop self x y current_direction DIRECTION_PREFERENCE [].

Definition euclidean_distance (x1 y1 x2 y2 : Z) : result Float.float :=
  math_dist (x1, y1) (x2, y2).

(** [self.DIRECTION_PREFERENCE.index(d)], where [d] is a direction or
    [None]. *)
Fixpoint index_from (l : list Direction) (d : Direction) (i : Z) : result Z :=
  match l with
  | [] => Raise ValueError
  | a :: rest => if Direction_eqb a d then Ok i else index_from rest d (i + 1)
  end.

Definition preference_index (d : option Direction) : result Z :=
  match d with
  | Some d => index_from DIRECTION_PREFERENCE d 0
  | None => Raise ValueError
  end.

(** The [for direction in available_exits] loop of [choose_direction]. *)
Fixpoint choose_loop (lookahead_x lookahead_y target_x target_y : Z)
    (exits : list Direction)
    (best_direction : option Direction) (best_distance : Float.float)
  : result (option Direction) :=
  match exits with
  | [] => Ok best_direction
  | direction :: rest =>
      let '(test_dx, test_dy) := value direction in
      let test_x := lookahead_x + test_dx in
      let test_y := lookahead_y + test_dy in
      distance <- euclidean_distance test_x test_y target_x target_y ;;
      if Float.ltb distance best_distance
      then choose_loop lookahead_x lookahead_y target_x target_y rest
             (Some direction) distance
      else if Float.eqb distance best_distance
      then
        i <- preference_index (Some direction) ;;
        j <- preference_index best_direction ;;
        if i <? j
        then choose_loop lookahead_x lookahead_y target_x target_y rest
               (Some direction) best_distance
        else choose_loop lookahead_x lookahead_y target_x target_y rest
               best_direction best_distance
      else choose_loop lookahead_x lookahead_y target_x target_y rest
             best_direction best_distance
  end.

(** [choose_direction] returns a direction, or [None] when the last loop
    leaves [best_direction] as it was initialised. *)
Definition choose_direction (self : Pathfinder) (ghost_x ghost_y : Z)
    (current_direction : Direction) (target_x target_y : Z)
  : result (option Direction) :=
  let '(dx, dy) := value current_direction in
  let lookahead_x := ghost_x + dx in
  let lookahead_y := ghost_y + dy in
  available_exits <-
    get_available_exits self lookahead_x lookahead_y current_direction ;;
  match available_exits with
  | [only] => Ok (Some only)
  | [] => Ok (Some (opposite current_direction))
  | _ =>
      choose_loop lookahead_x lookahead_y target_x target_y available_exits
        None Float.inf
  end.

Definition get_next_position (x y : Z) (direction : Direction) : Z * Z :=
  let '(dx, dy) := value direction in
  (x + dx, y + dy).

(** The fixtures of [test_pathfinder.py]. *)
Definition simple_maze : list (list Z) :=
  [ [1; 1; 1; 1; 1];
    [1; 0; 0; 0; 1];
    [1; 0; 1; 0; 1];
    [1; 0; 0; 0; 1];
    [1; 1; 1; 1; 1] ].

Definition pathfinder : Pathfinder := Pathfinder_init simple_maze.

(** ** class ScoreManager

    Both attributes are Python ints.  [2**n] is an int only for [n >= 0]
    (for a negative [n] Python computes a float), so [add_ghost_score] is
    the code's function on the states whose combo is not negative; every
    state the methods produce from a fresh object is such a state. *)

Module ScoreManager.

Record t : Type := {
  score : Z;
  ghost_eaten_combo : Z
}.

(** [ScoreManager.__init__] *)
Definition init : t := {| score := 0; ghost_eaten_combo := 1 |}.

Definition reset (self : t) : t :=
  {| score := 0; ghost_eaten_combo := 1 |}.

Definition add_pellet_score (self : t) : t :=
  {| score := score self + 10;
     ghost_eaten_combo := ghost_eaten_combo self |}.

Definition add_power_pellet_score (self : t) : t :=
  {| score := score self + 50; ghost_eaten_combo := 1 |}.

(** [2 ** self.ghost_eaten_combo] is an int when the combo is not negative,
    as it is in every state the methods reach from a fresh object; this is
    the domain of the model.  For a negative combo, which only an
    assignment from outside the class can produce, Python's power is a
    float; the properties of [add_ghost_score] below are stated for the
    states reached from a fresh object or carry [0 <= ghost_eaten_combo]. *)
Definition add_ghost_score (self : t) : t :=
  {| score := score self + 2 ^ ghost_eaten_combo self * 100;
     ghost_eaten_combo := ghost_eaten_combo self + 1 |}.

(** Method calls as data, to speak about sequences of them. *)
Inductive operation : Type :=
| Reset
| AddPellet
| AddPowerPellet
| AddGhost.

Definition call (self : t) (op : operation) : t :=
  match op with
  | Reset => reset self
  | AddPellet => add_pellet_score self
  | AddPowerPellet => add_power_pellet_score self
  | AddGhost => add_ghost_score self
  end.

Definition run (ops : list operation) (self : t) : t :=
  fold_left call ops self.

(** The scores read after each call of a sequence. *)
Fixpoint scores (ops : list operation) (self : t) : list Z :=
  match ops with
  | [] => []
  | op :: rest => score (call self op) :: scores rest (call self op)
  end.

End ScoreManager.

(** ** Vocabulary of the specification *)

Definition WALKABLE : Z := 0.

(** All rows of the grid have the length of the first one. *)
Definition is_rectangular (maze0 : list (list Z)) : bool :=
  forallb (fun row => len row =? width (Pathfinder_init maze0)) maze0.

(** [0 <= x < width] and [0 <= y < height]. *)
Definition in_bounds (maze0 : list (list Z)) (x y : Z) : bool :=
  (0 <=? x) && (x <? width (Pathfinder_init maze0)) &&
  (0 <=? y) && (y <? height (Pathfinder_init maze0)).

(** The cell at column [x] of row [y]; only read within bounds. *)
Definition cell_at (maze0 : list (list Z)) (x y : Z) : Z :=
  nth (Z.to_nat x) (nth (Z.to_nat y) maze0 []) 1.

(** The specification's valid tile: within bounds and walkable. *)
Definition valid_tile (maze0 : list (list Z)) (x y : Z) : bool :=
  in_bounds maze0 x y && (cell_at maze0 x y =? WALKABLE).

(** The tile reached from [(x, y)] by one step in direction [d]. *)
Definition step (x y : Z) (d : Direction) : Z * Z :=
  (x + fst (value d), y + snd (value d)).

(** The specification's exits: the preference order, without the reverse of
    the heading and without the directions whose adjacent tile is not
    valid. *)
Definition keeps_exit (maze0 : list (list Z)) (x y : Z) (h d : Direction)
  : bool :=
  negb (Direction_eqb d (opposite h)) &&
  valid_tile maze0 (fst (step x y d)) (snd (step x y d)).

Definition exits_spec (maze0 : list (list Z)) (x y : Z) (h : Direction)
  : list Direction :=
  filter (keeps_exit maze0 x y h) DIRECTION_PREFERENCE.

Inductive subsequence {A : Type} : list A -> list A -> Prop :=
| subsequence_nil : subsequence [] []
| subsequence_skip : forall a l1 l2,
    subsequence l1 l2 -> subsequence l1 (a :: l2)
| subsequence_keep : forall a l1 l2,
    subsequence l1 l2 -> subsequence (a :: l1) (a :: l2).

(** Position of a direction in the preference order UP, LEFT, DOWN, RIGHT. *)
Definition rank (d : Direction) : Z :=
  match d with
  | UP => 0
  | LEFT => 1
  | DOWN => 2
  | RIGHT => 3
  end.

(** The distance [choose_direction] computes for the candidate [d] at the
    lookahead tile [(lx, ly)]: from the test tile to the target. *)
Definition test_distance (lx ly tx ty : Z) (d : Direction)
  : result Float.float :=
  euclidean_distance (fst (step lx ly d)) (snd (step lx ly d)) tx ty.

(** The exact squared Euclidean distance between two integer points. *)
Definition squared_distance (p q : Z * Z) : Z :=
  (fst p - fst q) * (fst p - fst q) + (snd p - snd q) * (snd p - snd q).

(** A float that is a number (not NaN). *)
Definition is_number (f : Float.float) : bool :=
  match f with
  | S754_nan => false
  | _ => true
  end.

(** A float that is zero or finite (neither infinite nor NaN). *)
Definition is_finite (f : Float.float) : bool :=
  match f with
  | S754_zero _ | S754_finite _ _ _ => true
  | _ => false
  end.

(** [b] is the best of the candidates [exits] at the lookahead tile
    [(lx, ly)] when the stored distance is [bd]: its computed distance
    equals [bd], no candidate has a computed distance below [bd], and every
    candidate whose computed distance equals [bd] comes no earlier than [b]
    in the preference order. *)
Definition best_so_far (lx ly tx ty : Z) (exits : list Direction)
    (b : Direction) (bd : Float.float) : Prop :=
  In b exits /\
  (exists vb, test_distance lx ly tx ty b = Ok vb /\ Float.eqb vb bd = true) /\
  forall p v, In p exits -> test_distance lx ly tx ty p = Ok v ->
    Float.ltb v bd = false /\ (Float.eqb v bd = true -> rank b <= rank p).

(** [b] is the candidate [choose_direction] is to select among [exits]: no
    candidate has a smaller computed distance, and [b] is the earliest in
    the preference order of those at its computed distance. *)
Definition best_exit (lx ly tx ty : Z) (exits : list Direction)
    (b : Direction) : Prop :=
  In b exits /\
  exists vb, test_distance lx ly tx ty b = Ok vb /\
  forall p v, In p exits -> test_distance lx ly tx ty p = Ok v ->
    Float.ltb v vb = false /\ (Float.eqb v vb = true -> rank b <= rank p).

(** A float that is zero or finite, below [2^B] in magnitude and with an
    exponent a binary64 number can have. *)
Definition bounded_by (B : Z) (f : Float.float) : Prop :=
  match f with
  | S754_zero _ => True
  | S754_finite _ m e => Z.pos (digits2_pos m) + e <= B /\ e <= Float.emax - Float.prec
  | _ => False
  end.

(** The binary64 number that holds the integer [z], for [|z| < 2^53]. *)
Definition canon (z : Z) : Float.float :=
  match z with
  | 0 => S754_zero false
  | _ => S754_finite (z <? 0)
           (Z.to_pos (Z.abs z * 2 ^ (53 - Zdigits2 z))) (Zdigits2 z - 53)
  end.

(** The exponent and the truncated 53-bit mantissa of the square root of a
    positive integer [N]. *)
Definition root_exponent (N : Z) : Z := (Zdigits2 N + 1) / 2 - 53.

Definition root_floor (N : Z) : Z :=
  Z.sqrt (N * 2 ^ (- (2 * root_exponent N))).

(** A ghost position whose lookahead tile is more than one step outside
    the grid. *)
Definition far_outside (maze0 : list (list Z)) (x y : Z) : bool :=
  (x <? -1) || (x >? width (Pathfinder_init maze0)) ||
  (y <? -1) || (y >? height (Pathfinder_init maze0)).

(** ** The drivers of PathFinder.py

    [simulate_ghost_path], [draw_maze] and [animate_ghost] call the methods
    of a [Pathfinder].  Besides the exceptions of these methods, a driver
    raises [AttributeError] when it reads [.value] or [.name] of a direction
    that is [None], and [animate_ghost] raises what [time.sleep] raises.
    The calls of [os.system] and [print] are taken to return. *)

Inductive error : Type :=
| Navigator (e : exn)
| AttributeError
| Clock (e : exn).

Inductive outcome (A : Type) : Type :=
| Return (a : A)
| Throw (e : error).

Arguments Return {A} a.
Arguments Throw {A} e.

(** [(x, y) == (target_x, target_y)] on tuples of ints. *)
Definition tuple_eqb (p q : Z * Z) : bool :=
  (fst p =? fst q) && (snd p =? snd q).

(** The [for _ in range(max_steps)] loop of [simulate_ghost_path], with
    [steps] iterations left. *)
Fixpoint simulate_loop (pf : Pathfinder) (target_x target_y : Z) (steps : nat)
    (x y : Z) (direction : Direction) (path : list (Z * Z))
  : outcome (list (Z * Z)) :=
  match steps with
  | O => Return path
  | S steps' =>
      if tuple_eqb (x, y) (target_x, target_y) then Return path
      else
        match choose_direction pf x y direction target_x target_y with
        | Raise e => Throw (Navigator e)
        | Ok None => Throw AttributeError
        | Ok (Some direction') =>
            let '(x', y') := get_next_position x y direction' in
            simulate_loop pf target_x target_y steps' x' y' direction'
              (path ++ [(x', y')])
        end
  end.

Definition simulate_ghost_path (pf : Pathfinder) (ghost_x ghost_y : Z)
    (current_direction : Direction) (target_x target_y : Z) (max_steps : Z)
  : outcome (list (Z * Z)) :=
  simulate_loop pf target_x target_y (Z.to_nat max_steps)
    ghost_x ghost_y current_direction [(ghost_x, ghost_y)].

(** What [draw_maze] draws in a cell, and the text it adds to the line. *)
Inductive glyph : Type := GHOST | TARGET | VISITED | WALL | OPEN.

Definition glyph_text (g : glyph) : String.string :=
  match g with
  | GHOST => "👻 "
  | TARGET => "🎯 "
  | VISITED => "🟩 "
  | WALL => "🟦 "
  | OPEN => "⬜ "
  end%string.

(** [pos in path_set], for [path_set = set(path)]. *)
Definition in_path (path : list (Z * Z)) (pos : Z * Z) : bool :=
  existsb (tuple_eqb pos) path.

Definition cell_glyph (path : list (Z * Z)) (ghost target : Z * Z)
    (pos : Z * Z) (cell : Z) : glyph :=
  if tuple_eqb pos ghost then GHOST
  else if tuple_eqb pos target then TARGET
  else if in_path path pos then VISITED
  else if cell =? 1 then WALL
  else OPEN.

(** [for x, cell in enumerate(row)], from column [x] on. *)
Fixpoint draw_cells (path : list (Z * Z)) (ghost target : Z * Z) (y x : Z)
    (row : list Z) : list glyph :=
  match row with
  | [] => []
  | cell :: rest =>
      cell_glyph path ghost target (x, y) cell
      :: draw_cells path ghost target y (x + 1) rest
  end.

(** [for y, row in enumerate(maze)], from row [y] on. *)
Fixpoint draw_rows (path : list (Z * Z)) (ghost target : Z * Z) (y : Z)
    (maze0 : list (list Z)) : list (list glyph) :=
  match maze0 with
  | [] => []
  | row :: rest =>
      draw_cells path ghost target y 0 row
      :: draw_rows path ghost target (y + 1) rest
  end.

(** [line = ""] followed by [line += ...] for every cell. *)
Definition line_text (glyphs : list glyph) : String.string :=
  fold_left (fun line g => String.append line (glyph_text g)) glyphs
    String.EmptyString.

(** The lines [draw_maze] prints, in order. *)
Definition draw_maze (maze0 : list (list Z)) (path : list (Z * Z))
    (ghost target : Z * Z) : list String.string :=
  map line_text (draw_rows path ghost target 0 maze0).

(** What [animate_ghost] does to the terminal and the clock. *)
Inductive event : Type :=
| Clear                                         (* os.system("cls" or "clear") *)
| PrintStatus (step x y : Z) (direction : Direction)     (* the f-string *)
| PrintLine (line : String.string)              (* a line of draw_maze *)
| PrintTargetReached                            (* print("\nTarget reached!") *)
| Sleep (delay : Float.float).                  (* time.sleep(delay) *)

(** The [for step in range(max_steps)] loop of [animate_ghost], with [steps]
    iterations left: the events of the remaining iterations, and the error
    that ends them if there is one.  [direction] is [None] once
    [choose_direction] has returned [None].  [time_sleep delay] is what the
    call [time.sleep(delay)] does: [None] when it returns, and the exception
    when it raises, as it does for a negative delay. *)
Fixpoint animate_loop (time_sleep : Float.float -> option exn)
    (pf : Pathfinder) (maze0 : list (list Z))
    (target_x target_y : Z) (delay : Float.float) (steps : nat) (step : Z)
    (x y : Z) (direction : option Direction) (visited : list (Z * Z))
  : list event * option error :=
  match steps with
  | O => ([], None)
  | S steps' =>
      let visited := visited ++ [(x, y)] in
      match direction with
      | None => ([Clear], Some AttributeError)
      | Some d =>
          let shown :=
            [Clear; PrintStatus step x y d]
            ++ map PrintLine
                 (draw_maze maze0 visited (x, y) (target_x, target_y)) in
          if tuple_eqb (x, y) (target_x, target_y)
          then (shown ++ [PrintTargetReached], None)
          else
            match choose_direction pf x y d target_x target_y with
            | Raise e => (shown, Some (Navigator e))
            | Ok next_direction =>
                let '(x', y') := get_next_position x y d in
                match time_sleep delay with
                | Some e => (shown ++ [Sleep delay], Some (Clock e))
                | None =>
                    let '(events, failure) :=
                      animate_loop time_sleep pf maze0 target_x target_y
                        delay steps' (step + 1) x' y' next_direction
                        visited in
                    (shown ++ Sleep delay :: events, failure)
                end
            end
      end
  end.

Definition animate_ghost (time_sleep : Float.float -> option exn)
    (pf : Pathfinder) (maze0 : list (list Z))
    (ghost_x ghost_y : Z) (current_direction : Direction)
    (target_x target_y : Z) (delay : Float.float) (max_steps : Z)
  : list event * option error :=
  animate_loop time_sleep pf maze0 target_x target_y delay
    (Z.to_nat max_steps) 0 ghost_x ghost_y (Some current_direction) [].

(** The maze of the [__main__] block. *)
Definition main_maze : list (list Z) :=
  [ [1; 1; 1; 1; 1; 1; 1; 1; 1; 1; 1; 1; 1; 1; 1; 1; 1; 1; 1];
    [1; 0; 0; 0; 0; 0; 0; 0; 0; 1; 0; 0; 0; 0; 0; 0; 0; 0; 1];
    [1; 0; 1; 1; 0; 1; 1; 1; 0; 1; 0; 1; 1; 1; 0; 1; 1; 0; 1];
    [1; 0; 0; 0; 0; 0; 0; 0; 0; 0; 0; 0; 0; 0; 0; 0; 0; 0; 1];
    [1; 0; 1; 1; 0; 1; 0; 1; 1; 1; 1; 1; 0; 1; 0; 1; 1; 0; 1];
    [1; 0; 0; 0; 0; 1; 0; 0; 0; 1; 0; 0; 0; 1; 0; 0; 0; 0; 1];
    [1; 1; 1; 1; 0; 1; 1; 1; 0; 1; 0; 1; 1; 1; 0; 1; 1; 1; 1];
    [1; 1; 1; 1; 0; 1; 0; 0; 0; 0; 0; 0; 0; 1; 0; 1; 1; 1; 1];
    [1; 1; 1; 1; 0; 1; 0; 1; 1; 0; 1; 1; 0; 1; 0; 1; 1; 1; 1];
    [0; 0; 0; 0; 0; 0; 0; 1; 0; 0; 0; 1; 0; 0; 0; 0; 0; 0; 0];
    [1; 1; 1; 1; 0; 1; 0; 1; 1; 1; 1; 1; 0; 1; 0; 1; 1; 1; 1];
    [1; 1; 1; 1; 0; 1; 0; 0; 0; 0; 0; 0; 0; 1; 0; 1; 1; 1; 1];
    [1; 1; 1; 1; 0; 1; 0; 1; 1; 1; 1; 1; 0; 1; 0; 1; 1; 1; 1];
    [1; 0; 0; 0; 0; 0; 0; 0; 0; 1; 0; 0; 0; 0; 0; 0; 0; 0; 1];
    [1; 0; 1; 1; 0; 1; 1; 1; 0; 1; 0; 1; 1; 1; 0; 1; 1; 0; 1];
    [1; 0; 0; 1; 0; 0; 0; 0; 0; 0; 0; 0; 0; 0; 0; 1; 0; 0; 1];
    [1; 1; 0; 1; 0; 1; 0; 1; 1; 1; 1; 1; 0; 1; 0; 1; 0; 1; 1];
    [1; 0; 0; 0; 0; 1; 0; 0; 0; 1; 0; 0; 0; 1; 0; 0; 0; 0; 1];
    [1; 0; 1; 1; 1; 1; 1; 1; 0; 1; 0; 1; 1; 1; 1; 1; 1; 0; 1];
    [1; 0; 0; 0; 0; 0; 0; 0; 0; 0; 0; 0; 0; 0; 0; 0; 0; 0; 1];
    [1; 1; 1; 1; 1; 1; 1; 1; 1; 1; 1; 1; 1; 1; 1; 1; 1; 1; 1] ].

(** ** Vocabulary of the further properties *)

(** [q] is one step away from [p] in some direction. *)
Definition adjacent (p q : Z * Z) : Prop :=
  exists d, q = step (fst p) (snd p) d.

(** The tile [p] is within bounds and walkable. *)
Definition on_valid_tile (maze0 : list (list Z)) (p : Z * Z) : Prop :=
  valid_tile maze0 (fst p) (snd p) = true.

(** A number whose sign bit is clear: [+0.0], a positive float or [inf]. *)
Definition is_nonnegative (f : Float.float) : bool :=
  match f with
  | S754_zero false | S754_infinity false | S754_finite false _ _ => true
  | _ => false
  end.

(** From [p] on, every position of [l] is one step away from the one
    before it. *)
Fixpoint walk (p : Z * Z) (l : list (Z * Z)) : Prop :=
  match l with
  | [] => True
  | q :: rest => adjacent p q /\ walk q rest
  end.

(** The ghost positions the status lines of a trace show, in order. *)
Fixpoint status_positions (events : list event) : list (Z * Z) :=
  match events with
  | [] => []
  | PrintStatus _ x y _ :: rest => (x, y) :: status_positions rest
  | _ :: rest => status_positions rest
  end.

(** The number of [add_ghost_score] calls since the last [reset] or
    [add_power_pellet_score] of a sequence, [streak] being the number before
    the sequence. *)
Fixpoint ghost_streak (streak : Z) (ops : list ScoreManager.operation) : Z :=
  match ops with
  | [] => streak
  | ScoreManager.AddGhost :: rest => ghost_streak (streak + 1) rest
  | ScoreManager.AddPellet :: rest => ghost_streak streak rest
  | _ :: rest => ghost_streak 0 rest
  end.

(** * Properties *)

(** ** Directions *)

Lemma Direction_eqb_eq (a b : Direction) : Direction_eqb a b = true <-> a = b.
Proof. destruct a, b; simpl; split; congruence. Qed.

Lemma Direction_eqb_refl (a : Direction) : Direction_eqb a a = true.
Proof. now destruct a. Qed.

Lemma opposite_involutive (d : Direction) : opposite (opposite d) = d.
Proof. now destruct d. Qed.

Lemma preference_index_rank (d : Direction) :
  preference_index (Some d) = Ok (rank d).
Proof. now destruct d. Qed.

Lemma value_step (x y : Z) (d : Direction) :
  value d = (fst (value d), snd (value d)).
Proof. now destruct d. Qed.

(** ** The grid *)

Lemma getitem_nth {A : Type} (l : list A) (i : Z) (default : A) :
  0 <= i < len l -> getitem l i = Ok (nth (Z.to_nat i) l default).
Proof.
  intros [Hlo Hhi]. unfold getitem, len in *.
  destruct (i <? 0) eqn:Hneg; [apply Z.ltb_lt in Hneg; lia|].
  rewrite Hneg.
  destruct (nth_error l (Z.to_nat i)) eqn:Hnth.
  - now rewrite (nth_error_nth _ _ default Hnth).
  - apply nth_error_None in Hnth. lia.
Qed.

Lemma rectangular_row (maze0 : list (list Z)) (y : Z) :
  is_rectangular maze0 = true -> 0 <= y < len maze0 ->
  len (nth (Z.to_nat y) maze0 []) = width (Pathfinder_init maze0).
Proof.
  intros Hrect Hy. unfold is_rectangular in Hrect.
  rewrite forallb_forall in Hrect.
  apply Z.eqb_eq, Hrect, nth_In. unfold len in Hy. lia.
Qed.

Lemma is_valid_tile_spec (maze0 : list (list Z)) (x y : Z) :
  is_rectangular maze0 = true ->
  is_valid_tile (Pathfinder_init maze0) x y = Ok (valid_tile maze0 x y).
Proof.
  intros Hrect. unfold is_valid_tile, valid_tile, in_bounds.
  destruct (x <? 0) eqn:Hx0; simpl.
  { apply Z.ltb_lt in Hx0.
    destruct (0 <=? x) eqn:H; [apply Z.leb_le in H; lia|reflexivity]. }
  apply Z.ltb_ge in Hx0.
  destruct (0 <=? x) eqn:H; [clear H|apply Z.leb_gt in H; lia]. simpl.
  set (w := match maze0 with [] => 0 | row0 :: _ => len row0 end) in *.
  destruct (x >=? w) eqn:Hxw; simpl.
  { apply Z.geb_le in Hxw.
    destruct (x <? w) eqn:H; [apply Z.ltb_lt in H; lia|reflexivity]. }
  rewrite Z.geb_leb in Hxw. apply Z.leb_gt in Hxw.
  destruct (x <? w) eqn:H; [clear H|apply Z.ltb_ge in H; lia]. simpl.
  destruct (y <? 0) eqn:Hy0; simpl.
  { apply Z.ltb_lt in Hy0.
    destruct (0 <=? y) eqn:H; [apply Z.leb_le in H; lia|reflexivity]. }
  apply Z.ltb_ge in Hy0.
  destruct (0 <=? y) eqn:H; [clear H|apply Z.leb_gt in H; lia]. simpl.
  destruct (y >=? len maze0) eqn:Hyh; simpl.
  { apply Z.geb_le in Hyh.
    destruct (y <? len maze0) eqn:H; [apply Z.ltb_lt in H; lia|reflexivity]. }
  rewrite Z.geb_leb in Hyh. apply Z.leb_gt in Hyh.
  destruct (y <? len maze0) eqn:H; [clear H|apply Z.ltb_ge in H; lia]. simpl.
  rewrite (getitem_nth maze0 y []) by lia. simpl.
  pose proof (rectangular_row maze0 y Hrect ltac:(lia)) as Hrow.
  simpl in Hrow. fold w in Hrow.
  rewrite (getitem_nth _ x 1) by lia. simpl.
  reflexivity.
Qed.

Lemma valid_tile_in_bounds (maze0 : list (list Z)) (x y : Z) :
  valid_tile maze0 x y = true ->
  0 <= x < width (Pathfinder_init maze0) /\
  0 <= y < height (Pathfinder_init maze0) /\
  cell_at maze0 x y = WALKABLE.
Proof.
  unfold valid_tile, in_bounds. intros H.
  repeat (apply andb_prop in H; destruct H as [H ?]).
  apply Z.leb_le in H. 
  repeat match goal with
         | h : (_ <? _) = true |- _ => apply Z.ltb_lt in h
         | h : (_ <=? _) = true |- _ => apply Z.leb_le in h
         | h : (_ =? _) = true |- _ => apply Z.eqb_eq in h
         end.
  lia.
Qed.

(** ** get_available_exits *)

Lemma exits_loop_spec (maze0 : list (list Z)) (x y : Z) (h : Direction)
    (directions available : list Direction) :
  is_rectangular maze0 = true ->
  exits_loop (Pathfinder_init maze0) x y h directions available
  = Ok (available ++ filter (keeps_exit maze0 x y h) directions).
Proof.
  intros Hrect. revert available.
  induction directions as [|d rest IH]; intros available; simpl.
  - now rewrite app_nil_r.
  - unfold keeps_exit at 1.
    destruct (Direction_eqb d (opposite h)); simpl.
    + apply IH.
    + rewrite (value_step x y d) at 1.
      rewrite is_valid_tile_spec by assumption. simpl.
      unfold step; simpl.
      destruct (valid_tile maze0 (x + fst (value d)) (y + snd (value d))).
      * rewrite IH, <- app_assoc. reflexivity.
      * apply IH.
Qed.

Lemma get_available_exits_spec (maze0 : list (list Z)) (x y : Z)
    (h : Direction) :
  is_rectangular maze0 = true ->
  get_available_exits (Pathfinder_init maze0) x y h = Ok (exits_spec maze0 x y h).
Proof.
  intros Hrect. unfold get_available_exits.
  now rewrite exits_loop_spec.
Qed.

(** ** Floats: rounding never produces NaN *)

Module FloatFacts.

Import Float.

Lemma shr_1_nonneg (mrs : shr_record) :
  0 <= shr_m mrs -> 0 <= shr_m (shr_1 mrs).
Proof.
  destruct mrs as [m r s]; simpl.
  destruct m as [|[p|p|]|p]; simpl; lia.
Qed.

Lemma iter_shr_1_nonneg (p : positive) (mrs : shr_record) :
  0 <= shr_m mrs -> 0 <= shr_m (iter_pos shr_1 p mrs).
Proof.
  revert mrs. induction p as [p IH|p IH|]; intros mrs H; simpl.
  - apply IH, IH, shr_1_nonneg, H.
  - apply IH, IH, H.
  - apply shr_1_nonneg, H.
Qed.

Lemma shr_nonneg (mrs : shr_record) (e n : Z) :
  0 <= shr_m mrs -> 0 <= shr_m (fst (shr mrs e n)).
Proof.
  intros H. destruct n; simpl; auto using iter_shr_1_nonneg.
Qed.

Lemma shr_fexp_nonneg (m e : Z) (l : location) :
  0 <= m -> 0 <= shr_m (fst (shr_fexp prec emax m e l)).
Proof.
  intros H. unfold shr_fexp. apply shr_nonneg.
  destruct l as [|[ | | ]]; simpl; exact H.
Qed.

Lemma round_nearest_even_nonneg (m : Z) (l : location) :
  0 <= m -> 0 <= round_nearest_even m l.
Proof.
  intros H. destruct l as [|[ | | ]]; simpl; try lia.
  destruct (Z.even m); lia.
Qed.

Lemma binary_round_aux_number (sx : bool) (mx ex : Z) (lx : location) :
  0 <= mx -> is_number (binary_round_aux prec emax sx mx ex lx) = true.
Proof.
  intros H. unfold binary_round_aux.
  pose proof (shr_fexp_nonneg mx ex lx H) as H1.
  destruct (shr_fexp prec emax mx ex lx) as [mrs' e']. simpl in H1.
  pose proof (shr_fexp_nonneg
                (round_nearest_even (shr_m mrs') (loc_of_shr_record mrs'))
                e' loc_Exact
                (round_nearest_even_nonneg _ _ H1)) as H2.
  destruct (shr_fexp prec emax _ e' loc_Exact) as [mrs'' e'']. simpl in H2.
  destruct (shr_m mrs'') as [|m|m]; try reflexivity; try lia.
  now destruct (e'' <=? emax - prec).
Qed.

Lemma binary_normalize_number (m e : Z) (szero : bool) :
  is_number (binary_normalize prec emax m e szero) = true.
Proof.
  destruct m as [|m|m]; simpl; try reflexivity;
    unfold binary_round;
    destruct (shl_align _ _ _) as [mz ez];
    apply binary_round_aux_number; lia.
Qed.

Lemma of_int_number (z : Z) (f : float) :
  of_int z = Ok f -> is_number f = true.
Proof.
  unfold of_int. intros H.
  pose proof (binary_normalize_number z 0 false) as Hn.
  destruct (binary_normalize prec emax z 0 false); inversion H; subst;
    exact Hn.
Qed.

Lemma of_int_finite (z : Z) (f : float) :
  of_int z = Ok f -> is_finite f = true.
Proof.
  unfold of_int. intros H.
  pose proof (binary_normalize_number z 0 false) as Hn.
  destruct (binary_normalize prec emax z 0 false); inversion H; subst;
    try reflexivity; discriminate.
Qed.

Lemma abs_diff_number (a b : float) :
  is_finite a = true -> is_finite b = true ->
  is_number (abs_diff a b) = true.
Proof.
  intros Ha Hb. unfold abs_diff.
  destruct a as [sa|sa| |sa ma ea], b as [sb|sb| |sb mb eb];
    try discriminate; simpl.
  - now destruct sa, sb.
  - reflexivity.
  - reflexivity.
  - pose proof (binary_normalize_number
                  (cond_Zopp sa (Z.pos (fst (shl_align ma ea (Z.min ea eb)))) -
                   cond_Zopp sb (Z.pos (fst (shl_align mb eb (Z.min ea eb)))))
                  (Z.min ea eb) false) as Hn.
    destruct (binary_normalize _ _ _ _ _); simpl; try reflexivity.
    discriminate.
Qed.

Lemma sqrt_number (m : positive) (e : Z) :
  is_number (SFsqrt prec emax (S754_finite false m e)) = true.
Proof.
  unfold SFsqrt.
  destruct (SFsqrt_core_binary prec emax (Z.pos m) e) as [[mz ez] lz] eqn:Hc.
  apply binary_round_aux_number.
  unfold SFsqrt_core_binary in Hc.
  set (m' := match e - 2 * _ with
             | 0 => Z.pos m | Z.pos _ => _ | Z.neg _ => 0 end) in Hc.
  pose proof (Z.sqrtrem_sqrt m') as Hs.
  destruct (Z.sqrtrem m') as [q r]. inversion Hc; subst.
  simpl in Hs. rewrite Hs. apply Z.sqrt_nonneg.
Qed.

Lemma norm2_number (x y : float) :
  is_number x = true -> is_number y = true ->
  is_number (norm2 x y) = true.
Proof.
  intros Hx Hy.
  destruct x as [sa|sa| |sa ma ea], y as [sb|sb| |sb mb eb];
    try discriminate; simpl; try reflexivity; try apply sqrt_number.
Qed.

End FloatFacts.

Lemma euclidean_distance_number (x1 y1 x2 y2 : Z) (v : Float.float) :
  euclidean_distance x1 y1 x2 y2 = Ok v -> is_number v = true.
Proof.
  unfold euclidean_distance, math_dist; simpl.
  destruct (Float.of_int x1) as [px|] eqn:H1; [simpl|discriminate].
  destruct (Float.of_int x2) as [qx|] eqn:H2; [simpl|discriminate].
  destruct (Float.of_int y1) as [py|] eqn:H3; [simpl|discriminate].
  destruct (Float.of_int y2) as [qy|] eqn:H4; [simpl|discriminate].
  intros H; inversion H; subst.
  apply FloatFacts.norm2_number;
    apply FloatFacts.abs_diff_number; eauto using FloatFacts.of_int_finite.
Qed.

(** ** Floats: the comparisons order the numbers *)

Module FloatOrder.

Import Float.

Ltac compare_cases :=
  repeat match goal with
         | |- context [Z.compare ?a ?b] => destruct (Z.compare_spec a b)
         | |- context [Pos.compare_cont Eq ?a ?b] =>
             change (Pos.compare_cont Eq a b) with (Pos.compare a b)
         | |- context [Pos.compare ?a ?b] => destruct (Pos.compare_spec a b)
         end.

Ltac by_cases a b c :=
  destruct a as [[|]|[|]| |[|] ? ?], b as [[|]|[|]| |[|] ? ?],
    c as [[|]|[|]| |[|] ? ?];
  simpl; try discriminate; try congruence;
  compare_cases; subst; simpl; intros; try congruence; try lia.

Lemma compare_trans (a b c : float) (x : comparison) :
  SFcompare a b = Some x -> SFcompare b c = Some x ->
  SFcompare a c = Some x.
Proof. by_cases a b c. Qed.

Lemma compare_eq_l (a b c : float) (x : comparison) :
  SFcompare a b = Some Eq -> SFcompare b c = Some x ->
  SFcompare a c = Some x.
Proof. by_cases a b c. Qed.

Lemma compare_eq_r (a b c : float) (x : comparison) :
  SFcompare a b = Some x -> SFcompare b c = Some Eq ->
  SFcompare a c = Some x.
Proof. by_cases a b c. Qed.

Lemma compare_refl (a : float) :
  is_number a = true -> SFcompare a a = Some Eq.
Proof.
  destruct a as [[|]|[|]| |[|] m e]; simpl; try discriminate;
    try reflexivity;
    rewrite Z.compare_refl;
    change (Pos.compare_cont Eq m m) with (Pos.compare m m);
    now rewrite Pos.compare_refl.
Qed.

Lemma ltb_lt (a b : float) : ltb a b = true <-> SFcompare a b = Some Lt.
Proof.
  unfold ltb, SFltb.
  destruct (SFcompare a b) as [[ | | ]|]; split; congruence.
Qed.

Lemma eqb_eq (a b : float) : eqb a b = true <-> SFcompare a b = Some Eq.
Proof.
  unfold eqb, SFeqb.
  destruct (SFcompare a b) as [[ | | ]|]; split; congruence.
Qed.

Lemma ltb_trans (a b c : float) :
  ltb a b = true -> ltb b c = true -> ltb a c = true.
Proof. rewrite !ltb_lt. apply compare_trans. Qed.

Lemma eqb_ltb_trans (a b c : float) :
  eqb a b = true -> ltb b c = true -> ltb a c = true.
Proof. rewrite !ltb_lt, eqb_eq. apply compare_eq_l. Qed.

Lemma ltb_eqb_trans (a b c : float) :
  ltb a b = true -> eqb b c = true -> ltb a c = true.
Proof. rewrite !ltb_lt, eqb_eq. apply compare_eq_r. Qed.

Lemma eqb_trans (a b c : float) :
  eqb a b = true -> eqb b c = true -> eqb a c = true.
Proof. rewrite !eqb_eq. apply compare_trans. Qed.

Lemma eqb_sym (a b : float) : eqb a b = true -> eqb b a = true.
Proof.
  rewrite !eqb_eq.
  destruct a as [[|]|[|]| |[|] ma ea], b as [[|]|[|]| |[|] mb eb];
    simpl; try discriminate; try congruence;
    compare_cases; subst; simpl; intros; try congruence; try lia.
Qed.

Lemma eqb_refl (a : float) : is_number a = true -> eqb a a = true.
Proof. intros H. now apply eqb_eq, compare_refl. Qed.

Lemma ltb_not_eqb (a b : float) : ltb a b = true -> eqb a b = false.
Proof.
  unfold ltb, eqb, SFltb, SFeqb.
  destruct (SFcompare a b) as [[ | | ]|]; congruence.
Qed.

(** A number is below [inf] or equal to it. *)
Lemma below_inf (v : float) :
  is_number v = true -> ltb v inf = false -> eqb v inf = true.
Proof.
  destruct v as [[|]|[|]| |[|] m e]; unfold ltb, eqb, inf; cbn;
    intros; congruence.
Qed.

Lemma ltb_inf_finite (v : float) :
  is_number v = true -> ltb v inf = true <-> v <> inf.
Proof.
  destruct v as [[|]|[|]| |[|] m e]; unfold ltb, inf; cbn; intros;
    split; congruence.
Qed.

End FloatOrder.

(** ** Floats: magnitudes, and the distances that are finite *)

Module FloatBounds.
Import Float.

Lemma digits2_size (p : positive) : digits2_pos p = Pos.size p.
Proof. induction p; simpl; congruence. Qed.

Lemma Zdigits2_nonneg (z : Z) : 0 <= Zdigits2 z.
Proof. destruct z; simpl; lia. Qed.

Lemma Zdigits2_upper (z : Z) : Z.abs z < 2 ^ Zdigits2 z.
Proof.
  destruct z as [|p|p]; simpl Zdigits2; simpl Z.abs; try lia;
    rewrite digits2_size; pose proof (Pos.size_gt p) as H;
    rewrite <- Pos2Z.inj_pow; lia.
Qed.

Lemma Zdigits2_lower (z : Z) : z <> 0 -> 2 ^ Zdigits2 z <= 2 * Z.abs z.
Proof.
  intros Hz.
  destruct z as [|p|p]; simpl Zdigits2; simpl Z.abs; try lia;
    rewrite digits2_size; pose proof (Pos.size_le p) as H;
    rewrite <- Pos2Z.inj_pow; lia.
Qed.

Lemma Zdigits2_le (z k : Z) : 0 <= k -> Z.abs z < 2 ^ k -> Zdigits2 z <= k.
Proof.
  intros Hk Hz.
  destruct (Z.eq_dec z 0) as [->|Hnz]; [simpl; lia|].
  pose proof (Zdigits2_lower z Hnz) as Hlo.
  pose proof (Zdigits2_nonneg z) as Hnn.
  assert (H : 2 ^ Zdigits2 z < 2 ^ (k + 1)).
  { rewrite Z.pow_add_r by lia. lia. }
  apply Z.pow_lt_mono_r_iff in H; lia.
Qed.

Lemma shr_1_digits (mrs : shr_record) :
  0 <= shr_m mrs ->
  Zdigits2 (shr_m (shr_1 mrs)) = Z.max 0 (Zdigits2 (shr_m mrs) - 1).
Proof.
  destruct mrs as [m r s]; cbn [shr_m]. intros Hm.
  destruct m as [|[p|p|]|p]; cbn [shr_1 shr_m Zdigits2 digits2_pos]; lia.
Qed.

Lemma iter_shr_1_digits (p : positive) (mrs : shr_record) :
  0 <= shr_m mrs ->
  Zdigits2 (shr_m (iter_pos shr_1 p mrs))
  = Z.max 0 (Zdigits2 (shr_m mrs) - Z.pos p).
Proof.
  revert mrs. induction p as [p IH|p IH|]; intros mrs H; simpl iter_pos.
  - rewrite IH, IH, shr_1_digits; auto using FloatFacts.iter_shr_1_nonneg, FloatFacts.shr_1_nonneg. lia.
  - rewrite IH, IH; auto using FloatFacts.iter_shr_1_nonneg. lia.
  - now apply shr_1_digits.
Qed.

Lemma fexp_max (e : Z) : fexp prec emax e = Z.max (e - 53) (-1074).
Proof. reflexivity. Qed.

Lemma shr_fexp_bound (m e : Z) (l : location) :
  0 <= m ->
  let r := shr_fexp prec emax m e l in
  0 <= shr_m (fst r) /\
  snd r = Z.max e (fexp prec emax (Zdigits2 m + e)) /\
  Zdigits2 (shr_m (fst r)) + snd r <= Z.max (Zdigits2 m + e) (snd r).
Proof.
  intros Hm r. split; [now apply FloatFacts.shr_fexp_nonneg|].
  subst r. unfold shr_fexp, shr.
  assert (Hrec : shr_m (shr_record_of_loc m l) = m)
    by (destruct l as [|[ | | ]]; reflexivity).
  destruct (fexp prec emax (Zdigits2 m + e) - e) as [|n|n] eqn:Hn; simpl fst; simpl snd.
  - rewrite Hrec. lia.
  - rewrite iter_shr_1_digits by (rewrite Hrec; assumption).
    rewrite Hrec. lia.
  - rewrite Hrec. lia.
Qed.

Lemma round_nearest_even_digits (m : Z) (l : location) :
  0 <= m -> Zdigits2 (round_nearest_even m l) <= Zdigits2 m + 1.
Proof.
  intros Hm.
  assert (H1 : Zdigits2 (m + 1) <= Zdigits2 m + 1).
  { pose proof (Zdigits2_upper m) as Hu. pose proof (Zdigits2_nonneg m).
    apply Zdigits2_le; [lia|].
    rewrite Z.pow_add_r by lia. lia. }
  destruct l as [|[ | | ]]; simpl; try lia.
  destruct (Z.even m); lia.
Qed.

Lemma binary_round_aux_bounded (sx : bool) (mx ex : Z) (lx : location) (B : Z) :
  0 <= mx -> Zdigits2 mx + ex <= B -> ex <= emax - prec ->
  emin prec emax <= B -> B < emax ->
  bounded_by (B + 1) (binary_round_aux prec emax sx mx ex lx).
Proof.
  intros Hmx HB Hex HBlo HBhi. unfold binary_round_aux.
  pose proof (Zdigits2_nonneg mx) as Hd.
  destruct (shr_fexp_bound mx ex lx Hmx) as (H1 & H2 & H3).
  destruct (shr_fexp prec emax mx ex lx) as [mrs' e']. simpl in H1, H2, H3.
  pose proof (FloatFacts.round_nearest_even_nonneg _ (loc_of_shr_record mrs') H1) as Hr.
  pose proof (round_nearest_even_digits _ (loc_of_shr_record mrs') H1) as Hrd.
  destruct (shr_fexp_bound _ e' loc_Exact Hr) as (H4 & H5 & H6).
  destruct (shr_fexp prec emax _ e' loc_Exact) as [mrs'' e'']. simpl in H4, H5, H6.
  rewrite fexp_max in H2, H5.
  change (emin prec emax) with (-1074) in HBlo.
  change (emax - prec) with 971 in *. change emax with 1024 in HBhi.
  destruct (shr_m mrs'') as [|m|m] eqn:Hm2; cbn [bounded_by]; try lia.
  destruct (e'' <=? 971) eqn:He; cbn [bounded_by].
  - apply Z.leb_le in He. cbn [Zdigits2] in H6.
    change (emax - prec) with 971. lia.
  - apply Z.leb_gt in He. lia.
Qed.


Lemma iter_xO_digits (m d : positive) :
  digits2_pos (Pos.iter xO m d) = (digits2_pos m + d)%positive.
Proof.
  induction d as [|d IH] using Pos.peano_ind.
  - simpl. lia.
  - rewrite Pos.iter_succ. simpl. rewrite IH. lia.
Qed.

Lemma iter_xO_value (m d : positive) :
  Z.pos (Pos.iter xO m d) = Z.pos m * 2 ^ Z.pos d.
Proof.
  induction d as [|d IH] using Pos.peano_ind.
  - simpl. lia.
  - rewrite Pos.iter_succ, Pos2Z.inj_succ, Z.pow_succ_r by lia.
    rewrite Pos2Z.inj_xO, IH. lia.
Qed.

(** Aligning a mantissa to a smaller exponent keeps the magnitude. *)
Lemma shl_align_digits (mx : positive) (ex ex' : Z) :
  Z.pos (digits2_pos (fst (shl_align mx ex ex'))) + snd (shl_align mx ex ex')
  = Z.pos (digits2_pos mx) + ex /\
  snd (shl_align mx ex ex') = Z.min ex ex'.
Proof.
  unfold shl_align.
  destruct (ex' - ex) as [|d|d] eqn:Hd; simpl fst; simpl snd; try lia.
  rewrite iter_xO_digits. lia.
Qed.

Lemma binary_round_bounded (sx : bool) (mx : positive) (ex B : Z) :
  Z.pos (digits2_pos mx) + ex <= B -> ex <= emax - prec ->
  emin prec emax <= B -> B < emax ->
  bounded_by (B + 1) (binary_round prec emax sx mx ex).
Proof.
  intros HB Hex HBlo HBhi. unfold binary_round.
  destruct (shl_align_digits mx ex
              (fexp prec emax (Z.pos (digits2_pos mx) + ex))) as [H1 H2].
  destruct (shl_align mx ex _) as [mz ez]. cbn [fst snd] in H1, H2.
  apply binary_round_aux_bounded; cbn [Zdigits2]; lia.
Qed.

Lemma binary_normalize_bounded (m e B : Z) (szero : bool) :
  Zdigits2 m + e <= B -> e <= emax - prec ->
  emin prec emax <= B -> B < emax ->
  bounded_by (B + 1) (binary_normalize prec emax m e szero).
Proof.
  intros HB He HBlo HBhi.
  destruct m as [|m|m]; simpl; [trivial| |];
    apply binary_round_bounded; assumption.
Qed.

Lemma bounded_by_finite (B : Z) (f : float) :
  bounded_by B f -> is_finite f = true.
Proof. destruct f; simpl; tauto. Qed.

Lemma bounded_by_below_inf (B : Z) (f : float) :
  bounded_by B f -> ltb f inf = true.
Proof. destruct f as [[|]|[|]| |[|] m e]; simpl; tauto. Qed.

Lemma bounded_by_mono (B B' : Z) (f : float) :
  B <= B' -> bounded_by B f -> bounded_by B' f.
Proof. destruct f; simpl; try tauto. lia. Qed.

(** An int below [2^k] in magnitude, [k < 1024], converts to a float. *)
Lemma of_int_bounded (z k : Z) :
  0 <= k < emax -> Z.abs z < 2 ^ k ->
  exists f, of_int z = Ok f /\ bounded_by (k + 1) f.
Proof.
  intros Hk Hz. unfold of_int.
  pose proof (binary_normalize_bounded z 0 k false) as Hb.
  assert (Hd : Zdigits2 z + 0 <= k)
    by (pose proof (Zdigits2_le z k); lia).
  specialize (Hb Hd).
  change (emax - prec) with 971 in Hb.
  change (emin prec emax) with (-1074) in Hb.
  specialize (Hb ltac:(lia) ltac:(lia) ltac:(lia)).
  destruct (binary_normalize prec emax z 0 false) as [s|s| |s m e];
    simpl in Hb; try contradiction; eexists; split; try reflexivity;
    exact Hb.
Qed.


Lemma Zdigits2_abs_lt (z k : Z) : Zdigits2 z <= k -> Z.abs z < 2 ^ k.
Proof.
  intros H. pose proof (Zdigits2_upper z) as Hu.
  pose proof (Zdigits2_nonneg z) as Hn.
  pose proof (Z.pow_le_mono_r 2 (Zdigits2 z) k ltac:(lia) H). lia.
Qed.

Lemma Zdigits2_sub (a b k : Z) :
  Zdigits2 a <= k -> Zdigits2 b <= k -> Zdigits2 (a - b) <= k + 1.
Proof.
  intros Ha Hb.
  pose proof (Zdigits2_nonneg a) as Hn.
  pose proof (Zdigits2_abs_lt a k Ha). pose proof (Zdigits2_abs_lt b k Hb).
  apply Zdigits2_le; [lia|].
  rewrite Z.pow_add_r by lia. lia.
Qed.

Lemma Zdigits2_cond_Zopp (s : bool) (z : Z) :
  Zdigits2 (cond_Zopp s z) = Zdigits2 z.
Proof. destruct s, z; reflexivity. Qed.

Lemma abs_diff_bounded (a b : float) (B : Z) :
  bounded_by B a -> bounded_by B b ->
  emin prec emax <= B -> B + 1 < emax ->
  bounded_by (B + 2) (abs_diff a b).
Proof.
  intros Ha Hb HBlo HBhi. unfold abs_diff.
  destruct a as [sa|sa| |sa ma ea], b as [sb|sb| |sb mb eb];
    try contradiction; cbn [SFsub].
  - destruct sa, sb; exact I.
  - cbn [SFabs bounded_by] in *. lia.
  - cbn [SFabs bounded_by] in *. lia.
  - cbn [bounded_by] in Ha, Hb.
    destruct (shl_align_digits ma ea (Z.min ea eb)) as [Ha1 Ha2].
    destruct (shl_align_digits mb eb (Z.min ea eb)) as [Hb1 Hb2].
    set (ax := fst (shl_align ma ea (Z.min ea eb))) in *.
    set (bx := fst (shl_align mb eb (Z.min ea eb))) in *.
    set (D := cond_Zopp sa (Z.pos ax) - cond_Zopp sb (Z.pos bx)).
    assert (HD : Zdigits2 D + Z.min ea eb <= B + 1).
    { pose proof (Zdigits2_sub (cond_Zopp sa (Z.pos ax))
                    (cond_Zopp sb (Z.pos bx)) (B - Z.min ea eb)) as H.
      rewrite !Zdigits2_cond_Zopp in H. cbn [Zdigits2] in H.
      fold D in H. lia. }
    pose proof (binary_normalize_bounded D (Z.min ea eb) (B + 1) false HD)
      as Hn.
    change (emax - prec) with 971 in *.
    specialize (Hn ltac:(lia) ltac:(lia) ltac:(lia)).
    replace (B + 2) with (B + 1 + 1) by lia.
    destruct (binary_normalize prec emax D (Z.min ea eb) false);
      cbn [SFabs bounded_by] in *; assumption.
Qed.

Lemma sqrt_bounded (m : positive) (e C : Z) :
  Z.pos (digits2_pos m) + e <= C -> e <= 2 * (emax - prec) ->
  2 * emin prec emax <= C -> C + 1 < 2 * emax ->
  bounded_by ((C + 1) / 2 + 1) (SFsqrt prec emax (S754_finite false m e)).
Proof.
  intros HC He HClo HChi. unfold SFsqrt.
  destruct (SFsqrt_core_binary prec emax (Z.pos m) e) as [[mz ez] lz] eqn:Hc.
  unfold SFsqrt_core_binary in Hc. cbn [Zdigits2] in Hc.
  rewrite fexp_max, !Z.div2_div in Hc.
  change IntDef.Z.sqrtrem with Z.sqrtrem in Hc.
  change IntDef.Z.shiftl with Z.shiftl in Hc.
  change (emax - prec) with 971 in *.
  change (emin prec emax) with (-1074) in *. change emax with 1024 in *.
  set (d := Z.pos (digits2_pos m)) in *.
  assert (Hd : 0 < d) by (subst d; lia).
  assert (Hdm : Zdigits2 (Z.pos m) <= d) by (subst d; cbn [Zdigits2]; lia).
  clearbody d.
  set (e' := Z.min (Z.max ((d + e + 1) / 2 - 53) (-1074)) (e / 2)) in *.
  assert (He' : e' <= e / 2) by (subst e'; lia).
  assert (He'' : e' <= Z.max ((d + e + 1) / 2 - 53) (-1074))
    by (subst e'; lia).
  clearbody e'.
  assert (Hs : 0 <= e - 2 * e') by (Z.div_mod_to_equations; lia).
  set (m' := match e - 2 * e' with
             | 0 => Z.pos m
             | Z.pos _ => Z.shiftl (Z.pos m) (e - 2 * e')
             | Z.neg _ => 0
             end) in Hc.
  assert (Hm' : m' = Z.pos m * 2 ^ (e - 2 * e')).
  { subst m'. destruct (e - 2 * e') as [|p|p] eqn:Hp.
    - lia.
    - now rewrite Z.shiftl_mul_pow2.
    - lia. }
  clearbody m'.
  pose proof (Z.sqrtrem_sqrt m') as Hq.
  destruct (Z.sqrtrem m') as [q r]. inversion Hc; subst mz ez lz. clear Hc.
  cbn [fst] in Hq. subst q.
  assert (Hpos : 0 <= m') by (subst m'; apply Z.mul_nonneg_nonneg; lia).
  pose proof (Z.sqrt_nonneg m') as Hqnn.
  pose proof (Z.sqrt_spec m' Hpos) as [Hlo _].
  set (q := Z.sqrt m') in *. clearbody q.
  set (k := (d + (e - 2 * e') + 1) / 2).
  assert (Hk : 0 <= k) by (subst k; Z.div_mod_to_equations; lia).
  assert (Hk2 : d + (e - 2 * e') <= k + k)
    by (subst k; Z.div_mod_to_equations; lia).
  assert (Hke : k + e' <= (C + 1) / 2)
    by (subst k; Z.div_mod_to_equations; lia).
  clearbody k.
  assert (Hqk : Zdigits2 q <= k).
  { apply Zdigits2_le; [assumption|].
    rewrite Z.abs_eq by assumption.
    destruct (Z.lt_ge_cases q (2 ^ k)) as [|Hge]; [assumption|exfalso].
    assert (Hkpos : 0 < 2 ^ k) by (apply Z.pow_pos_nonneg; lia).
    assert (Hsq : 2 ^ k * 2 ^ k <= q * q) by nia.
    rewrite <- Z.pow_add_r in Hsq by lia.
    pose proof (Zdigits2_abs_lt (Z.pos m) d) as Hu.
    rewrite Z.abs_eq in Hu by lia.
    assert (Hm2 : m' < 2 ^ d * 2 ^ (e - 2 * e')).
    { rewrite Hm'. apply Z.mul_lt_mono_pos_r; [apply Z.pow_pos_nonneg; lia|].
      apply Hu, Hdm. }
    rewrite <- Z.pow_add_r in Hm2 by lia.
    assert (Hle : 2 ^ (d + (e - 2 * e')) <= 2 ^ (k + k)).
    { apply Z.pow_le_mono_r; lia. }
    lia. }
  apply binary_round_aux_bounded;
    change (emax - prec) with 971;
    change (emin prec emax) with (-1074); change emax with 1024;
    try (Z.div_mod_to_equations; lia).
Qed.


Lemma square_digits (a b : positive) (k : Z) :
  Z.pos (digits2_pos a) <= k -> Z.pos (digits2_pos b) <= k ->
  Z.pos (digits2_pos (a * a + b * b)) <= 2 * k + 1.
Proof.
  intros Ha Hb.
  pose proof (Zdigits2_abs_lt (Z.pos a) k Ha) as Ha'.
  pose proof (Zdigits2_abs_lt (Z.pos b) k Hb) as Hb'.
  rewrite Z.abs_eq in Ha', Hb' by lia.
  assert (Hk : 0 <= k) by lia.
  change (Z.pos (digits2_pos (a * a + b * b)))
    with (Zdigits2 (Z.pos (a * a + b * b))).
  apply Zdigits2_le; [lia|].
  rewrite Z.abs_eq by lia.
  replace (2 * k + 1) with (k + k + 1) by lia.
  rewrite !Z.pow_add_r by lia.
  rewrite Pos2Z.inj_add, !Pos2Z.inj_mul. nia.
Qed.

Lemma square_digits_one (a : positive) (k : Z) :
  Z.pos (digits2_pos a) <= k -> Z.pos (digits2_pos (a * a)) <= 2 * k.
Proof.
  intros Ha.
  pose proof (Zdigits2_abs_lt (Z.pos a) k Ha) as Ha'.
  rewrite Z.abs_eq in Ha' by lia.
  assert (Hk : 0 <= k) by lia.
  change (Z.pos (digits2_pos (a * a))) with (Zdigits2 (Z.pos (a * a))).
  apply Zdigits2_le; [lia|].
  rewrite Z.abs_eq by lia.
  replace (2 * k) with (k + k) by lia.
  rewrite !Z.pow_add_r by lia.
  rewrite !Pos2Z.inj_mul. nia.
Qed.

Lemma norm2_bounded (x y : float) (B : Z) :
  bounded_by B x -> bounded_by B y ->
  emin prec emax <= B -> B + 1 < emax ->
  bounded_by (B + 2) (norm2 x y).
Proof.
  intros Hx Hy HBlo HBhi.
  change (emin prec emax) with (-1074) in *. change emax with 1024 in *.
  destruct x as [sx|sx| |sx mx ex], y as [sy|sy| |sy my ey];
    try contradiction; cbn [norm2 bounded_by] in *.
  - exact I.
  - pose proof (square_digits_one my (B - ey) ltac:(lia)) as Hsq.
    pose proof (sqrt_bounded (my * my) (2 * ey) (2 * B + 1)) as Hs.
    change (emin prec emax) with (-1074) in *. change emax with 1024 in *.
    change (1024 - prec) with 971 in *.
    specialize (Hs ltac:(lia) ltac:(lia) ltac:(lia) ltac:(lia)).
    replace ((2 * B + 1 + 1) / 2 + 1) with (B + 2) in Hs
      by (Z.div_mod_to_equations; lia).
    exact Hs.
  - pose proof (square_digits_one mx (B - ex) ltac:(lia)) as Hsq.
    pose proof (sqrt_bounded (mx * mx) (2 * ex) (2 * B + 1)) as Hs.
    change (emin prec emax) with (-1074) in *. change emax with 1024 in *.
    change (1024 - prec) with 971 in *.
    specialize (Hs ltac:(lia) ltac:(lia) ltac:(lia) ltac:(lia)).
    replace ((2 * B + 1 + 1) / 2 + 1) with (B + 2) in Hs
      by (Z.div_mod_to_equations; lia).
    exact Hs.
  - unfold square_sum.
    destruct (shl_align_digits mx ex (Z.min ex ey)) as [Ha1 Ha2].
    destruct (shl_align_digits my ey (Z.min ex ey)) as [Hb1 Hb2].
    set (ax := fst (shl_align mx ex (Z.min ex ey))) in *.
    set (ay := fst (shl_align my ey (Z.min ex ey))) in *.
    pose proof (square_digits ax ay (B - Z.min ex ey)
                  ltac:(lia) ltac:(lia)) as Hsq.
    pose proof (sqrt_bounded (ax * ax + ay * ay) (2 * Z.min ex ey)
                  (2 * B + 1)) as Hs.
    change (emin prec emax) with (-1074) in *. change emax with 1024 in *.
    change (1024 - prec) with 971 in *.
    specialize (Hs ltac:(lia) ltac:(lia) ltac:(lia) ltac:(lia)).
    replace ((2 * B + 1 + 1) / 2 + 1) with (B + 2) in Hs
      by (Z.div_mod_to_equations; lia).
    exact Hs.
Qed.

End FloatBounds.


(** Coordinates below [2^1001] in magnitude have a finite distance. *)
Lemma euclidean_distance_finite (x1 y1 x2 y2 : Z) :
  Z.abs x1 < 2 ^ 1001 -> Z.abs y1 < 2 ^ 1001 ->
  Z.abs x2 < 2 ^ 1001 -> Z.abs y2 < 2 ^ 1001 ->
  exists v, euclidean_distance x1 y1 x2 y2 = Ok v /\
            Float.ltb v Float.inf = true.
Proof.
  intros H1 H2 H3 H4.
  unfold euclidean_distance, math_dist. cbn [fst snd].
  assert (Hk : 0 <= 1001 < Float.emax) by (unfold Float.emax; lia).
  destruct (FloatBounds.of_int_bounded x1 1001 Hk H1) as (px & -> & Hpx).
  destruct (FloatBounds.of_int_bounded x2 1001 Hk H3) as (qx & -> & Hqx).
  destruct (FloatBounds.of_int_bounded y1 1001 Hk H2) as (py & -> & Hpy).
  destruct (FloatBounds.of_int_bounded y2 1001 Hk H4) as (qy & -> & Hqy).
  cbn [bind]. eexists. split; [reflexivity|].
  apply (FloatBounds.bounded_by_below_inf (1001 + 1 + 2 + 2)).
  apply FloatBounds.norm2_bounded;
    try apply FloatBounds.abs_diff_bounded; trivial;
    vm_compute; congruence.
Qed.

(** For a ghost and a target within [2^1000] of the origin, the distance of
    every candidate is computed and finite. *)
Lemma test_distance_finite (gx gy : Z) (h : Direction) (tx ty : Z)
    (d : Direction) :
  Z.abs gx <= 2 ^ 1000 -> Z.abs gy <= 2 ^ 1000 ->
  Z.abs tx <= 2 ^ 1000 -> Z.abs ty <= 2 ^ 1000 ->
  exists v,
    test_distance (fst (step gx gy h)) (snd (step gx gy h)) tx ty d = Ok v /\
    Float.ltb v Float.inf = true.
Proof.
  intros Hgx Hgy Htx Hty. unfold test_distance.
  assert (Hpow : 2 ^ 1001 = 2 * 2 ^ 1000) by reflexivity.
  assert (Hbig : 4 < 2 ^ 1000) by reflexivity.
  apply euclidean_distance_finite; rewrite Hpow;
    destruct h, d; cbn [step value fst snd]; lia.
Qed.

(** ** Floats: integers below 2^53 and their exact arithmetic *)

Module FloatExact.
Import Float.
Import FloatBounds.

Lemma shr_1_div2 (mrs : shr_record) :
  0 <= shr_m mrs -> shr_m (shr_1 mrs) = shr_m mrs / 2.
Proof.
  destruct mrs as [m r s]; cbn [shr_m]. intros Hm.
  destruct m as [|[p|p|]|p]; cbn [shr_1 shr_m];
    try rewrite Pos2Z.inj_xI; try rewrite Pos2Z.inj_xO;
    Z.div_mod_to_equations; lia.
Qed.

Lemma iter_pos_iter {A : Type} (f : A -> A) (p : positive) (x : A) :
  iter_pos f p x = Pos.iter f x p.
Proof.
  revert x. induction p as [p IH|p IH|]; intros x; cbn [iter_pos Pos.iter].
  - now rewrite !IH, !Pos.iter_swap.
  - now rewrite !IH.
  - reflexivity.
Qed.

Lemma iter_shr_1_div (p : positive) (mrs : shr_record) :
  0 <= shr_m mrs ->
  shr_m (iter_pos shr_1 p mrs) = shr_m mrs / 2 ^ Z.pos p.
Proof.
  intros Hm. rewrite iter_pos_iter.
  induction p as [|p IH] using Pos.peano_ind.
  - cbn [Pos.iter]. now rewrite shr_1_div2.
  - rewrite Pos.iter_succ, shr_1_div2, IH.
    + rewrite Z.div_div by (try apply Z.pow_pos_nonneg; lia).
      now rewrite Pos2Z.inj_succ, Z.pow_succ_r, Z.mul_comm by lia.
    + rewrite IH. apply Z.div_pos; [assumption|apply Z.pow_pos_nonneg; lia].
Qed.

(** Shifting out zero bits only leaves the round and sticky bits clear. *)
Lemma shr_1_exact (m : Z) :
  0 <= m -> m mod 2 = 0 ->
  shr_1 (Build_shr_record m false false)
  = Build_shr_record (m / 2) false false.
Proof.
  intros Hm Hmod.
  destruct m as [|[p|p|]|p]; cbn [shr_1 orb];
    try rewrite Pos2Z.inj_xI in *; try rewrite Pos2Z.inj_xO in *;
    try (exfalso; Z.div_mod_to_equations; lia);
    f_equal; Z.div_mod_to_equations; lia.
Qed.

Lemma iter_shr_1_exact (p : positive) (m : Z) :
  0 <= m -> (2 ^ Z.pos p | m) ->
  iter_pos shr_1 p (Build_shr_record m false false)
  = Build_shr_record (m / 2 ^ Z.pos p) false false.
Proof.
  intros Hm. rewrite iter_pos_iter.
  induction p as [|p IH] using Pos.peano_ind; intros [c Hc].
  - cbn [Pos.iter]. change (2 ^ 1) with 2 in *.
    apply shr_1_exact; [assumption|]. subst m. apply Z.mod_mul. lia.
  - rewrite Pos2Z.inj_succ, Z.pow_succ_r in * by lia.
    assert (Hp : 0 < 2 ^ Z.pos p) by (apply Z.pow_pos_nonneg; lia).
    rewrite Pos.iter_succ, IH by (exists (c * 2); lia).
    assert (Hdiv : m / 2 ^ Z.pos p = c * 2).
    { subst m. replace (c * (2 * 2 ^ Z.pos p)) with (c * 2 * 2 ^ Z.pos p)
        by lia. apply Z.div_mul. lia. }
    rewrite shr_1_exact; rewrite Hdiv.
    + f_equal. rewrite Z.div_mul by lia. subst m.
      symmetry. apply Z.div_mul. lia.
    + nia.
    + apply Z.mod_mul. lia.
Qed.



Lemma Zdigits2_unique (z k : Z) :
  2 ^ (k - 1) <= Z.abs z < 2 ^ k -> 0 < k -> Zdigits2 z = k.
Proof.
  intros [Hlo Hhi] Hk.
  pose proof (Zdigits2_le z k ltac:(lia) Hhi) as Hle.
  destruct (Z.eq_dec z 0) as [->|Hz].
  { pose proof (Z.pow_pos_nonneg 2 (k - 1)). simpl in Hlo. lia. }
  pose proof (Zdigits2_upper z) as Hu.
  pose proof (Zdigits2_nonneg z) as Hn.
  destruct (Z.lt_ge_cases (Zdigits2 z) k) as [Hlt|]; [exfalso|lia].
  pose proof (Z.pow_le_mono_r 2 (Zdigits2 z) (k - 1) ltac:(lia) ltac:(lia)).
  lia.
Qed.

Lemma Zdigits2_bounds (z : Z) :
  z <> 0 -> 2 ^ (Zdigits2 z - 1) <= Z.abs z < 2 ^ Zdigits2 z.
Proof.
  intros Hz. split; [|apply Zdigits2_upper].
  pose proof (Zdigits2_lower z Hz) as Hlo.
  assert (Hpos : 0 < Zdigits2 z) by (destruct z; simpl; lia).
  replace (Zdigits2 z) with (1 + (Zdigits2 z - 1)) in Hlo at 1 by lia.
  rewrite Z.pow_add_r in Hlo by lia. lia.
Qed.

Lemma Zdigits2_shift (z k : Z) :
  z <> 0 -> 0 <= k -> Zdigits2 (z * 2 ^ k) = Zdigits2 z + k.
Proof.
  intros Hz Hk.
  destruct (Zdigits2_bounds z Hz) as [Hlo Hhi].
  assert (Hpos : 0 < Zdigits2 z) by (destruct z; simpl; lia).
  assert (Hp : 0 < 2 ^ k) by (apply Z.pow_pos_nonneg; lia).
  apply Zdigits2_unique; [|lia].
  rewrite Z.abs_mul, (Z.abs_eq (2 ^ k)) by lia.
  replace (Zdigits2 z + k - 1) with (Zdigits2 z - 1 + k) by lia.
  rewrite !Z.pow_add_r by lia. nia.
Qed.

(** A mantissa of 53 bits with an admissible exponent is left as it is. *)
Lemma binary_round_aux_canonical (s : bool) (m : positive) (e : Z) :
  Z.pos (digits2_pos m) = 53 -> -1074 <= e <= 971 ->
  binary_round_aux prec emax s (Z.pos m) e loc_Exact = S754_finite s m e.
Proof.
  intros Hd He. unfold binary_round_aux, shr_fexp.
  cbn [Zdigits2 shr_record_of_loc]. rewrite Hd, fexp_max.
  replace (Z.max (53 + e - 53) (-1074) - e) with 0 by lia.
  cbn [shr shr_m loc_of_shr_record round_nearest_even Zdigits2].
  rewrite Hd, fexp_max.
  replace (Z.max (53 + e - 53) (-1074) - e) with 0 by lia.
  cbn [shr shr_m].
  change (emax - prec) with 971.
  destruct (Z.leb_spec e 971); [reflexivity|lia].
Qed.

(** Rounding an integer below [2^53] gives the float that holds it. *)
Lemma binary_round_exact (s : bool) (m : positive) (e z : Z) :
  0 < z < 2 ^ 53 -> -1074 <= e <= 0 -> Z.pos m = z * 2 ^ (- e) ->
  binary_round prec emax s m e
  = S754_finite s (Z.to_pos (z * 2 ^ (53 - Zdigits2 z))) (Zdigits2 z - 53).
Proof.
  intros Hz He Hm.
  assert (Hdz : 0 < Zdigits2 z <= 53).
  { split; [destruct z; simpl; lia|].
    apply Zdigits2_le; [lia|]. rewrite Z.abs_eq; lia. }
  assert (Hdm : Z.pos (digits2_pos m) = Zdigits2 z - e).
  { change (Z.pos (digits2_pos m)) with (Zdigits2 (Z.pos m)).
    rewrite Hm, Zdigits2_shift; lia. }
  assert (Hval : 0 < z * 2 ^ (53 - Zdigits2 z)).
  { apply Z.mul_pos_pos; [lia|apply Z.pow_pos_nonneg; lia]. }
  unfold binary_round. rewrite Hdm, fexp_max.
  replace (Z.max (Zdigits2 z - e + e - 53) (-1074)) with (Zdigits2 z - 53)
    by lia.
  unfold shl_align.
  destruct (Zdigits2 z - 53 - e) as [|n|n] eqn:Hn.
  - (* the mantissa has 53 bits already *)
    assert (He' : e = Zdigits2 z - 53) by lia.
    rewrite binary_round_aux_canonical by lia.
    f_equal; [|lia].
    apply Pos2Z.inj. rewrite Z2Pos.id by lia. rewrite Hm. do 2 f_equal. lia.
  - (* zero bits are shifted out *)
    unfold binary_round_aux, shr_fexp.
    cbn [Zdigits2 shr_record_of_loc]. rewrite Hdm, fexp_max.
    replace (Z.max (Zdigits2 z - e + e - 53) (-1074) - e) with (Z.pos n)
      by lia.
    cbn [shr].
    assert (Hsplit : Z.pos m = z * 2 ^ (53 - Zdigits2 z) * 2 ^ Z.pos n).
    { rewrite Hm, <- Z.mul_assoc, <- Z.pow_add_r by lia.
      do 2 f_equal. lia. }
    rewrite iter_shr_1_exact;
      [|lia|exists (z * 2 ^ (53 - Zdigits2 z)); exact Hsplit].
    rewrite Hsplit, Z.div_mul by (apply Z.pow_nonzero; lia).
    cbn [shr_m loc_of_shr_record round_nearest_even].
    assert (Hd53 : Zdigits2 (z * 2 ^ (53 - Zdigits2 z)) = 53)
      by (rewrite Zdigits2_shift; lia).
    rewrite Hd53, fexp_max.
    replace (Z.max (53 + (e + Z.pos n) - 53) (-1074) - (e + Z.pos n)) with 0
      by lia.
    cbn [shr shr_m].
    destruct (z * 2 ^ (53 - Zdigits2 z)) as [|v|v] eqn:Hv; try lia.
    change (emax - prec) with 971.
    destruct (Z.leb_spec (e + Z.pos n) 971); [|lia].
    f_equal. lia.
  - (* the mantissa is padded with zero bits *)
    assert (Hmz : Z.pos (Pos.iter xO m n) = z * 2 ^ (53 - Zdigits2 z)).
    { rewrite iter_xO_value, Hm, <- Z.mul_assoc, <- Z.pow_add_r by lia.
      do 2 f_equal. lia. }
    rewrite binary_round_aux_canonical.
    + f_equal. apply Pos2Z.inj. rewrite Z2Pos.id by lia. exact Hmz.
    + change (Z.pos (digits2_pos (Pos.iter xO m n)))
        with (Zdigits2 (Z.pos (Pos.iter xO m n))).
      rewrite Hmz, Zdigits2_shift; lia.
    + lia.
Qed.

Lemma of_int_exact (z : Z) :
  Z.abs z < 2 ^ 53 -> of_int z = Ok (canon z).
Proof.
  intros Hz. unfold of_int, canon.
  destruct z as [|p|p]; cbn [binary_normalize]; [reflexivity| |].
  - rewrite (binary_round_exact false p 0 (Z.pos p)); [reflexivity|lia|lia|].
    change (2 ^ (- 0)) with 1. lia.
  - rewrite (binary_round_exact true p 0 (Z.pos p)); [reflexivity|lia|lia|].
    change (2 ^ (- 0)) with 1. lia.
Qed.



Lemma shl_align_value (m : positive) (e e' : Z) :
  Z.pos (fst (shl_align m e e')) = Z.pos m * 2 ^ (e - Z.min e e').
Proof.
  unfold shl_align.
  destruct (e' - e) as [|d|d] eqn:Hd; cbn [fst].
  - replace (e - Z.min e e') with 0 by lia. simpl. lia.
  - replace (e - Z.min e e') with 0 by lia. simpl. lia.
  - rewrite iter_xO_value. do 2 f_equal. lia.
Qed.

(** The parts of the float that holds a non-zero integer. *)
Lemma canon_parts (z : Z) :
  z <> 0 -> Z.abs z < 2 ^ 53 ->
  exists m,
    canon z = S754_finite (z <? 0) m (Zdigits2 z - 53) /\
    Z.pos m = Z.abs z * 2 ^ (53 - Zdigits2 z) /\
    0 < Zdigits2 z <= 53.
Proof.
  intros Hz Hlt.
  assert (Hd : 0 < Zdigits2 z <= 53).
  { split; [destruct z; simpl; lia|]. apply Zdigits2_le; lia. }
  exists (Z.to_pos (Z.abs z * 2 ^ (53 - Zdigits2 z))).
  split; [destruct z; [lia|reflexivity..]|]. split; [|assumption].
  rewrite Z2Pos.id; [reflexivity|].
  apply Z.mul_pos_pos; [lia|apply Z.pow_pos_nonneg; lia].
Qed.

Lemma Zdigits2_abs (z : Z) : Zdigits2 (Z.abs z) = Zdigits2 z.
Proof. now destruct z. Qed.

Lemma canon_abs (z : Z) : SFabs (canon z) = canon (Z.abs z).
Proof. now destruct z. Qed.

(** The difference of two integers below [2^53] that is itself below
    [2^53] is computed exactly. *)
Lemma abs_diff_exact (p q : Z) :
  Z.abs p < 2 ^ 53 -> Z.abs q < 2 ^ 53 -> Z.abs (p - q) < 2 ^ 53 ->
  abs_diff (canon p) (canon q) = canon (Z.abs (p - q)).
Proof.
  intros Hp Hq Hpq. unfold abs_diff.
  destruct (Z.eq_dec p 0) as [->|Hp0]; destruct (Z.eq_dec q 0) as [->|Hq0].
  - reflexivity.
  - destruct (canon_parts q Hq0 Hq) as (mq & Hcq & _).
    replace (Z.abs (0 - q)) with (Z.abs q) by lia.
    rewrite <- canon_abs, Hcq. reflexivity.
  - destruct (canon_parts p Hp0 Hp) as (mp & Hcp & _).
    rewrite Z.sub_0_r, <- canon_abs, Hcp. reflexivity.
  - destruct (canon_parts p Hp0 Hp) as (mp & Hcp & Hmp & Hdp).
    destruct (canon_parts q Hq0 Hq) as (mq & Hcq & Hmq & Hdq).
    rewrite Hcp, Hcq. cbn [SFsub].
    set (ep := Zdigits2 p - 53) in *. set (eq := Zdigits2 q - 53) in *.
    set (ez := Z.min ep eq).
    assert (Hax : cond_Zopp (p <? 0) (Z.pos (fst (shl_align mp ep ez)))
                  = p * 2 ^ (- ez)).
    { rewrite shl_align_value, Hmp.
      replace (ep - Z.min ep ez) with (ep - ez) by lia.
      rewrite <- Z.mul_assoc, <- Z.pow_add_r by lia.
      replace (53 - Zdigits2 p + (ep - ez)) with (- ez) by lia.
      destruct (Z.ltb_spec p 0); cbn [cond_Zopp]; lia. }
    assert (Hbx : cond_Zopp (q <? 0) (Z.pos (fst (shl_align mq eq ez)))
                  = q * 2 ^ (- ez)).
    { rewrite shl_align_value, Hmq.
      replace (eq - Z.min eq ez) with (eq - ez) by lia.
      rewrite <- Z.mul_assoc, <- Z.pow_add_r by lia.
      replace (53 - Zdigits2 q + (eq - ez)) with (- ez) by lia.
      destruct (Z.ltb_spec q 0); cbn [cond_Zopp]; lia. }
    fold ez. rewrite Hax, Hbx, <- Z.mul_sub_distr_r.
    assert (Hpow : 0 < 2 ^ (- ez)) by (apply Z.pow_pos_nonneg; lia).
    destruct ((p - q) * 2 ^ (- ez)) as [|D|D] eqn:HD;
      cbn [binary_normalize].
    + assert (p - q = 0) by nia.
      replace (p - q) with 0 by lia. reflexivity.
    + assert (0 < p - q) by nia.
      rewrite (binary_round_exact false D ez (p - q)); [|lia|lia|lia].
      cbn [SFabs]. rewrite Z.abs_eq by lia.
      unfold canon. destruct (p - q) eqn:Hz; try lia. reflexivity.
    + assert (p - q < 0) by nia.
      rewrite (binary_round_exact true D ez (q - p)); [|lia|lia|lia].
      cbn [SFabs]. rewrite Z.abs_neq by lia.
      replace (- (p - q)) with (q - p) by lia.
      unfold canon. destruct (q - p) eqn:Hz; try lia. reflexivity.
Qed.



Lemma sqrt_digits (X : Z) :
  0 < X -> Zdigits2 (Z.sqrt X) = (Zdigits2 X + 1) / 2.
Proof.
  intros HX.
  destruct (Zdigits2_bounds X ltac:(lia)) as [Hlo Hhi].
  rewrite Z.abs_eq in Hlo, Hhi by lia.
  assert (Hx : 0 < Zdigits2 X) by (destruct X; simpl; lia).
  set (x := Zdigits2 X) in *. clearbody x.
  set (k := (x + 1) / 2).
  assert (Hk : 0 < k /\ x <= k + k /\ (k - 1) + (k - 1) <= x - 1)
    by (subst k; Z.div_mod_to_equations; lia).
  clearbody k. destruct Hk as (Hk0 & Hk1 & Hk2).
  pose proof (Z.sqrt_nonneg X) as Hs.
  apply Zdigits2_unique; [|assumption].
  rewrite Z.abs_eq by assumption. split.
  - apply Z.sqrt_le_square; [lia|apply Z.pow_nonneg; lia|].
    rewrite <- Z.pow_add_r by lia.
    pose proof (Z.pow_le_mono_r 2 (k - 1 + (k - 1)) (x - 1)). lia.
  - apply Z.sqrt_lt_square; [lia|apply Z.pow_nonneg; lia|].
    rewrite <- Z.pow_add_r by lia.
    pose proof (Z.pow_le_mono_r 2 x (k + k)). lia.
Qed.

(** Scaling by an even power of two commutes with the integer root. *)
Lemma sqrt_scaled (W k : Z) :
  0 <= W -> 0 <= k -> Z.sqrt (W * 2 ^ (k + k)) / 2 ^ k = Z.sqrt W.
Proof.
  intros HW Hk.
  assert (Hp : 0 < 2 ^ k) by (apply Z.pow_pos_nonneg; lia).
  rewrite Z.pow_add_r by lia.
  pose proof (Z.sqrt_spec W HW) as [Hlo Hhi]. cbv zeta in Hlo, Hhi.
  pose proof (Z.sqrt_nonneg W) as Hs.
  set (a := Z.sqrt W) in *. clearbody a.
  set (P := 2 ^ k) in *. clearbody P.
  assert (Hsq1 : a * P <= Z.sqrt (W * (P * P))).
  { apply Z.sqrt_le_square; nia. }
  assert (Hsq2 : Z.sqrt (W * (P * P)) < (a + 1) * P).
  { apply Z.sqrt_lt_square; nia. }
  symmetry. apply (Z.div_unique _ _ _ (Z.sqrt (W * (P * P)) - P * a)); lia.
Qed.

Lemma round_nearest_even_range (m : Z) (l : location) :
  m <= round_nearest_even m l <= m + 1.
Proof.
  destruct l as [|[ | | ]]; cbn [round_nearest_even]; try lia.
  destruct (Z.even m); lia.
Qed.

Lemma shr_record_of_loc_m (m : Z) (l : location) :
  shr_m (shr_record_of_loc m l) = m.
Proof. destruct l as [|[ | | ]]; reflexivity. Qed.

(** The mantissa and exponent the first shift of [binary_round_aux] leaves. *)
Lemma shr_fexp_value (m e : Z) (l : location) :
  0 <= m ->
  let n := fexp prec emax (Zdigits2 m + e) - e in
  0 <= n ->
  shr_m (fst (shr_fexp prec emax m e l)) = m / 2 ^ n /\
  snd (shr_fexp prec emax m e l) = e + n.
Proof.
  intros Hm n Hn. unfold shr_fexp. fold n.
  destruct n as [|p|p] eqn:Hp; cbn [shr fst snd]; try lia.
  - rewrite shr_record_of_loc_m, Z.pow_0_r, Z.div_1_r. lia.
  - rewrite iter_shr_1_div by (now rewrite shr_record_of_loc_m).
    now rewrite shr_record_of_loc_m.
Qed.



Lemma root_floor_range (N : Z) :
  0 < N -> N < 2 ^ 50 ->
  -52 <= root_exponent N <= -28 /\
  2 ^ 52 <= root_floor N < 2 ^ 53.
Proof.
  intros HN Hlt.
  assert (Hn : 0 < Zdigits2 N <= 50).
  { split; [destruct N; simpl; lia|]. apply Zdigits2_le; lia. }
  assert (Hef : -52 <= root_exponent N <= -28)
    by (unfold root_exponent; Z.div_mod_to_equations; lia).
  split; [assumption|].
  unfold root_floor.
  set (W := N * 2 ^ (- (2 * root_exponent N))).
  assert (HW : 0 < W).
  { subst W. apply Z.mul_pos_pos; [lia|apply Z.pow_pos_nonneg; lia]. }
  assert (HdW : Zdigits2 (Z.sqrt W) = 53).
  { rewrite sqrt_digits by assumption. subst W.
    rewrite Zdigits2_shift by lia.
    unfold root_exponent in *. Z.div_mod_to_equations. lia. }
  assert (Hnz : Z.sqrt W <> 0).
  { intros H0. rewrite H0 in HdW. discriminate. }
  pose proof (Zdigits2_bounds (Z.sqrt W) Hnz) as Hb.
  rewrite HdW, Z.abs_eq in Hb by apply Z.sqrt_nonneg.
  exact Hb.
Qed.

(** The square root of the integer [N = M * 2^E], [N < 2^50], as
    [SFsqrt] rounds it: the truncated mantissa or its successor. *)
Lemma sqrt_form (M : positive) (E h N : Z) :
  0 < N -> N < 2 ^ 50 -> E = 2 * h -> h <= 0 -> Z.pos M = N * 2 ^ (- E) ->
  exists m e,
    SFsqrt prec emax (S754_finite false M E) = S754_finite false m e /\
    ((e = root_exponent N /\
      root_floor N <= Z.pos m <= root_floor N + 1 /\ Z.pos m < 2 ^ 53) \/
     (e = root_exponent N + 1 /\
      Z.pos m = 2 ^ 52 /\ root_floor N + 1 = 2 ^ 53)).
Proof.
  intros HN Hlt HE Hh HM.
  destruct (root_floor_range N HN Hlt) as [Hef HT].
  assert (Hn : 0 < Zdigits2 N <= 50).
  { split; [destruct N; simpl; lia|]. apply Zdigits2_le; lia. }
  assert (HdM : Z.pos (digits2_pos M) = Zdigits2 N - E).
  { change (Z.pos (digits2_pos M)) with (Zdigits2 (Z.pos M)).
    rewrite HM, Zdigits2_shift; lia. }
  unfold SFsqrt, SFsqrt_core_binary. cbn [Zdigits2].
  rewrite HdM, fexp_max, !Z.div2_div.
  change IntDef.Z.sqrtrem with Z.sqrtrem.
  change IntDef.Z.shiftl with Z.shiftl.
  replace (Zdigits2 N - E + E + 1) with (Zdigits2 N + 1) by lia.
  replace (Z.max ((Zdigits2 N + 1) / 2 - 53) (-1074))
    with (root_exponent N) by (unfold root_exponent in *; lia).
  replace (E / 2) with h by (subst E; Z.div_mod_to_equations; lia).
  set (ef := root_exponent N) in *.
  set (e0 := Z.min ef h).
  assert (He0 : e0 <= ef /\ e0 <= h) by (subst e0; lia).
  set (m' := match E - 2 * e0 with
             | 0 => Z.pos M
             | Z.pos _ => Z.shiftl (Z.pos M) (E - 2 * e0)
             | Z.neg _ => 0
             end).
  assert (Hm' : m' = N * 2 ^ (- (2 * e0))).
  { subst m'. destruct (E - 2 * e0) as [|p|p] eqn:Hp; try lia.
    - rewrite HM. do 2 f_equal. lia.
    - rewrite Z.shiftl_mul_pow2, HM, <- Z.mul_assoc, <- Z.pow_add_r by lia.
      do 2 f_equal. lia. }
  clearbody m'.
  pose proof (Z.sqrtrem_sqrt m') as Hq.
  destruct (Z.sqrtrem m') as [q r]. cbn [fst] in Hq. subst q.
  set (l := if r =? 0 then loc_Exact
            else loc_Inexact (if r <=? Z.sqrt m' then Lt else Gt)).
  clearbody l.
  assert (Hm'pos : 0 < m').
  { subst m'. apply Z.mul_pos_pos; [lia|apply Z.pow_pos_nonneg; lia]. }
  (* the root before the shift *)
  assert (Hdq : Zdigits2 (Z.sqrt m') + e0 = (Zdigits2 N + 1) / 2).
  { rewrite sqrt_digits by assumption. rewrite Hm', Zdigits2_shift by lia.
    Z.div_mod_to_equations. lia. }
  assert (HqT : Z.sqrt m' / 2 ^ (ef - e0) = root_floor N).
  { unfold root_floor. fold ef.
    assert (Hsplit : m' = N * 2 ^ (- (2 * ef)) * 2 ^ (ef - e0 + (ef - e0))).
    { rewrite Hm', <- Z.mul_assoc, <- Z.pow_add_r by lia.
      do 2 f_equal. lia. }
    rewrite Hsplit. apply sqrt_scaled; [|lia].
    apply Z.mul_nonneg_nonneg; [lia|apply Z.pow_nonneg; lia]. }
  unfold binary_round_aux.
  (* first shift *)
  pose proof (shr_fexp_value (Z.sqrt m') e0 l (Z.sqrt_nonneg m')) as Hshift.
  cbv zeta in Hshift. rewrite Hdq, fexp_max in Hshift.
  replace (Z.max ((Zdigits2 N + 1) / 2 - 53) (-1074)) with ef in Hshift
    by (unfold ef, root_exponent in *; lia).
  destruct (Hshift ltac:(lia)) as [HmT HeT]. clear Hshift.
  destruct (shr_fexp prec emax (Z.sqrt m') e0 l) as [mrs' e'].
  cbn [fst snd] in HmT, HeT.
  rewrite HqT in HmT. replace (e0 + (ef - e0)) with ef in HeT by lia.
  subst e'.
  (* rounding *)
  pose proof (round_nearest_even_range (shr_m mrs') (loc_of_shr_record mrs'))
    as HR.
  set (R := round_nearest_even (shr_m mrs') (loc_of_shr_record mrs')) in *.
  clearbody R. rewrite HmT in HR.
  set (T := root_floor N) in *. clearbody T.
  destruct (Z.lt_ge_cases R (2 ^ 53)) as [HRlt|HRge].
  - (* the rounded mantissa has 53 bits *)
    assert (HdR : Zdigits2 R = 53) by (apply Zdigits2_unique; lia).
    unfold shr_fexp. rewrite HdR, fexp_max.
    replace (Z.max (53 + ef - 53) (-1074) - ef) with 0 by lia.
    cbn [shr shr_record_of_loc shr_m].
    destruct R as [|mR|mR]; try lia.
    change (emax - prec) with 971.
    destruct (Z.leb_spec ef 971); [|lia].
    exists mR, ef. split; [reflexivity|]. left. lia.
  - (* the rounded mantissa is 2^53 *)
    assert (HR53 : R = 2 ^ 53) by lia. subst R.
    unfold shr_fexp.
    replace (Zdigits2 (2 ^ 53)) with 54 by reflexivity.
    rewrite fexp_max.
    replace (Z.max (54 + ef - 53) (-1074) - ef) with 1 by lia.
    cbn [shr shr_record_of_loc iter_pos shr_1 shr_m].
    change (emax - prec) with 971.
    destruct (Z.leb_spec (ef + 1) 971); [|lia].
    eexists _, (ef + 1). split; [reflexivity|]. right.
    split; [reflexivity|]. split; [reflexivity|lia].
Qed.



Lemma ltb_finite (m1 m2 : positive) (e1 e2 : Z) :
  e1 < e2 \/ (e1 = e2 /\ Z.pos m1 < Z.pos m2) ->
  ltb (S754_finite false m1 e1) (S754_finite false m2 e2) = true.
Proof.
  intros H. unfold ltb, SFltb. cbn [SFcompare].
  change (Pos.compare_cont Eq m1 m2) with (Pos.compare m1 m2).
  destruct (Z.compare_spec e1 e2); [|reflexivity|lia].
  destruct (Pos.compare_spec m1 m2); [lia|reflexivity|lia].
Qed.

Lemma Zdigits2_mono (a b : Z) : 0 <= a <= b -> Zdigits2 a <= Zdigits2 b.
Proof.
  intros H. pose proof (Zdigits2_upper b) as Hu.
  apply Zdigits2_le; [apply Zdigits2_nonneg|lia].
Qed.

Lemma root_exponent_mono (N1 N2 : Z) :
  0 <= N1 <= N2 -> root_exponent N1 <= root_exponent N2.
Proof.
  intros H. pose proof (Zdigits2_mono N1 N2 H).
  unfold root_exponent. Z.div_mod_to_equations. lia.
Qed.

(** Within one binade the truncated mantissas of two different integers
    are at least two apart. *)
Lemma root_floor_gap (N1 N2 : Z) :
  0 < N1 -> N1 < N2 -> N2 < 2 ^ 50 ->
  root_exponent N1 = root_exponent N2 ->
  root_floor N1 + 2 <= root_floor N2.
Proof.
  intros H1 H12 H2 Hef.
  destruct (root_floor_range N1 H1 ltac:(lia)) as [Hr1 HT1].
  unfold root_floor in *. rewrite <- Hef.
  set (ef := root_exponent N1) in *. clearbody ef.
  assert (Hc : 2 ^ 56 <= 2 ^ (- (2 * ef)))
    by (apply Z.pow_le_mono_r; lia).
  set (c := 2 ^ (- (2 * ef))) in *. clearbody c.
  pose proof (Z.sqrt_spec (N1 * c) ltac:(nia)) as [Hlo _]. cbv zeta in Hlo.
  set (T1 := Z.sqrt (N1 * c)) in *. clearbody T1.
  apply Z.sqrt_le_square; [nia|lia|].
  assert (H53 : 2 ^ 53 = 9007199254740992) by reflexivity.
  assert (H56 : 2 ^ 56 = 72057594037927936) by reflexivity.
  nia.
Qed.

(** Across a binade boundary the mantissa 2^52 is exceeded. *)
Lemma root_floor_next (N1 N2 : Z) :
  0 < N1 -> N1 < N2 -> N2 < 2 ^ 50 ->
  root_exponent N2 = root_exponent N1 + 1 ->
  root_floor N1 + 1 = 2 ^ 53 ->
  2 ^ 52 + 1 <= root_floor N2.
Proof.
  intros H1 H12 H2 Hef HT.
  destruct (root_floor_range N1 H1 ltac:(lia)) as [Hr1 _].
  destruct (root_floor_range N2 ltac:(lia) H2) as [Hr2 _].
  unfold root_floor in *. rewrite Hef.
  set (ef := root_exponent N1) in *. clearbody ef.
  assert (Hc : 2 ^ 54 <= 2 ^ (- (2 * (ef + 1))))
    by (apply Z.pow_le_mono_r; lia).
  assert (Hc4 : 2 ^ (- (2 * ef)) = 4 * 2 ^ (- (2 * (ef + 1)))).
  { replace (- (2 * ef)) with (2 + - (2 * (ef + 1))) by lia.
    rewrite Z.pow_add_r by lia. reflexivity. }
  rewrite Hc4 in HT.
  set (c := 2 ^ (- (2 * (ef + 1)))) in *. clearbody c.
  pose proof (Z.sqrt_spec (N1 * (4 * c)) ltac:(nia)) as [Hlo _].
  cbv zeta in Hlo.
  set (T1 := Z.sqrt (N1 * (4 * c))) in *. clearbody T1.
  apply Z.sqrt_le_square; [nia|lia|].
  assert (H52 : 2 ^ 52 = 4503599627370496) by reflexivity.
  assert (H53 : 2 ^ 53 = 9007199254740992) by reflexivity.
  assert (H54 : 2 ^ 54 = 18014398509481984) by reflexivity.
  nia.
Qed.

(** The rounded square roots of two integers below [2^50] are in the
    order of the integers. *)
Lemma sqrt_lt (M1 M2 : positive) (E1 E2 h1 h2 N1 N2 : Z) :
  0 < N1 -> N1 < N2 -> N2 < 2 ^ 50 ->
  E1 = 2 * h1 -> h1 <= 0 -> Z.pos M1 = N1 * 2 ^ (- E1) ->
  E2 = 2 * h2 -> h2 <= 0 -> Z.pos M2 = N2 * 2 ^ (- E2) ->
  ltb (SFsqrt prec emax (S754_finite false M1 E1))
      (SFsqrt prec emax (S754_finite false M2 E2)) = true.
Proof.
  intros H1 H12 H2 HE1 Hh1 HM1 HE2 Hh2 HM2.
  destruct (sqrt_form M1 E1 h1 N1 H1 ltac:(lia) HE1 Hh1 HM1)
    as (m1 & e1 & -> & Hf1).
  destruct (sqrt_form M2 E2 h2 N2 ltac:(lia) H2 HE2 Hh2 HM2)
    as (m2 & e2 & -> & Hf2).
  destruct (root_floor_range N1 H1 ltac:(lia)) as [_ HT1].
  destruct (root_floor_range N2 ltac:(lia) H2) as [_ HT2].
  pose proof (root_exponent_mono N1 N2 ltac:(lia)) as Hmono.
  apply ltb_finite.
  destruct (Z.eq_dec (root_exponent N1) (root_exponent N2)) as [Heq|Hne].
  - pose proof (root_floor_gap N1 N2 H1 H12 H2 Heq) as Hgap.
    destruct Hf1 as [(-> & Hm1 & _)|(-> & Hm1 & HT)];
      destruct Hf2 as [(-> & Hm2 & _)|(-> & Hm2 & _)]; lia.
  - destruct Hf1 as [(-> & Hm1 & _)|(-> & Hm1 & HT)];
      destruct Hf2 as [(-> & Hm2 & _)|(-> & Hm2 & _)]; try lia.
    destruct (Z.eq_dec (root_exponent N2) (root_exponent N1 + 1))
      as [Hnext|]; [|lia].
    pose proof (root_floor_next N1 N2 H1 H12 H2 Hnext HT). lia.
Qed.



Lemma norm2_comm (x y : float) : norm2 x y = norm2 y x.
Proof.
  destruct x as [sx|sx| |sx mx ex], y as [sy|sy| |sy my ey];
    cbn [norm2]; try reflexivity.
  unfold square_sum. now rewrite (Z.min_comm ex ey), Pos.add_comm.
Qed.

(** The norm of two integers held by floats is a rounded square root of the
    sum of their squares. *)
Lemma norm2_canon (a b : Z) :
  0 <= a < 2 ^ 53 -> 0 <= b < 2 ^ 53 -> 0 < a * a + b * b ->
  exists M E h,
    norm2 (canon a) (canon b) = SFsqrt prec emax (S754_finite false M E) /\
    E = 2 * h /\ h <= 0 /\ Z.pos M = (a * a + b * b) * 2 ^ (- E).
Proof.
  intros Ha Hb HN.
  assert (Hone : forall c, 0 < c < 2 ^ 53 ->
            exists m e, canon c = S754_finite false m e /\ e <= 0 /\
                        Z.pos m = c * 2 ^ (- e)).
  { intros c Hc.
    destruct (canon_parts c ltac:(lia) ltac:(lia)) as (m & Hcm & Hm & Hd).
    exists m, (Zdigits2 c - 53). rewrite Hcm.
    destruct (Z.ltb_spec c 0); [lia|]. split; [reflexivity|].
    split; [lia|]. rewrite Hm, Z.abs_eq by lia. do 2 f_equal. lia. }
  destruct (Z.eq_dec a 0) as [->|Ha0]; destruct (Z.eq_dec b 0) as [->|Hb0].
  - lia.
  - destruct (Hone b ltac:(lia)) as (m & e & -> & He & Hm).
    cbn [canon norm2]. exists (m * m)%positive, (2 * e), e.
    split; [reflexivity|]. split; [reflexivity|]. split; [assumption|].
    rewrite Pos2Z.inj_mul, Hm.
    replace (- (2 * e)) with (- e + - e) by lia.
    rewrite Z.pow_add_r by lia. ring.
  - destruct (Hone a ltac:(lia)) as (m & e & -> & He & Hm).
    cbn [canon norm2]. exists (m * m)%positive, (2 * e), e.
    split; [reflexivity|]. split; [reflexivity|]. split; [assumption|].
    rewrite Pos2Z.inj_mul, Hm.
    replace (- (2 * e)) with (- e + - e) by lia.
    rewrite Z.pow_add_r by lia. ring.
  - destruct (Hone a ltac:(lia)) as (ma & ea & -> & Hea & Hma).
    destruct (Hone b ltac:(lia)) as (mb & eb & -> & Heb & Hmb).
    cbn [norm2]. unfold square_sum.
    set (e := Z.min ea eb).
    eexists _, (2 * e), e.
    split; [reflexivity|]. split; [reflexivity|]. split; [lia|].
    assert (Hax : Z.pos (fst (shl_align ma ea e)) = a * 2 ^ (- e)).
    { rewrite shl_align_value, Hma, <- Z.mul_assoc, <- Z.pow_add_r by lia.
      do 2 f_equal. lia. }
    assert (Hbx : Z.pos (fst (shl_align mb eb e)) = b * 2 ^ (- e)).
    { rewrite shl_align_value, Hmb, <- Z.mul_assoc, <- Z.pow_add_r by lia.
      do 2 f_equal. lia. }
    rewrite Pos2Z.inj_add, !Pos2Z.inj_mul, Hax, Hbx.
    replace (- (2 * e)) with (- e + - e) by lia.
    rewrite Z.pow_add_r by lia. ring.
Qed.

(** The computed norms of integer vectors are in the order of the sums of
    squares, as long as these are below [2^50]. *)
Lemma norm2_canon_lt (a b a' b' : Z) :
  0 <= a < 2 ^ 53 -> 0 <= b < 2 ^ 53 ->
  0 <= a' < 2 ^ 53 -> 0 <= b' < 2 ^ 53 ->
  a * a + b * b < a' * a' + b' * b' -> a' * a' + b' * b' < 2 ^ 50 ->
  ltb (norm2 (canon a) (canon b)) (norm2 (canon a') (canon b')) = true.
Proof.
  intros Ha Hb Ha' Hb' Hlt Hmax.
  destruct (norm2_canon a' b' Ha' Hb' ltac:(nia))
    as (M2 & E2 & h2 & -> & HE2 & Hh2 & HM2).
  destruct (Z.eq_dec (a * a + b * b) 0) as [H0|H0].
  - assert (a = 0) by nia. assert (b = 0) by nia. subst a b.
    cbn [canon norm2].
    destruct (sqrt_form M2 E2 h2 (a' * a' + b' * b') ltac:(lia) Hmax
                HE2 Hh2 HM2)
      as (m & e & -> & _).
    reflexivity.
  - destruct (norm2_canon a b Ha Hb ltac:(nia))
      as (M1 & E1 & h1 & -> & HE1 & Hh1 & HM1).
    apply (sqrt_lt M1 M2 E1 E2 h1 h2 (a * a + b * b) (a' * a' + b' * b'));
      trivial; nia.
Qed.

End FloatExact.

(** For coordinates below [2^52] in magnitude a distance is the norm of the
    exact coordinate differences. *)
Lemma euclidean_distance_exact (x1 y1 x2 y2 : Z) :
  Z.abs x1 < 2 ^ 52 -> Z.abs y1 < 2 ^ 52 ->
  Z.abs x2 < 2 ^ 52 -> Z.abs y2 < 2 ^ 52 ->
  euclidean_distance x1 y1 x2 y2
  = Ok (Float.norm2 (canon (Z.abs (x1 - x2))) (canon (Z.abs (y1 - y2)))).
Proof.
  intros H1 H2 H3 H4.
  assert (H52 : 2 ^ 53 = 2 * 2 ^ 52) by reflexivity.
  unfold euclidean_distance, math_dist. cbn [fst snd].
  rewrite !FloatExact.of_int_exact by lia. cbn [bind].
  rewrite !FloatExact.abs_diff_exact by lia. reflexivity.
Qed.

(** Two candidates at the same exact distance from the target have the
    same coordinate differences up to sign and order. *)
Lemma equidistant_candidates (a b : Z) (d1 d2 : Direction) :
  (a + fst (value d1)) * (a + fst (value d1))
  + (b + snd (value d1)) * (b + snd (value d1))
  = (a + fst (value d2)) * (a + fst (value d2))
    + (b + snd (value d2)) * (b + snd (value d2)) ->
  (Z.abs (a + fst (value d1)) = Z.abs (a + fst (value d2)) /\
   Z.abs (b + snd (value d1)) = Z.abs (b + snd (value d2))) \/
  (Z.abs (a + fst (value d1)) = Z.abs (b + snd (value d2)) /\
   Z.abs (b + snd (value d1)) = Z.abs (a + fst (value d2))).
Proof.
  destruct d1, d2; cbn [value fst snd]; intros Heq;
    first [ left; split; reflexivity
          | assert (Hlin : a = b \/ a = - b \/ a = 0 \/ b = 0) by lia;
            destruct Hlin as [->|[->|[->| ->]]]; lia ].
Qed.

(** For a lookahead tile and a target within about [2^23] of the origin,
    the computed distances of two candidates are in the order of their exact
    squared distances, and equal when these are equal. *)
Lemma test_distance_order (lx ly tx ty : Z) (d1 d2 : Direction) :
  Z.abs lx <= 2 ^ 23 + 1 -> Z.abs ly <= 2 ^ 23 + 1 ->
  Z.abs tx <= 2 ^ 23 -> Z.abs ty <= 2 ^ 23 ->
  exists v1 v2,
    test_distance lx ly tx ty d1 = Ok v1 /\
    test_distance lx ly tx ty d2 = Ok v2 /\
    (squared_distance (step lx ly d1) (tx, ty)
     < squared_distance (step lx ly d2) (tx, ty) ->
     Float.ltb v1 v2 = true) /\
    (squared_distance (step lx ly d1) (tx, ty)
     = squared_distance (step lx ly d2) (tx, ty) ->
     v1 = v2).
Proof.
  change (2 ^ 23) with 8388608.
  intros Hlx Hly Htx Hty.
  apply Z.abs_le in Hlx, Hly, Htx, Hty.
  assert (Hstep : forall d,
             fst (step lx ly d) - tx = lx - tx + fst (value d) /\
             snd (step lx ly d) - ty = ly - ty + snd (value d) /\
             -8388610 <= fst (step lx ly d) <= 8388610 /\
             -8388610 <= snd (step lx ly d) <= 8388610)
    by (intros d; destruct d; cbn [step value fst snd]; lia).
  assert (Hdist : forall d,
             test_distance lx ly tx ty d
             = Ok (Float.norm2 (canon (Z.abs (lx - tx + fst (value d))))
                     (canon (Z.abs (ly - ty + snd (value d)))))).
  { intros d. destruct (Hstep d) as (Hu & Hw & Hx & Hy).
    unfold test_distance. rewrite <- Hu, <- Hw.
    apply euclidean_distance_exact; apply Z.abs_lt;
      change (2 ^ 52) with 4503599627370496; lia. }
  eexists _, _. split; [apply Hdist|]. split; [apply Hdist|].
  unfold squared_distance. cbn [fst snd].
  destruct (Hstep d1) as (-> & -> & _). destruct (Hstep d2) as (-> & -> & _).
  assert (Hrange : forall d,
             -16777218 <= lx - tx + fst (value d) <= 16777218 /\
             -16777218 <= ly - ty + snd (value d) <= 16777218)
    by (intros d; destruct d; cbn [value fst snd]; lia).
  destruct (Hrange d1) as [Hu1 Hw1]. destruct (Hrange d2) as [Hu2 Hw2].
  set (u1 := lx - tx + fst (value d1)) in *.
  set (w1 := ly - ty + snd (value d1)) in *.
  set (u2 := lx - tx + fst (value d2)) in *.
  set (w2 := ly - ty + snd (value d2)) in *.
  split.
  - intros Hlt. clearbody u1 w1 u2 w2.
    clear Hstep Hdist Hrange Hlx Hly Htx Hty.
    assert (Habs : forall z, -16777218 <= z <= 16777218 ->
                             0 <= Z.abs z < 2 ^ 53).
    { intros z Hz. change (2 ^ 53) with 9007199254740992. lia. }
    assert (Hsq : forall z, -16777218 <= z <= 16777218 ->
                            z * z <= 281474976710656 + 134217744).
    { intros z Hz. nia. }
    apply FloatExact.norm2_canon_lt; try (now apply Habs);
      rewrite !Z.abs_square; [exact Hlt|].
    change (2 ^ 50) with 1125899906842624.
    pose proof (Hsq u2 Hu2). pose proof (Hsq w2 Hw2). lia.
  - intros Heq. subst u1 w1 u2 w2.
    destruct (equidistant_candidates _ _ d1 d2 Heq) as [[-> ->]|[-> ->]];
      [reflexivity|apply FloatExact.norm2_comm].
Qed.

(** ** Floats: signs, symmetry, and the conversions that overflow *)

Module DistanceFacts.

Import Float.
Import FloatBounds.

Lemma binary_round_aux_sign (mx ex : Z) (lx : location) :
  0 <= mx ->
  is_nonnegative (binary_round_aux prec emax false mx ex lx) = true.
Proof.
  intros H. unfold binary_round_aux.
  pose proof (FloatFacts.shr_fexp_nonneg mx ex lx H) as H1.
  destruct (shr_fexp prec emax mx ex lx) as [mrs' e']. cbn [fst] in H1.
  pose proof (FloatFacts.shr_fexp_nonneg
                (round_nearest_even (shr_m mrs') (loc_of_shr_record mrs'))
                e' loc_Exact
                (FloatFacts.round_nearest_even_nonneg _ _ H1)) as H2.
  destruct (shr_fexp prec emax _ e' loc_Exact) as [mrs'' e'']. cbn [fst] in H2.
  destruct (shr_m mrs'') as [|m|m]; try reflexivity; try lia.
  now destruct (e'' <=? emax - prec).
Qed.

Lemma sqrt_sign (m : positive) (e : Z) :
  is_nonnegative (SFsqrt prec emax (S754_finite false m e)) = true.
Proof.
  unfold SFsqrt.
  destruct (SFsqrt_core_binary prec emax (Z.pos m) e) as [[mz ez] lz] eqn:Hc.
  apply binary_round_aux_sign.
  unfold SFsqrt_core_binary in Hc.
  set (m' := match e - 2 * _ with
             | 0 => Z.pos m | Z.pos _ => _ | Z.neg _ => 0 end) in Hc.
  pose proof (Z.sqrtrem_sqrt m') as Hs.
  destruct (Z.sqrtrem m') as [q r]. inversion Hc; subst.
  cbn [fst] in Hs. rewrite Hs. apply Z.sqrt_nonneg.
Qed.

Lemma norm2_sign (x y : float) :
  is_number x = true -> is_number y = true ->
  is_nonnegative (norm2 x y) = true.
Proof.
  intros Hx Hy.
  destruct x as [sx|sx| |sx mx ex], y as [sy|sy| |sy my ey];
    try discriminate; cbn [norm2]; try reflexivity; apply sqrt_sign.
Qed.

(** The sign of a rounded number is the sign handed to the rounding. *)
Lemma abs_binary_round (s : bool) (m : positive) (e : Z) :
  SFabs (binary_round prec emax s m e)
  = SFabs (binary_round prec emax false m e).
Proof.
  unfold binary_round. destruct (shl_align m e _) as [mz ez].
  unfold binary_round_aux.
  destruct (shr_fexp prec emax (Z.pos mz) ez loc_Exact) as [mrs' e'].
  destruct (shr_fexp prec emax _ e' loc_Exact) as [mrs'' e''].
  destruct (shr_m mrs'') as [|m2|m2]; try reflexivity.
  now destruct (e'' <=? emax - prec).
Qed.

Lemma abs_binary_normalize_opp (D e : Z) :
  SFabs (binary_normalize prec emax (- D) e false)
  = SFabs (binary_normalize prec emax D e false).
Proof.
  destruct D as [|p|p]; cbn [Z.opp binary_normalize]; [reflexivity| |].
  - apply abs_binary_round.
  - symmetry. apply abs_binary_round.
Qed.

Lemma abs_diff_sym (a b : float) :
  is_finite a = true -> is_finite b = true -> abs_diff a b = abs_diff b a.
Proof.
  intros Ha Hb. unfold abs_diff.
  destruct a as [sa|sa| |sa ma ea], b as [sb|sb| |sb mb eb];
    try discriminate; cbn [SFsub].
  - now destruct sa, sb.
  - reflexivity.
  - reflexivity.
  - rewrite (Z.min_comm eb ea), <- abs_binary_normalize_opp.
    do 2 f_equal. lia.
Qed.

Lemma abs_diff_self (a : float) :
  is_finite a = true -> abs_diff a a = S754_zero false.
Proof.
  intros Ha. unfold abs_diff.
  destruct a as [sa|sa| |sa ma ea]; try discriminate; cbn [SFsub].
  - now destruct sa.
  - now rewrite Z.sub_diag.
Qed.

Lemma of_int_cases (z : Z) :
  (exists f, of_int z = Ok f /\ is_finite f = true) \/
  of_int z = Raise OverflowError.
Proof.
  destruct (of_int z) as [f|e] eqn:H.
  - left. exists f. split; [reflexivity|].
    now apply FloatFacts.of_int_finite with z.
  - right. unfold of_int in H.
    destruct (binary_normalize prec emax z 0 false); congruence.
Qed.

(** The mantissa and the exponent a shift leaves, counted in bits. *)
Lemma shr_fexp_digits (m e : Z) (l : location) :
  0 <= m ->
  Zdigits2 (shr_m (fst (shr_fexp prec emax m e l)))
  + snd (shr_fexp prec emax m e l)
  = Z.max (snd (shr_fexp prec emax m e l)) (Zdigits2 m + e) /\
  snd (shr_fexp prec emax m e l)
  = Z.max e (fexp prec emax (Zdigits2 m + e)).
Proof.
  intros Hm. pose proof (Zdigits2_nonneg m) as Hd.
  unfold shr_fexp, shr.
  assert (Hrec : shr_m (shr_record_of_loc m l) = m)
    by (destruct l as [|[ | | ]]; reflexivity).
  destruct (fexp prec emax (Zdigits2 m + e) - e) as [|n|n] eqn:Hn;
    cbn [fst snd].
  - rewrite Hrec. lia.
  - rewrite iter_shr_1_digits by (rewrite Hrec; assumption).
    rewrite Hrec. lia.
  - rewrite Hrec. lia.
Qed.

(** An int of magnitude [2^1024] or more does not fit a float. *)
Lemma of_int_overflow (z : Z) :
  2 ^ 1024 <= Z.abs z -> of_int z = Raise OverflowError.
Proof.
  intros Hz.
  assert (Hd : 1025 <= Zdigits2 z).
  { pose proof (Zdigits2_upper z) as Hu.
    destruct (Z.lt_ge_cases (Zdigits2 z) 1025) as [Hlt|]; [exfalso|lia].
    pose proof (Zdigits2_nonneg z).
    pose proof (Z.pow_le_mono_r 2 (Zdigits2 z) 1024 ltac:(lia) ltac:(lia)).
    lia. }
  assert (Hinf : forall s m, Z.pos (digits2_pos m) = Zdigits2 z ->
             binary_round prec emax s m 0 = S754_infinity s).
  { intros s m Hm. unfold binary_round, shl_align.
    rewrite Hm, fexp_max.
    destruct (Z.max (Zdigits2 z + 0 - 53) (-1074) - 0) as [|p|p] eqn:Hp;
      try lia.
    unfold binary_round_aux.
    destruct (shr_fexp_digits (Z.pos m) 0 loc_Exact ltac:(lia)) as [H1 H2].
    pose proof (FloatFacts.shr_fexp_nonneg (Z.pos m) 0 loc_Exact ltac:(lia))
      as H0.
    destruct (shr_fexp prec emax (Z.pos m) 0 loc_Exact) as [mrs' e'].
    cbn [fst snd Zdigits2] in H0, H1, H2. rewrite Hm, fexp_max in *.
    pose proof (FloatExact.round_nearest_even_range (shr_m mrs')
                  (loc_of_shr_record mrs')) as HR.
    set (R := round_nearest_even (shr_m mrs') (loc_of_shr_record mrs')) in *.
    assert (HdR : Zdigits2 (shr_m mrs') <= Zdigits2 R)
      by (apply FloatExact.Zdigits2_mono; lia).
    destruct (shr_fexp_digits R e' loc_Exact ltac:(lia)) as [H3 H4].
    pose proof (FloatFacts.shr_fexp_nonneg R e' loc_Exact ltac:(lia)) as H5.
    destruct (shr_fexp prec emax R e' loc_Exact) as [mrs'' e''].
    cbn [fst snd] in H3, H4, H5. rewrite fexp_max in H4.
    change (emax - prec) with 971.
    destruct (shr_m mrs'') as [|m2|m2] eqn:Hm2; cbn [Zdigits2] in H3.
    - lia.
    - destruct (Z.leb_spec e'' 971); [lia|reflexivity].
    - lia. }
  unfold of_int.
  destruct z as [|m|m]; cbn [binary_normalize].
  - simpl in Hz. pose proof (Z.pow_pos_nonneg 2 1024). lia.
  - now rewrite Hinf.
  - now rewrite Hinf.
Qed.

End DistanceFacts.

(** What [euclidean_distance] returns or raises, in the four cases of the
    conversions. *)
Lemma euclidean_distance_cases (x1 y1 x2 y2 : Z) :
  (exists px qx py qy,
      Float.of_int x1 = Ok px /\ Float.of_int x2 = Ok qx /\
      Float.of_int y1 = Ok py /\ Float.of_int y2 = Ok qy /\
      is_finite px = true /\ is_finite qx = true /\
      is_finite py = true /\ is_finite qy = true /\
      euclidean_distance x1 y1 x2 y2
      = Ok (Float.norm2 (Float.abs_diff px qx) (Float.abs_diff py qy))) \/
  ((Float.of_int x1 = Raise OverflowError \/
    Float.of_int x2 = Raise OverflowError \/
    Float.of_int y1 = Raise OverflowError \/
    Float.of_int y2 = Raise OverflowError) /\
   euclidean_distance x1 y1 x2 y2 = Raise OverflowError).
Proof.
  unfold euclidean_distance, math_dist. cbn [fst snd].
  destruct (DistanceFacts.of_int_cases x1) as [(px & Hx1 & Hpx)|Hx1];
    rewrite Hx1; cbn [bind]; [|right; tauto].
  destruct (DistanceFacts.of_int_cases x2) as [(qx & Hx2 & Hqx)|Hx2];
    rewrite Hx2; cbn [bind]; [|right; tauto].
  destruct (DistanceFacts.of_int_cases y1) as [(py & Hy1 & Hpy)|Hy1];
    rewrite Hy1; cbn [bind]; [|right; tauto].
  destruct (DistanceFacts.of_int_cases y2) as [(qy & Hy2 & Hqy)|Hy2];
    rewrite Hy2; cbn [bind]; [|right; tauto].
  left. exists px, qx, py, qy. tauto.
Qed.

Lemma euclidean_distance_nonnegative (x1 y1 x2 y2 : Z) (v : Float.float) :
  euclidean_distance x1 y1 x2 y2 = Ok v -> is_nonnegative v = true.
Proof.
  intros Hv.
  destruct (euclidean_distance_cases x1 y1 x2 y2)
    as [(px & qx & py & qy & _ & _ & _ & _ & Hpx & Hqx & Hpy & Hqy & H)
       |[_ H]]; rewrite H in Hv; [|discriminate].
  inversion Hv; subst v.
  apply DistanceFacts.norm2_sign; now apply FloatFacts.abs_diff_number.
Qed.

Lemma euclidean_distance_exception (x1 y1 x2 y2 : Z) (e : exn) :
  euclidean_distance x1 y1 x2 y2 = Raise e -> e = OverflowError.
Proof.
  intros He.
  destruct (euclidean_distance_cases x1 y1 x2 y2)
    as [(px & qx & py & qy & _ & _ & _ & _ & _ & _ & _ & _ & H)|[_ H]];
    rewrite H in He; congruence.
Qed.

(** A coordinate of magnitude [2^1024] or more does not convert. *)
Lemma euclidean_distance_overflow (x1 y1 x2 y2 : Z) :
  2 ^ 1024 <= Z.abs x1 \/ 2 ^ 1024 <= Z.abs y1 \/
  2 ^ 1024 <= Z.abs x2 \/ 2 ^ 1024 <= Z.abs y2 ->
  euclidean_distance x1 y1 x2 y2 = Raise OverflowError.
Proof.
  intros Hbig.
  destruct (euclidean_distance_cases x1 y1 x2 y2)
    as [(px & qx & py & qy & Hx1 & Hx2 & Hy1 & Hy2 & _)|[_ H]];
    [exfalso|exact H].
  destruct Hbig as [H|[H|[H|H]]];
    apply DistanceFacts.of_int_overflow in H; congruence.
Qed.

(** ** The selection loop of choose_direction *)

Section ChooseLoop.

Variables lx ly tx ty : Z.

Lemma test_distance_number (d : Direction) (v : Float.float) :
  test_distance lx ly tx ty d = Ok v -> is_number v = true.
Proof. apply euclidean_distance_number. Qed.

(** One iteration, with the distance written as [test_distance]. *)
Lemma choose_loop_cons (d : Direction) (rest : list Direction)
    (best : option Direction) (bd : Float.float) :
  choose_loop lx ly tx ty (d :: rest) best bd =
  (distance <- test_distance lx ly tx ty d ;;
   if Float.ltb distance bd
   then choose_loop lx ly tx ty rest (Some d) distance
   else if Float.eqb distance bd
   then
     i <- preference_index (Some d) ;;
     j <- preference_index best ;;
     if i <? j
     then choose_loop lx ly tx ty rest (Some d) bd
     else choose_loop lx ly tx ty rest best bd
   else choose_loop lx ly tx ty rest best bd).
Proof. destruct d; reflexivity. Qed.

(** The invariant is kept by one more candidate. *)
Lemma best_so_far_step (seen : list Direction) (b d : Direction)
    (bd v : Float.float) :
  best_so_far lx ly tx ty seen b bd ->
  test_distance lx ly tx ty d = Ok v ->
  exists b' bd',
    (if Float.ltb v bd then (b', bd') = (d, v)
     else if Float.eqb v bd
     then (if rank d <? rank b then (b', bd') = (d, bd)
           else (b', bd') = (b, bd))
     else (b', bd') = (b, bd)) /\
    best_so_far lx ly tx ty (seen ++ [d]) b' bd'.
Proof.
  intros (Hin & (vb & Hvb & Heq) & Hall) Hd.
  pose proof (test_distance_number d v Hd) as Hnum.
  destruct (Float.ltb v bd) eqn:Hlt.
  - exists d, v. split; [reflexivity|].
    split; [apply in_or_app; right; now left|].
    split; [exists v; split; [assumption|now apply FloatOrder.eqb_refl]|].
    intros p w Hp Hw. apply in_app_or in Hp.
    destruct Hp as [Hp|[<-|[]]].
    + destruct (Hall p w Hp Hw) as [Hnlt _]. split.
      * destruct (Float.ltb w v) eqn:Hwv; [|reflexivity].
        rewrite (FloatOrder.ltb_trans w v bd Hwv Hlt) in Hnlt.
        discriminate.
      * intros Hwv.
        rewrite (FloatOrder.eqb_ltb_trans w v bd Hwv Hlt) in Hnlt.
        discriminate.
    + rewrite Hd in Hw. inversion Hw; subst w. split.
      * destruct (Float.ltb v v) eqn:Hvv; [|reflexivity].
        apply FloatOrder.ltb_not_eqb in Hvv.
        rewrite FloatOrder.eqb_refl in Hvv by assumption. discriminate.
      * intros _. lia.
  - destruct (Float.eqb v bd) eqn:Hveq.
    + destruct (rank d <? rank b) eqn:Hrank.
      * apply Z.ltb_lt in Hrank.
        exists d, bd. split; [reflexivity|].
        split; [apply in_or_app; right; now left|].
        split; [exists v; now split|].
        intros p w Hp Hw. apply in_app_or in Hp.
        destruct Hp as [Hp|[<-|[]]].
        -- destruct (Hall p w Hp Hw) as [Hnlt Hties]. split; [assumption|].
           intros Hwbd. specialize (Hties Hwbd). lia.
        -- rewrite Hd in Hw. inversion Hw; subst w. split; [assumption|].
           intros _. lia.
      * apply Z.ltb_ge in Hrank.
        exists b, bd. split; [reflexivity|].
        split; [apply in_or_app; now left|].
        split; [exists vb; now split|].
        intros p w Hp Hw. apply in_app_or in Hp.
        destruct Hp as [Hp|[<-|[]]].
        -- apply (Hall p w Hp Hw).
        -- rewrite Hd in Hw. inversion Hw; subst w. split; [assumption|].
           intros _. lia.
    + exists b, bd. split; [reflexivity|].
      split; [apply in_or_app; now left|].
      split; [exists vb; now split|].
      intros p w Hp Hw. apply in_app_or in Hp.
      destruct Hp as [Hp|[<-|[]]].
      * apply (Hall p w Hp Hw).
      * rewrite Hd in Hw. inversion Hw; subst w. split; [assumption|].
        congruence.
Qed.

(** Once a best candidate is stored, the loop runs to its end and returns
    the best of all candidates, as long as every distance is computed. *)
Lemma choose_loop_best (rest seen : list Direction) (b : Direction)
    (bd : Float.float) :
  (forall d, In d rest -> exists v, test_distance lx ly tx ty d = Ok v) ->
  best_so_far lx ly tx ty seen b bd ->
  exists b' bd',
    choose_loop lx ly tx ty rest (Some b) bd = Ok (Some b') /\
    best_so_far lx ly tx ty (seen ++ rest) b' bd'.
Proof.
  revert seen b bd.
  induction rest as [|d rest IH]; intros seen b bd Hrest Hinv.
  - exists b, bd. simpl. rewrite app_nil_r. now split.
  - destruct (Hrest d (or_introl eq_refl)) as [v Hv].
    destruct (best_so_far_step seen b d bd v Hinv Hv)
      as (b' & bd' & Hcase & Hinv').
    assert (Hrest' : forall d0, In d0 rest ->
              exists v0, test_distance lx ly tx ty d0 = Ok v0)
      by (intros d0 H0; apply Hrest; now right).
    destruct (IH (seen ++ [d]) b' bd' Hrest' Hinv')
      as (b'' & bd'' & Hloop & Hinv'').
    exists b'', bd''. rewrite <- app_assoc in Hinv''. simpl in Hinv''.
    split; [|assumption].
    rewrite choose_loop_cons, Hv; cbn [bind].
    rewrite !preference_index_rank; cbn [bind preference_index].
    destruct (Float.ltb v bd).
    + inversion Hcase; subst. assumption.
    + destruct (Float.eqb v bd).
      * destruct (rank d <? rank b); inversion Hcase; subst; assumption.
      * inversion Hcase; subst; assumption.
Qed.

Lemma best_so_far_best_exit (exits : list Direction) (b : Direction)
    (bd : Float.float) :
  best_so_far lx ly tx ty exits b bd -> best_exit lx ly tx ty exits b.
Proof.
  intros (Hin & (vb & Hvb & Heq) & Hall).
  split; [assumption|]. exists vb. split; [assumption|].
  intros p w Hp Hw. destruct (Hall p w Hp Hw) as [Hnlt Hties]. split.
  - destruct (Float.ltb w vb) eqn:Hwv; [|reflexivity].
    rewrite (FloatOrder.ltb_eqb_trans w vb bd Hwv Heq) in Hnlt.
    discriminate.
  - intros Hwv. apply Hties.
    apply (FloatOrder.eqb_trans w vb bd Hwv Heq).
Qed.

(** The loop from its initial state [None], [inf]. *)
Lemma choose_loop_initial (d0 : Direction) (rest : list Direction)
    (v0 : Float.float) :
  test_distance lx ly tx ty d0 = Ok v0 ->
  Float.ltb v0 Float.inf = true ->
  (forall d, In d rest -> exists v, test_distance lx ly tx ty d = Ok v) ->
  exists b,
    choose_loop lx ly tx ty (d0 :: rest) None Float.inf = Ok (Some b) /\
    best_exit lx ly tx ty (d0 :: rest) b.
Proof.
  intros Hv0 Hfin Hrest.
  pose proof (test_distance_number d0 v0 Hv0) as Hnum.
  assert (Hinv : best_so_far lx ly tx ty [d0] d0 v0).
  { split; [now left|].
    split; [exists v0; split; [assumption|now apply FloatOrder.eqb_refl]|].
    intros p w [<-|[]] Hw. rewrite Hv0 in Hw. inversion Hw; subst w.
    split; [|intros _; lia].
    destruct (Float.ltb v0 v0) eqn:Hvv; [|reflexivity].
    apply FloatOrder.ltb_not_eqb in Hvv.
    rewrite FloatOrder.eqb_refl in Hvv by assumption. discriminate. }
  destruct (choose_loop_best rest [d0] d0 v0 Hrest Hinv)
    as (b & bd & Hloop & Hbest).
  exists b. split.
  - rewrite choose_loop_cons, Hv0; cbn [bind]. rewrite Hfin. exact Hloop.
  - eapply best_so_far_best_exit. exact Hbest.
Qed.

(** When the first distance is not below [inf], the comparison of
    preference indices meets [None] and raises. *)
Lemma choose_loop_first_infinite (d0 : Direction) (rest : list Direction)
    (v0 : Float.float) :
  test_distance lx ly tx ty d0 = Ok v0 ->
  Float.ltb v0 Float.inf = false ->
  choose_loop lx ly tx ty (d0 :: rest) None Float.inf = Raise ValueError.
Proof.
  intros Hv0 Hnfin.
  rewrite choose_loop_cons, Hv0; cbn [bind]. rewrite Hnfin.
  rewrite (FloatOrder.below_inf v0 (test_distance_number d0 v0 Hv0) Hnfin).
  rewrite preference_index_rank. reflexivity.
Qed.

(** A distance that cannot be computed stops the loop with its error. *)
Lemma choose_loop_raises (exits : list Direction) (best : option Direction)
    (bd : Float.float) (r : option Direction) :
  choose_loop lx ly tx ty exits best bd = Ok r ->
  forall d, In d exits -> exists v, test_distance lx ly tx ty d = Ok v.
Proof.
  revert best bd. induction exits as [|d0 rest IH]; intros best bd Hloop d Hd.
  - destruct Hd.
  - rewrite choose_loop_cons in Hloop.
    destruct (test_distance lx ly tx ty d0) as [v0|e] eqn:Hv0;
      [cbn [bind] in Hloop|discriminate].
    destruct Hd as [<-|Hd]; [now exists v0|].
    destruct (Float.ltb v0 bd); [now apply (IH _ _ Hloop)|].
    destruct (Float.eqb v0 bd); [|now apply (IH _ _ Hloop)].
    destruct (preference_index (Some d0)) as [i|];
      [cbn [bind] in Hloop|discriminate].
    destruct (preference_index best) as [j|];
      [cbn [bind] in Hloop|discriminate].
    destruct (i <? j); now apply (IH _ _ Hloop).
Qed.

End ChooseLoop.

(** ** What every computed exits list satisfies, on any grid *)

Lemma exits_loop_sound (self : Pathfinder) (x y : Z) (h : Direction)
    (directions available exits : list Direction) :
  exits_loop self x y h directions available = Ok exits ->
  forall d, In d exits ->
    In d available \/
    (In d directions /\ d <> opposite h /\
     is_valid_tile self (fst (step x y d)) (snd (step x y d)) = Ok true).
Proof.
  revert available.
  induction directions as [|d0 rest IH]; intros available Hloop d Hd;
    simpl in Hloop.
  - inversion Hloop; subst. now left.
  - destruct (Direction_eqb d0 (opposite h)) eqn:Hrev.
    + destruct (IH _ Hloop d Hd) as [H|(H1 & H2 & H3)]; [now left|].
      right. repeat split; trivial. now right.
    + rewrite (value_step x y d0) in Hloop.
      destruct (is_valid_tile self (x + fst (value d0)) (y + snd (value d0)))
        as [[|]|] eqn:Hvalid; simpl in Hloop; try discriminate.
      * destruct (IH _ Hloop d Hd) as [H|(H1 & H2 & H3)].
        -- apply in_app_or in H. destruct H as [H|[<-|[]]]; [now left|].
           right. repeat split; trivial; [now left|].
           intros ->. now rewrite Direction_eqb_refl in Hrev.
        -- right. repeat split; trivial. now right.
      * destruct (IH _ Hloop d Hd) as [H|(H1 & H2 & H3)]; [now left|].
        right. repeat split; trivial. now right.
Qed.

Lemma get_available_exits_sound (self : Pathfinder) (x y : Z) (h : Direction)
    (exits : list Direction) :
  get_available_exits self x y h = Ok exits ->
  forall d, In d exits ->
    d <> opposite h /\
    is_valid_tile self (fst (step x y d)) (snd (step x y d)) = Ok true.
Proof.
  intros Hexits d Hd.
  destruct (exits_loop_sound _ _ _ _ _ _ _ Hexits d Hd) as [[]|(_ & H1 & H2)].
  now split.
Qed.

Lemma filter_subsequence {A : Type} (f : A -> bool) (l : list A) :
  subsequence (filter f l) l.
Proof.
  induction l as [|a l IH]; simpl.
  - constructor.
  - destruct (f a); now constructor.
Qed.

(** [choose_direction] with the lookahead tile written as a [step]. *)
Lemma choose_direction_unfold (self : Pathfinder) (gx gy : Z) (h : Direction)
    (tx ty : Z) :
  choose_direction self gx gy h tx ty =
  (available_exits <-
     get_available_exits self (fst (step gx gy h)) (snd (step gx gy h)) h ;;
   match available_exits with
   | [only] => Ok (Some only)
   | [] => Ok (Some (opposite h))
   | _ => choose_loop (fst (step gx gy h)) (snd (step gx gy h)) tx ty
            available_exits None Float.inf
   end).
Proof. destruct h; reflexivity. Qed.

Lemma choose_direction_empty (self : Pathfinder) (gx gy : Z) (h : Direction)
    (tx ty : Z) :
  get_available_exits self (fst (step gx gy h)) (snd (step gx gy h)) h = Ok [] ->
  choose_direction self gx gy h tx ty = Ok (Some (opposite h)).
Proof. intros H. now rewrite choose_direction_unfold, H. Qed.

Lemma choose_direction_one (self : Pathfinder) (gx gy : Z) (h : Direction)
    (tx ty : Z) (d : Direction) :
  get_available_exits self (fst (step gx gy h)) (snd (step gx gy h)) h
  = Ok [d] ->
  choose_direction self gx gy h tx ty = Ok (Some d).
Proof. intros H. now rewrite choose_direction_unfold, H. Qed.

Lemma choose_direction_many (self : Pathfinder) (gx gy : Z) (h : Direction)
    (tx ty : Z) (d0 d1 : Direction) (rest : list Direction) :
  get_available_exits self (fst (step gx gy h)) (snd (step gx gy h)) h
  = Ok (d0 :: d1 :: rest) ->
  choose_direction self gx gy h tx ty =
  choose_loop (fst (step gx gy h)) (snd (step gx gy h)) tx ty
    (d0 :: d1 :: rest) None Float.inf.
Proof. intros H. now rewrite choose_direction_unfold, H. Qed.

(** The tiles next to a tile far outside the grid are outside it. *)
Lemma far_outside_no_exit (maze0 : list (list Z)) (x y : Z) (h : Direction) :
  far_outside maze0 x y = true -> exits_spec maze0 x y h = [].
Proof.
  intros Hfar. unfold far_outside in Hfar.
  assert (Hout : forall d, in_bounds maze0 (fst (step x y d)) (snd (step x y d))
                           = false).
  { intros d. unfold in_bounds.
    rewrite !orb_true_iff, !Z.ltb_lt, !Z.gtb_lt in Hfar.
    destruct Hfar as [[[Hfar|Hfar]|Hfar]|Hfar];
      destruct d; simpl in *;
      repeat match goal with
             | |- context [?a <=? ?b] => destruct (Z.leb_spec a b)
             | |- context [?a <? ?b] => destruct (Z.ltb_spec a b)
             end; simpl; try reflexivity; lia. }
  unfold exits_spec, DIRECTION_PREFERENCE. cbn [filter].
  unfold keeps_exit, valid_tile.
  rewrite !Hout. cbn [andb]. rewrite !andb_false_r. reflexivity.
Qed.

(** ** The claims about the navigator *)

(** C3.  On a rectangular grid [is_valid_tile] answers whether the tile is
    within bounds and walkable, and [get_available_exits] returns the
    preference order UP, LEFT, DOWN, RIGHT filtered by: the direction is not
    the reverse of the heading, and the adjacent tile is valid.  The result
    never holds the reverse of the heading, is a subsequence of the
    preference order, and a direction whose adjacent tile is outside the
    grid is left out, without any error. *)
Theorem get_available_exits_correct (maze0 : list (list Z)) (x y : Z)
    (h : Direction) :
  is_rectangular maze0 = true ->
  (forall x' y',
      is_valid_tile (Pathfinder_init maze0) x' y' = Ok (valid_tile maze0 x' y')) /\
  get_available_exits (Pathfinder_init maze0) x y h
  = Ok (filter (fun d =>
                  negb (Direction_eqb d (opposite h)) &&
                  valid_tile maze0 (x + fst (value d)) (y + snd (value d)))
          [UP; LEFT; DOWN; RIGHT]) /\
  (forall exits,
      get_available_exits (Pathfinder_init maze0) x y h = Ok exits ->
      ~ In (opposite h) exits /\
      subsequence exits [UP; LEFT; DOWN; RIGHT] /\
      forall d, in_bounds maze0 (x + fst (value d)) (y + snd (value d)) = false ->
                ~ In d exits).
Proof.
  intros Hrect.
  split; [intros x' y'; now apply is_valid_tile_spec|].
  split; [now apply get_available_exits_spec|].
  intros exits Hexits.
  rewrite get_available_exits_spec in Hexits by assumption.
  inversion Hexits; subst exits. clear Hexits.
  split; [|split].
  - intros Hin. apply filter_In in Hin. destruct Hin as [_ Hkeep].
    unfold keeps_exit in Hkeep.
    now rewrite Direction_eqb_refl in Hkeep.
  - apply filter_subsequence.
  - intros d Hout Hin. apply filter_In in Hin. destruct Hin as [_ Hkeep].
    unfold keeps_exit, valid_tile, step in Hkeep. simpl in Hkeep.
    rewrite Hout in Hkeep. simpl in Hkeep.
    now rewrite andb_false_r in Hkeep.
Qed.

Lemma get_available_exits_correct_witness :
  get_available_exits (Pathfinder_init simple_maze) 1 3 UP = Ok [UP; RIGHT] /\
  forall exits,
    get_available_exits (Pathfinder_init simple_maze) 1 3 UP = Ok exits ->
    ~ In DOWN exits /\ subsequence exits [UP; LEFT; DOWN; RIGHT] /\
    forall d, in_bounds simple_maze (1 + fst (value d)) (3 + snd (value d))
              = false -> ~ In d exits.
Proof.
  destruct (get_available_exits_correct simple_maze 1 3 UP eq_refl)
    as (_ & Hexits & Hall).
  split; [exact Hexits|exact Hall].
Defined.

(** C5.  When the exits list computed at the lookahead tile has exactly one
    element, [choose_direction] returns that element, whatever the
    target. *)
Theorem choose_direction_single_exit (maze0 : list (list Z)) (gx gy : Z)
    (h : Direction) (tx ty : Z) (d : Direction) :
  get_available_exits (Pathfinder_init maze0)
    (fst (step gx gy h)) (snd (step gx gy h)) h = Ok [d] ->
  choose_direction (Pathfinder_init maze0) gx gy h tx ty = Ok (Some d).
Proof. apply choose_direction_one. Qed.

Lemma choose_direction_single_exit_witness :
  choose_direction (Pathfinder_init simple_maze) 1 3 RIGHT 3 1 = Ok (Some RIGHT).
Proof.
  apply (choose_direction_single_exit simple_maze 1 3 RIGHT 3 1 RIGHT).
  reflexivity.
Defined.

(** C2, as the specification states it, fails: for the ghost at (2,2)
    heading UP the lookahead tile (2,1) has the two exits LEFT and RIGHT,
    and the one nearer to the target (3,3) is RIGHT. *)
Lemma ghost_at_2_2_turns_right :
  get_available_exits pathfinder 2 1 UP = Ok [LEFT; RIGHT] /\
  choose_direction pathfinder 2 2 UP 3 3 = Ok (Some RIGHT) /\
  choose_direction pathfinder 2 2 UP 3 3 <> Ok (Some DOWN).
Proof. repeat split; [vm_compute; reflexivity..|discriminate]. Qed.

(** C2, amended.  [simple_maze] is the 5x5 grid whose border cells are walls
    and whose only interior wall is at (2,2).  For the ghost at (1,1)
    heading UP with target (3,3) the lookahead tile (1,0) has no exit, and
    [choose_direction] returns DOWN. *)
Theorem dead_end_reverses :
  maze pathfinder =
  [ [1; 1; 1; 1; 1];
    [1; 0; 0; 0; 1];
    [1; 0; 1; 0; 1];
    [1; 0; 0; 0; 1];
    [1; 1; 1; 1; 1] ] /\
  width pathfinder = 5 /\ height pathfinder = 5 /\
  get_available_exits pathfinder 1 0 UP = Ok [] /\
  choose_direction pathfinder 1 1 UP 3 3 = Ok (Some DOWN).
Proof. repeat split. Qed.

(** C4, as the specification states it, fails: a ghost outside the grid can
    look ahead at a tile that has an exit.  On [simple_maze] the ghost at
    (-1,1) heading RIGHT looks ahead at (0,1), whose exit RIGHT is valid,
    and is not reversed. *)
Lemma out_of_bounds_ghost_keeps_heading :
  is_rectangular simple_maze = true /\
  in_bounds simple_maze (-1) 1 = false /\
  get_available_exits pathfinder (fst (step (-1) 1 RIGHT))
    (snd (step (-1) 1 RIGHT)) RIGHT = Ok [RIGHT] /\
  choose_direction pathfinder (-1) 1 RIGHT 3 3 = Ok (Some RIGHT) /\
  choose_direction pathfinder (-1) 1 RIGHT 3 3 <> Ok (Some (opposite RIGHT)).
Proof. repeat split; [vm_compute; reflexivity..|discriminate]. Qed.

(** C4, amended.  When the exits list computed at the lookahead tile is
    empty, [choose_direction] returns the reverse of the heading, for every
    target.  On a rectangular grid no ghost position, inside or outside the
    grid, makes the computation of the exits fail; the list is empty, and
    the heading is reversed, when no direction other than the reverse leads
    from the lookahead tile to a valid tile, which is the case whenever the
    lookahead tile is more than one step outside the grid. *)
Theorem choose_direction_dead_end (maze0 : list (list Z)) (gx gy : Z)
    (h : Direction) (tx ty : Z) :
  let self := Pathfinder_init maze0 in
  let lx := fst (step gx gy h) in
  let ly := snd (step gx gy h) in
  (get_available_exits self lx ly h = Ok [] ->
   choose_direction self gx gy h tx ty = Ok (Some (opposite h))) /\
  (is_rectangular maze0 = true ->
   (exists exits, get_available_exits self lx ly h = Ok exits) /\
   ((forall d, d <> opposite h ->
       valid_tile maze0 (fst (step lx ly d)) (snd (step lx ly d)) = false) ->
    get_available_exits self lx ly h = Ok [] /\
    choose_direction self gx gy h tx ty = Ok (Some (opposite h))) /\
   (far_outside maze0 lx ly = true ->
    get_available_exits self lx ly h = Ok [] /\
    choose_direction self gx gy h tx ty = Ok (Some (opposite h)))).
Proof.
  intros self lx ly.
  split; [apply choose_direction_empty|].
  intros Hrect.
  pose proof (get_available_exits_spec maze0 lx ly h Hrect) as Hexits.
  fold self in Hexits.
  split; [eauto|]. split.
  - intros Hnone.
    assert (Hempty : exits_spec maze0 lx ly h = []).
    { unfold exits_spec, DIRECTION_PREFERENCE. cbn [filter].
      unfold keeps_exit.
      assert (Hd : forall d,
                 negb (Direction_eqb d (opposite h)) &&
                 valid_tile maze0 (fst (step lx ly d)) (snd (step lx ly d))
                 = false).
      { intros d. destruct (Direction_eqb d (opposite h)) eqn:Hrev;
          [reflexivity|].
        rewrite Hnone; [reflexivity|].
        intros ->. now rewrite Direction_eqb_refl in Hrev. }
      now rewrite !Hd. }
    rewrite Hempty in Hexits. split; [assumption|].
    now apply choose_direction_empty.
  - intros Hfar.
    rewrite (far_outside_no_exit maze0 lx ly h Hfar) in Hexits.
    split; [assumption|]. now apply choose_direction_empty.
Qed.

Lemma choose_direction_dead_end_witness :
  choose_direction (Pathfinder_init simple_maze) 1 1 UP 3 3 = Ok (Some DOWN) /\
  (get_available_exits (Pathfinder_init simple_maze) 1 0 UP = Ok [] /\
   choose_direction (Pathfinder_init simple_maze) 1 1 UP 3 3 = Ok (Some DOWN)) /\
  (get_available_exits (Pathfinder_init simple_maze) 1 (-2) UP = Ok [] /\
   choose_direction (Pathfinder_init simple_maze) 1 (-1) UP 3 3
   = Ok (Some DOWN)).
Proof.
  destruct (choose_direction_dead_end simple_maze 1 1 UP 3 3)
    as (Hempty & Hrect).
  destruct (Hrect eq_refl) as (_ & Hblocked & _).
  destruct (choose_direction_dead_end simple_maze 1 (-1) UP 3 3)
    as (_ & Hrect').
  destruct (Hrect' eq_refl) as (_ & _ & Hfar).
  split; [exact (Hempty eq_refl)|]. split; [|exact (Hfar eq_refl)].
  apply Hblocked. intros d Hd.
  destruct d; [reflexivity|exfalso; apply Hd; reflexivity|reflexivity..].
Defined.

(** The multi-exit branch returns a direction exactly when every candidate's
    distance is computed and the first one is below [inf]; what it returns
    is then the best exit. *)
Lemma choose_loop_returns (lx ly tx ty : Z) (d0 : Direction)
    (rest : list Direction) (r : option Direction) :
  choose_loop lx ly tx ty (d0 :: rest) None Float.inf = Ok r ->
  (forall d, In d (d0 :: rest) -> exists v, test_distance lx ly tx ty d = Ok v) /\
  (exists v0, test_distance lx ly tx ty d0 = Ok v0 /\
              Float.ltb v0 Float.inf = true) /\
  exists b, r = Some b /\ best_exit lx ly tx ty (d0 :: rest) b.
Proof.
  intros Hloop.
  pose proof (choose_loop_raises lx ly tx ty _ _ _ _ Hloop) as Hall.
  destruct (Hall d0 (or_introl eq_refl)) as [v0 Hv0].
  destruct (Float.ltb v0 Float.inf) eqn:Hfin.
  - split; [assumption|]. split; [now exists v0|].
    destruct (choose_loop_initial lx ly tx ty d0 rest v0 Hv0 Hfin)
      as (b & Hb & Hbest).
    { intros d Hd. apply Hall. now right. }
    exists b. split; [congruence|assumption].
  - rewrite (choose_loop_first_infinite lx ly tx ty d0 rest v0 Hv0 Hfin)
      in Hloop.
    discriminate.
Qed.

(** C10.  Whatever [choose_direction] returns is a direction; it is an
    element of the exits list computed at the lookahead tile when that list
    is not empty, and it is the reverse of the heading exactly when the list
    is empty.  A result other than the reverse leads from the lookahead tile
    to a tile that [is_valid_tile] accepts, which on a rectangular grid is a
    walkable tile within bounds.  With no exit the reverse is returned, and
    with one exit that exit is. *)
Theorem choose_direction_result (maze0 : list (list Z)) (gx gy : Z)
    (h : Direction) (tx ty : Z) (exits : list Direction) :
  let self := Pathfinder_init maze0 in
  let lx := fst (step gx gy h) in
  let ly := snd (step gx gy h) in
  get_available_exits self lx ly h = Ok exits ->
  (exits = [] -> choose_direction self gx gy h tx ty = Ok (Some (opposite h))) /\
  (forall d, exits = [d] -> choose_direction self gx gy h tx ty = Ok (Some d)) /\
  (forall r, choose_direction self gx gy h tx ty = Ok r ->
     exists d, r = Some d /\
       (exits <> [] -> In d exits) /\
       (d = opposite h <-> exits = []) /\
       (d <> opposite h ->
        is_valid_tile self (fst (step lx ly d)) (snd (step lx ly d)) = Ok true /\
        (is_rectangular maze0 = true ->
         valid_tile maze0 (fst (step lx ly d)) (snd (step lx ly d)) = true))).
Proof.
  intros self lx ly Hexits.
  pose proof (get_available_exits_sound self lx ly h exits Hexits) as Hsound.
  split; [intros ->; now apply choose_direction_empty|].
  split; [intros d ->; now apply choose_direction_one|].
  intros r Hr.
  assert (Hmember : forall d, In d exits ->
            (exits <> [] -> In d exits) /\
            (d = opposite h <-> exits = []) /\
            (d <> opposite h ->
             is_valid_tile self (fst (step lx ly d)) (snd (step lx ly d))
             = Ok true /\
             (is_rectangular maze0 = true ->
              valid_tile maze0 (fst (step lx ly d)) (snd (step lx ly d))
              = true))).
  { intros d Hd. destruct (Hsound d Hd) as [Hnrev Hvalid].
    split; [trivial|]. split.
    - split; [contradiction|]. intros ->. destruct Hd.
    - intros _. split; [assumption|]. intros Hrect.
      unfold self in Hvalid. rewrite is_valid_tile_spec in Hvalid by assumption.
      congruence. }
  destruct exits as [|d0 [|d1 rest]].
  - rewrite (choose_direction_empty self gx gy h tx ty Hexits) in Hr.
    inversion Hr; subst r. exists (opposite h).
    split; [reflexivity|]. split; [congruence|].
    split; [tauto|congruence].
  - rewrite (choose_direction_one self gx gy h tx ty d0 Hexits) in Hr.
    inversion Hr; subst r. exists d0.
    split; [reflexivity|]. apply Hmember. now left.
  - rewrite (choose_direction_many self gx gy h tx ty d0 d1 rest Hexits) in Hr.
    destruct (choose_loop_returns lx ly tx ty d0 (d1 :: rest) r Hr)
      as (_ & _ & b & -> & Hin & _).
    exists b. split; [reflexivity|]. now apply Hmember.
Qed.

Lemma choose_direction_result_witness :
  (forall d, [LEFT; RIGHT] = [d] ->
     choose_direction (Pathfinder_init simple_maze) 2 2 UP 3 3 = Ok (Some d)) /\
  forall r, choose_direction (Pathfinder_init simple_maze) 2 2 UP 3 3 = Ok r ->
    exists d, r = Some d /\
      ([LEFT; RIGHT] <> [] -> In d [LEFT; RIGHT]) /\
      (d = opposite UP <-> [LEFT; RIGHT] = []) /\
      (d <> opposite UP ->
       is_valid_tile (Pathfinder_init simple_maze)
         (fst (step 2 1 d)) (snd (step 2 1 d)) = Ok true /\
       (is_rectangular simple_maze = true ->
        valid_tile simple_maze (fst (step 2 1 d)) (snd (step 2 1 d)) = true)).
Proof.
  apply (choose_direction_result simple_maze 2 2 UP 3 3 [LEFT; RIGHT]).
  reflexivity.
Defined.

(** The multi-exit branch, on the conditions under which it returns. *)
Lemma choose_direction_best (self : Pathfinder) (gx gy : Z) (h : Direction)
    (tx ty : Z) (exits : list Direction) :
  let lx := fst (step gx gy h) in
  let ly := snd (step gx gy h) in
  get_available_exits self lx ly h = Ok exits ->
  (2 <= length exits)%nat ->
  (forall d, In d exits -> exists v, test_distance lx ly tx ty d = Ok v) ->
  (exists v0, test_distance lx ly tx ty (hd h exits) = Ok v0 /\
              Float.ltb v0 Float.inf = true) ->
  exists b, choose_direction self gx gy h tx ty = Ok (Some b) /\
            best_exit lx ly tx ty exits b.
Proof.
  intros lx ly Hexits Hlen Hall (v0 & Hv0 & Hfin).
  destruct exits as [|d0 [|d1 rest]]; simpl in Hlen; try lia.
  rewrite (choose_direction_many self gx gy h tx ty d0 d1 rest Hexits).
  apply (choose_loop_initial lx ly tx ty d0 (d1 :: rest) v0 Hv0 Hfin).
  intros d Hd. apply Hall. now right.
Qed.

(** C1, as the specification states it, fails beyond the range and the
    precision of floats.  On [simple_maze] the ghost at (2,2) heading UP has
    the two exits LEFT and RIGHT.  With the target at x = 2^1024 the
    conversion of the target to a float raises, so nothing is returned.  With
    the target at x = 2^60 the two test tiles, which are two apart, are at
    the same computed distance 2^60, and LEFT is returned although the test
    tile of RIGHT is strictly nearer to the target. *)
Lemma choose_direction_beyond_floats :
  get_available_exits pathfinder (fst (step 2 2 UP)) (snd (step 2 2 UP)) UP
  = Ok [LEFT; RIGHT] /\
  choose_direction pathfinder 2 2 UP (2 ^ 1024) 1 = Raise OverflowError /\
  choose_direction pathfinder 2 2 UP (2 ^ 60) 1 = Ok (Some LEFT) /\
  test_distance 2 1 (2 ^ 60) 1 LEFT = test_distance 2 1 (2 ^ 60) 1 RIGHT /\
  squared_distance (step 2 1 RIGHT) (2 ^ 60, 1)
  < squared_distance (step 2 1 LEFT) (2 ^ 60, 1).
Proof. repeat split; vm_compute; reflexivity. Qed.

(** For a ghost and a target whose coordinates are at most 2^1000 in
    magnitude, the multi-exit branch returns an exit such that no exit has a
    smaller computed distance, and which is the earliest in the preference
    order among the exits at its computed distance.  The computed distances
    are those of the reference norm: the lemma is used for the fact that a
    direction is returned, and within 2^23 for the direction itself. *)
Lemma choose_direction_least_computed (maze0 : list (list Z)) (gx gy : Z)
    (h : Direction) (tx ty : Z) (exits : list Direction) :
  let self := Pathfinder_init maze0 in
  let lx := fst (step gx gy h) in
  let ly := snd (step gx gy h) in
  Z.abs gx <= 2 ^ 1000 -> Z.abs gy <= 2 ^ 1000 ->
  Z.abs tx <= 2 ^ 1000 -> Z.abs ty <= 2 ^ 1000 ->
  get_available_exits self lx ly h = Ok exits ->
  (2 <= length exits)%nat ->
  exists b vb,
    choose_direction self gx gy h tx ty = Ok (Some b) /\
    In b exits /\
    test_distance lx ly tx ty b = Ok vb /\
    forall d, In d exits ->
      exists v, test_distance lx ly tx ty d = Ok v /\
                Float.ltb v vb = false /\
                (Float.eqb v vb = true -> rank b <= rank d).
Proof.
  intros self lx ly Hgx Hgy Htx Hty Hexits Hlen.
  assert (Hfin : forall d, exists v,
             test_distance lx ly tx ty d = Ok v /\
             Float.ltb v Float.inf = true)
    by (intros d; now apply test_distance_finite).
  destruct (choose_direction_best self gx gy h tx ty exits Hexits Hlen)
    as (b & Hb & Hin & vb & Hvb & Hbest).
  - intros d _. destruct (Hfin d) as (v & Hv & _). now exists v.
  - apply Hfin.
  - exists b, vb. repeat split; trivial.
    intros d Hd. destruct (Hfin d) as (v & Hv & _).
    exists v. split; [assumption|]. now apply Hbest.
Qed.

(** With two exits or more, a target coordinate that does not convert to a
    float makes the first distance, and so the call, raise. *)
Lemma choose_direction_overflow (self : Pathfinder) (gx gy : Z)
    (h : Direction) (tx ty : Z) (exits : list Direction) :
  get_available_exits self (fst (step gx gy h)) (snd (step gx gy h)) h
  = Ok exits ->
  (2 <= length exits)%nat ->
  2 ^ 1024 <= Z.abs tx \/ 2 ^ 1024 <= Z.abs ty ->
  choose_direction self gx gy h tx ty = Raise OverflowError.
Proof.
  intros Hexits Hlen Hbig.
  destruct exits as [|d0 [|d1 rest]]; cbn [length] in Hlen; try lia.
  rewrite (choose_direction_many self gx gy h tx ty d0 d1 rest Hexits).
  rewrite choose_loop_cons. unfold test_distance.
  rewrite euclidean_distance_overflow by tauto. reflexivity.
Qed.

(** C1, amended.  Whenever the exits list computed at the lookahead tile
    has at least two elements:
    - for a ghost and a target whose coordinates are at most 2^23 in
      magnitude, [choose_direction] returns the exit of that list whose test
      tile has the smallest Euclidean distance to the target (distances are
      compared through their squares); among exits at the same distance it
      returns the one earliest in the preference order UP, LEFT, DOWN,
      RIGHT;
    - a target coordinate of magnitude 2^1024 or more, which is too large
      for a float, makes the call raise [OverflowError] instead of
      returning. *)
Theorem choose_direction_nearest (maze0 : list (list Z)) (gx gy : Z)
    (h : Direction) (tx ty : Z) (exits : list Direction) :
  let self := Pathfinder_init maze0 in
  let lx := fst (step gx gy h) in
  let ly := snd (step gx gy h) in
  get_available_exits self lx ly h = Ok exits ->
  (2 <= length exits)%nat ->
  (Z.abs gx <= 2 ^ 23 -> Z.abs gy <= 2 ^ 23 ->
   Z.abs tx <= 2 ^ 23 -> Z.abs ty <= 2 ^ 23 ->
   exists b,
     choose_direction self gx gy h tx ty = Ok (Some b) /\
     In b exits /\
     forall d, In d exits ->
       squared_distance (step lx ly b) (tx, ty)
       <= squared_distance (step lx ly d) (tx, ty) /\
       (squared_distance (step lx ly d) (tx, ty)
        = squared_distance (step lx ly b) (tx, ty) ->
        rank b <= rank d)) /\
  (2 ^ 1024 <= Z.abs tx \/ 2 ^ 1024 <= Z.abs ty ->
   choose_direction self gx gy h tx ty = Raise OverflowError).
Proof.
  intros self lx ly Hexits Hlen.
  split; [|now apply (choose_direction_overflow self gx gy h tx ty exits)].
  intros Hgx Hgy Htx Hty. subst self lx ly.
  set (lx := fst (step gx gy h)) in *. set (ly := snd (step gx gy h)) in *.
  assert (Hbig : 2 ^ 23 <= 2 ^ 1000) by (apply Z.pow_le_mono_r; lia).
  destruct (choose_direction_least_computed maze0 gx gy h tx ty exits
              ltac:(lia) ltac:(lia) ltac:(lia) ltac:(lia) Hexits Hlen)
    as (b & vb & Hb & Hin & Hvb & Hbest).
  exists b. split; [assumption|]. split; [assumption|].
  intros d Hd.
  destruct (Hbest d Hd) as (v & Hv & Hnlt & Hties).
  assert (Hl : Z.abs lx <= 2 ^ 23 + 1 /\ Z.abs ly <= 2 ^ 23 + 1)
    by (subst lx ly; destruct h; cbn [step value fst snd]; lia).
  destruct Hl as [Hlx Hly].
  destruct (test_distance_order lx ly tx ty d b Hlx Hly Htx Hty)
    as (v1 & v2 & Hv1 & Hv2 & Hlt & Heq).
  subst lx ly.
  assert (v1 = v) by congruence. assert (v2 = vb) by congruence.
  subst v1 v2.
  split.
  - apply Z.le_ngt. intros Hsq.
    rewrite (Hlt Hsq) in Hnlt. discriminate.
  - intros Hsq. apply Hties. rewrite (Heq Hsq).
    apply FloatOrder.eqb_refl.
    now apply (test_distance_number _ _ _ _ _ _ Hvb).
Qed.

(** On the maze of the demonstration, the ghost at (3,1) heading RIGHT has
    the exits DOWN and RIGHT at the tile (4,1) ahead; for the target
    (17,19) the test tile of DOWN is strictly nearer, and DOWN is
    returned. *)
Lemma choose_direction_nearest_witness :
  get_available_exits (Pathfinder_init main_maze) 4 1 RIGHT
  = Ok [DOWN; RIGHT] /\
  squared_distance (step 4 1 DOWN) (17, 19)
  < squared_distance (step 4 1 RIGHT) (17, 19) /\
  choose_direction (Pathfinder_init main_maze) 3 1 RIGHT 17 19
  = Ok (Some DOWN) /\
  choose_direction (Pathfinder_init main_maze) 3 1 RIGHT (2 ^ 1024) 19
  = Raise OverflowError.
Proof.
  split; [reflexivity|]. split; [reflexivity|]. split.
  - destruct (choose_direction_nearest main_maze 3 1 RIGHT 17 19
                [DOWN; RIGHT] eq_refl ltac:(cbn [length]; lia))
      as [Hnear _].
    assert (Hsmall : forall z, z = 1 \/ z = 3 \/ z = 17 \/ z = 19 ->
                           Z.abs z <= 2 ^ 23)
      by (intros z [->|[->|[->| ->]]]; vm_compute; congruence).
    destruct Hnear as (b & Hb & Hin & Hmin); try (apply Hsmall; tauto).
    destruct Hin as [<-|[<-|[]]]; [exact Hb|].
    destruct (Hmin DOWN (or_introl eq_refl)) as [Hle _].
    vm_compute in Hle. exfalso. apply Hle. reflexivity.
  - destruct (choose_direction_nearest main_maze 3 1 RIGHT (2 ^ 1024) 19
                [DOWN; RIGHT] eq_refl ltac:(cbn [length]; lia))
      as [_ Hover].
    apply Hover. left. vm_compute. congruence.
Defined.




(** ** The claims about the score *)

Module ScoreFacts.

Import ScoreManager.

Lemma call_invariant (self : t) (op : operation) :
  0 <= score self -> 1 <= ghost_eaten_combo self ->
  0 <= score (call self op) /\ 1 <= ghost_eaten_combo (call self op).
Proof.
  intros Hs Hc. destruct op; simpl; lia.
Qed.

Lemma run_invariant (ops : list operation) (self : t) :
  0 <= score self -> 1 <= ghost_eaten_combo self ->
  0 <= score (run ops self) /\ 1 <= ghost_eaten_combo (run ops self).
Proof.
  revert self. induction ops as [|op ops IH]; intros self Hs Hc; simpl.
  - now split.
  - destruct (call_invariant self op Hs Hc) as [Hs' Hc']. now apply IH.
Qed.

End ScoreFacts.

(** C7.  In a state whose combo is not negative, as it is in every state
    reached from a fresh object, [add_ghost_score] adds [2 ^ combo * 100]
    to the score, [combo] being the value before the call, and then adds
    one to the combo, so that a second call adds twice as much as the
    first.  From a fresh object four calls add 200, 400, 800 and 1600: the
    scores read after them are 200, 600, 1400 and 3000, and the combo ends
    at 5. *)
Theorem add_ghost_score_doubles :
  (forall self,
      0 <= ScoreManager.ghost_eaten_combo self ->
      ScoreManager.add_ghost_score self =
      {| ScoreManager.score :=
           ScoreManager.score self
           + 2 ^ ScoreManager.ghost_eaten_combo self * 100;
         ScoreManager.ghost_eaten_combo :=
           ScoreManager.ghost_eaten_combo self + 1 |} /\
      ScoreManager.score
        (ScoreManager.add_ghost_score (ScoreManager.add_ghost_score self))
      - ScoreManager.score (ScoreManager.add_ghost_score self)
      = 2 * (ScoreManager.score (ScoreManager.add_ghost_score self)
             - ScoreManager.score self)) /\
  (let s1 := ScoreManager.add_ghost_score ScoreManager.init in
   let s2 := ScoreManager.add_ghost_score s1 in
   let s3 := ScoreManager.add_ghost_score s2 in
   let s4 := ScoreManager.add_ghost_score s3 in
   ScoreManager.score s1 - ScoreManager.score ScoreManager.init = 200 /\
   ScoreManager.score s2 - ScoreManager.score s1 = 400 /\
   ScoreManager.score s3 - ScoreManager.score s2 = 800 /\
   ScoreManager.score s4 - ScoreManager.score s3 = 1600) /\
  ScoreManager.scores
    [ScoreManager.AddGhost; ScoreManager.AddGhost;
     ScoreManager.AddGhost; ScoreManager.AddGhost] ScoreManager.init
  = [200; 600; 1400; 3000] /\
  ScoreManager.ghost_eaten_combo
    (ScoreManager.run
       [ScoreManager.AddGhost; ScoreManager.AddGhost;
        ScoreManager.AddGhost; ScoreManager.AddGhost] ScoreManager.init)
  = 5.
Proof.
  split; [|repeat split].
  intros [s c] Hc. split; [reflexivity|].
  cbn [ScoreManager.add_ghost_score ScoreManager.score
       ScoreManager.ghost_eaten_combo] in Hc |- *.
  rewrite Z.pow_add_r by lia. change (2 ^ 1) with 2. ring.
Qed.

Lemma add_ghost_score_doubles_witness :
  ScoreManager.add_ghost_score ScoreManager.init
  = {| ScoreManager.score := 200; ScoreManager.ghost_eaten_combo := 2 |} /\
  ScoreManager.score
    (ScoreManager.add_ghost_score
       (ScoreManager.add_ghost_score ScoreManager.init)) - 200
  = 2 * (200 - 0).
Proof.
  destruct add_ghost_score_doubles as [Hcall _].
  apply (Hcall ScoreManager.init). cbn. lia.
Defined.

(** C8.  After every finite sequence of calls of [reset],
    [add_pellet_score], [add_power_pellet_score] and [add_ghost_score] on a
    fresh object, the score is not negative and the combo is at least 1; a
    further call of any of the three adding methods does not lower the
    score; and [reset] gives back the fresh state, score 0 and combo 1. *)
Theorem score_invariant (ops : list ScoreManager.operation) :
  let self := ScoreManager.run ops ScoreManager.init in
  0 <= ScoreManager.score self /\
  1 <= ScoreManager.ghost_eaten_combo self /\
  ScoreManager.score self
  <= ScoreManager.score (ScoreManager.add_pellet_score self) /\
  ScoreManager.score self
  <= ScoreManager.score (ScoreManager.add_power_pellet_score self) /\
  ScoreManager.score self
  <= ScoreManager.score (ScoreManager.add_ghost_score self) /\
  ScoreManager.reset self = ScoreManager.init /\
  ScoreManager.score (ScoreManager.reset self) = 0 /\
  ScoreManager.ghost_eaten_combo (ScoreManager.reset self) = 1.
Proof.
  intros self.
  destruct (ScoreFacts.run_invariant ops ScoreManager.init) as [Hs Hc];
    [simpl; lia..|].
  fold self in Hs, Hc.
  repeat split; trivial; simpl; lia.
Qed.

(** C9.  From every state [add_pellet_score] raises the score by exactly 10
    and leaves the combo, the only other field, as it is. *)
Theorem add_pellet_score_frame (self : ScoreManager.t) :
  ScoreManager.score (ScoreManager.add_pellet_score self)
  = ScoreManager.score self + 10 /\
  ScoreManager.ghost_eaten_combo (ScoreManager.add_pellet_score self)
  = ScoreManager.ghost_eaten_combo self.
Proof. split; reflexivity. Qed.

(** * Further properties of the code *)

(** ** Directions and movement *)

(** X1.  Reversing a direction twice gives it back, a direction is never
    its own reverse, and the displacement of the reverse is the negated
    displacement. *)
Theorem opposite_reverses (d : Direction) :
  opposite (opposite d) = d /\
  opposite d <> d /\
  value (opposite d) = (- fst (value d), - snd (value d)).
Proof. destruct d; repeat split; discriminate. Qed.

(** X2.  [get_next_position] moves to a different tile, one unit away along
    one axis, and moving on in the reverse direction leads back. *)
Theorem get_next_position_back (x y : Z) (d : Direction) :
  get_next_position (fst (get_next_position x y d))
    (snd (get_next_position x y d)) (opposite d) = (x, y) /\
  get_next_position x y d <> (x, y) /\
  Z.abs (fst (get_next_position x y d) - x)
  + Z.abs (snd (get_next_position x y d) - y) = 1.
Proof.
  destruct d; cbn [get_next_position value opposite fst snd];
    (split; [f_equal; lia|]); (split; [|lia]);
    intros H; inversion H; lia.
Qed.

(** ** The grid, rectangular or not *)

(** X3.  On any grid, rectangular or not, [is_valid_tile] answers [False]
    outside the bounds without reading the grid; within the bounds it reads
    the cell when row [y] has a column [x], and raises [IndexError] when the
    row is too short. *)
Theorem is_valid_tile_any_grid (maze0 : list (list Z)) (x y : Z) :
  is_valid_tile (Pathfinder_init maze0) x y =
  if in_bounds maze0 x y
  then if x <? len (nth (Z.to_nat y) maze0 [])
       then Ok (cell_at maze0 x y =? 0)
       else Raise IndexError
  else Ok false.
Proof.
  unfold is_valid_tile, in_bounds.
  set (w := width (Pathfinder_init maze0)).
  change (height (Pathfinder_init maze0)) with (len maze0).
  change (maze (Pathfinder_init maze0)) with maze0.
  destruct (Z.ltb_spec x 0), (Z.leb_spec 0 x); try lia; cbn [orb andb];
    [reflexivity|].
  rewrite Z.geb_leb.
  destruct (Z.leb_spec w x), (Z.ltb_spec x w); try lia; cbn [orb andb];
    [reflexivity|].
  destruct (Z.ltb_spec y 0), (Z.leb_spec 0 y); try lia; cbn [orb andb];
    [reflexivity|].
  rewrite Z.geb_leb.
  destruct (Z.leb_spec (len maze0) y), (Z.ltb_spec y (len maze0)); try lia;
    cbn [orb andb]; [reflexivity|].
  rewrite (getitem_nth maze0 y []) by lia. cbn [bind].
  destruct (Z.ltb_spec x (len (nth (Z.to_nat y) maze0 []))) as [Hx|Hx].
  - rewrite (getitem_nth _ x 1) by lia. reflexivity.
  - unfold getitem. destruct (Z.ltb_spec x 0); [lia|].
    destruct (Z.ltb_spec x 0); [lia|].
    destruct (nth_error (nth (Z.to_nat y) maze0 []) (Z.to_nat x)) eqn:Hnth;
      [|reflexivity].
    assert (Hsome : nth_error (nth (Z.to_nat y) maze0 []) (Z.to_nat x) <> None)
      by congruence.
    apply nth_error_Some in Hsome. unfold len in Hx. lia.
Qed.

(** X4.  On a grid of width 0, such as the empty grid, every tile is
    invalid, no tile has an exit, and [choose_direction] always returns the
    reverse of the heading. *)
Theorem no_columns_no_exits (maze0 : list (list Z)) (gx gy : Z)
    (h : Direction) (tx ty : Z) :
  width (Pathfinder_init maze0) = 0 ->
  (forall x y, is_valid_tile (Pathfinder_init maze0) x y = Ok false) /\
  (forall x y, get_available_exits (Pathfinder_init maze0) x y h = Ok []) /\
  choose_direction (Pathfinder_init maze0) gx gy h tx ty
  = Ok (Some (opposite h)).
Proof.
  intros Hw.
  assert (Hvalid : forall x y,
             is_valid_tile (Pathfinder_init maze0) x y = Ok false).
  { intros x y. unfold is_valid_tile. rewrite Hw.
    destruct (Z.ltb_spec x 0); [reflexivity|].
    rewrite Z.geb_leb. destruct (Z.leb_spec 0 x); [reflexivity|lia]. }
  assert (Hexits : forall x y,
             get_available_exits (Pathfinder_init maze0) x y h = Ok []).
  { intros x y. unfold get_available_exits, DIRECTION_PREFERENCE.
    cbn [exits_loop].
    destruct h; cbn [opposite Direction_eqb value]; rewrite ?Hvalid;
      reflexivity. }
  split; [assumption|]. split; [assumption|].
  apply choose_direction_empty, Hexits.
Qed.

Lemma no_columns_no_exits_witness :
  choose_direction (Pathfinder_init []) 5 5 LEFT 0 0 = Ok (Some RIGHT).
Proof.
  destruct (no_columns_no_exits [] 5 5 LEFT 0 0 eq_refl) as (_ & _ & H).
  exact H.
Defined.

(** Whatever the tiles are, the loop appends a subsequence of the
    directions it scans, without the reverse of the heading. *)
Lemma exits_loop_kept (self : Pathfinder) (x y : Z) (h : Direction)
    (directions available exits : list Direction) :
  exits_loop self x y h directions available = Ok exits ->
  exists kept,
    exits = available ++ kept /\ subsequence kept directions /\
    ~ In (opposite h) kept.
Proof.
  revert available.
  induction directions as [|d rest IH]; intros available Hloop;
    cbn [exits_loop] in Hloop.
  - inversion Hloop; subst. exists []. rewrite app_nil_r.
    repeat split; [constructor|intros []].
  - destruct (Direction_eqb d (opposite h)) eqn:Hrev.
    + destruct (IH _ Hloop) as (kept & -> & Hsub & Hnot).
      exists kept. repeat split; [now constructor|assumption].
    + rewrite (value_step x y d) in Hloop.
      destruct (is_valid_tile self (x + fst (value d)) (y + snd (value d)))
        as [[|]|]; cbn [bind] in Hloop; try discriminate.
      * destruct (IH _ Hloop) as (kept & -> & Hsub & Hnot).
        exists (d :: kept). rewrite <- app_assoc. repeat split.
        -- now constructor.
        -- intros [Heq|Hin]; [|contradiction].
           rewrite Heq, Direction_eqb_refl in Hrev. discriminate.
      * destruct (IH _ Hloop) as (kept & -> & Hsub & Hnot).
        exists kept. repeat split; [now constructor|assumption].
Qed.

(** X5.  On any grid, a list [get_available_exits] returns has at most
    three elements, holds no direction twice, and lists its directions in
    the preference order. *)
Theorem get_available_exits_shape (self : Pathfinder) (x y : Z)
    (h : Direction) (exits : list Direction) :
  get_available_exits self x y h = Ok exits ->
  (length exits <= 3)%nat /\ NoDup exits /\
  subsequence exits DIRECTION_PREFERENCE.
Proof.
  intros Hexits.
  destruct (exits_loop_kept _ _ _ _ _ _ _ Hexits) as (kept & -> & Hsub & Hnot).
  cbn [app]. unfold DIRECTION_PREFERENCE in *.
  split; [|split; [|assumption]].
  - repeat match goal with
           | H : subsequence _ (_ :: _) |- _ => inversion H; clear H; subst
           | H : subsequence _ [] |- _ => inversion H; clear H; subst
           end; cbn [length]; try lia;
      exfalso; apply Hnot; destruct h; cbn; tauto.
  - repeat match goal with
           | H : subsequence _ (_ :: _) |- _ => inversion H; clear H; subst
           | H : subsequence _ [] |- _ => inversion H; clear H; subst
           end;
      repeat constructor; cbn; intuition discriminate.
Qed.

Lemma get_available_exits_shape_witness :
  (length [UP; LEFT; RIGHT] <= 3)%nat /\ NoDup [UP; LEFT; RIGHT] /\
  subsequence [UP; LEFT; RIGHT] DIRECTION_PREFERENCE.
Proof.
  apply (get_available_exits_shape pathfinder 2 2 UP [UP; LEFT; RIGHT]).
  reflexivity.
Defined.

(** ** euclidean_distance *)

(** X6.  A distance [euclidean_distance] returns is never NaN and never
    negative: it is [+0.0], a positive float or [inf].  The only exception
    it raises is [OverflowError]. *)
Theorem euclidean_distance_sign (x1 y1 x2 y2 : Z) :
  (forall v, euclidean_distance x1 y1 x2 y2 = Ok v ->
             is_nonnegative v = true) /\
  (forall e, euclidean_distance x1 y1 x2 y2 = Raise e -> e = OverflowError).
Proof.
  split.
  - intros v Hv. now apply (euclidean_distance_nonnegative x1 y1 x2 y2).
  - intros e He. now apply (euclidean_distance_exception x1 y1 x2 y2).
Qed.

Lemma euclidean_distance_sign_witness :
  is_nonnegative (S754_finite false 5629499534213120 (-50)) = true.
Proof.
  destruct (euclidean_distance_sign 0 0 3 4) as [H _].
  apply H. vm_compute. reflexivity.
Defined.

(** X7.  [euclidean_distance] is symmetric: exchanging the two points gives
    the same float, or the same exception. *)
Theorem euclidean_distance_symmetric (x1 y1 x2 y2 : Z) :
  euclidean_distance x1 y1 x2 y2 = euclidean_distance x2 y2 x1 y1.
Proof.
  unfold euclidean_distance, math_dist. cbn [fst snd].
  destruct (DistanceFacts.of_int_cases x1) as [(px & -> & Hpx)| ->];
    destruct (DistanceFacts.of_int_cases x2) as [(qx & -> & Hqx)| ->];
    destruct (DistanceFacts.of_int_cases y1) as [(py & -> & Hpy)| ->];
    destruct (DistanceFacts.of_int_cases y2) as [(qy & -> & Hqy)| ->];
    cbn [bind]; try reflexivity.
  now rewrite (DistanceFacts.abs_diff_sym px qx),
    (DistanceFacts.abs_diff_sym py qy).
Qed.

(** X8.  A coordinate of magnitude [2^1024] or more makes
    [euclidean_distance] raise [OverflowError]; when all four coordinates
    are below [2^1001] in magnitude it returns a finite float. *)
Theorem euclidean_distance_range (x1 y1 x2 y2 : Z) :
  (2 ^ 1024 <= Z.abs x1 \/ 2 ^ 1024 <= Z.abs y1 \/
   2 ^ 1024 <= Z.abs x2 \/ 2 ^ 1024 <= Z.abs y2 ->
   euclidean_distance x1 y1 x2 y2 = Raise OverflowError) /\
  (Z.abs x1 < 2 ^ 1001 -> Z.abs y1 < 2 ^ 1001 ->
   Z.abs x2 < 2 ^ 1001 -> Z.abs y2 < 2 ^ 1001 ->
   exists v, euclidean_distance x1 y1 x2 y2 = Ok v /\ is_finite v = true).
Proof.
  split.
  - apply euclidean_distance_overflow.
  - intros H1 H2 H3 H4.
    destruct (euclidean_distance_finite x1 y1 x2 y2 H1 H2 H3 H4)
      as (v & Hv & Hfin).
    exists v. split; [assumption|].
    pose proof (euclidean_distance_nonnegative x1 y1 x2 y2 v Hv) as Hsign.
    destruct v as [[|]|[|]| |[|] m e]; try reflexivity;
      try discriminate Hsign; cbv in Hfin; discriminate Hfin.
Qed.

Lemma euclidean_distance_range_witness :
  euclidean_distance 0 0 (2 ^ 1024) 0 = Raise OverflowError /\
  exists v, euclidean_distance 0 0 3 4 = Ok v /\ is_finite v = true.
Proof.
  destruct (euclidean_distance_range 0 0 (2 ^ 1024) 0) as [Hbig _].
  destruct (euclidean_distance_range 0 0 3 4) as [_ Hsmall].
  split.
  - apply Hbig. right. right. left. vm_compute. congruence.
  - apply Hsmall; vm_compute; reflexivity.
Defined.

(** X9.  The distance from a point to itself is [+0.0] whenever its
    coordinates fit a float.  For coordinates of magnitude at most [2^23] the
    distance is [+0.0] only between equal points, and of two pairs of points
    the pair with the smaller exact distance has the smaller computed
    distance. *)
Theorem euclidean_distance_exact_order (x1 y1 x2 y2 x3 y3 x4 y4 : Z) :
  (Z.abs x1 < 2 ^ 1001 -> Z.abs y1 < 2 ^ 1001 ->
   euclidean_distance x1 y1 x1 y1 = Ok (S754_zero false)) /\
  (Z.abs x1 <= 2 ^ 23 -> Z.abs y1 <= 2 ^ 23 ->
   Z.abs x2 <= 2 ^ 23 -> Z.abs y2 <= 2 ^ 23 ->
   (euclidean_distance x1 y1 x2 y2 = Ok (S754_zero false)
    <-> x1 = x2 /\ y1 = y2) /\
   (Z.abs x3 <= 2 ^ 23 -> Z.abs y3 <= 2 ^ 23 ->
    Z.abs x4 <= 2 ^ 23 -> Z.abs y4 <= 2 ^ 23 ->
    squared_distance (x1, y1) (x2, y2) < squared_distance (x3, y3) (x4, y4) ->
    exists v v',
      euclidean_distance x1 y1 x2 y2 = Ok v /\
      euclidean_distance x3 y3 x4 y4 = Ok v' /\
      Float.ltb v v' = true)).
Proof.
  assert (Hself : forall x y, Z.abs x < 2 ^ 1001 -> Z.abs y < 2 ^ 1001 ->
             euclidean_distance x y x y = Ok (S754_zero false)).
  { intros x y Hx Hy. unfold euclidean_distance, math_dist. cbn [fst snd].
    assert (Hk : 0 <= 1001 < Float.emax) by (unfold Float.emax; lia).
    destruct (FloatBounds.of_int_bounded x 1001 Hk Hx) as (px & -> & Hpx).
    destruct (FloatBounds.of_int_bounded y 1001 Hk Hy) as (py & -> & Hpy).
    cbn [bind].
    rewrite !DistanceFacts.abs_diff_self
      by (eapply FloatBounds.bounded_by_finite; eassumption).
    reflexivity. }
  split; [apply Hself|].
  change (2 ^ 23) with 8388608.
  intros H1 H2 H3 H4.
  assert (Hexact : forall a b c d,
             Z.abs a <= 8388608 -> Z.abs b <= 8388608 ->
             Z.abs c <= 8388608 -> Z.abs d <= 8388608 ->
             euclidean_distance a b c d
             = Ok (Float.norm2 (canon (Z.abs (a - c))) (canon (Z.abs (b - d))))
             /\ 0 <= Z.abs (a - c) < 2 ^ 53 /\ 0 <= Z.abs (b - d) < 2 ^ 53
             /\ (a - c) * (a - c) + (b - d) * (b - d) < 2 ^ 50).
  { intros a b c d Ha Hb Hc Hd.
    change (2 ^ 53) with 9007199254740992.
    change (2 ^ 50) with 1125899906842624.
    split; [|split; [lia|split; [lia|]]].
    - apply euclidean_distance_exact;
        change (2 ^ 52) with 4503599627370496; lia.
    - assert (Hsq : forall z, -16777216 <= z <= 16777216 ->
                              z * z <= 281474976710656) by (intros; nia).
      pose proof (Hsq (a - c) ltac:(lia)).
      pose proof (Hsq (b - d) ltac:(lia)). lia. }
  destruct (Hexact x1 y1 x2 y2 H1 H2 H3 H4) as (Hd12 & Hu & Hw & HN).
  split.
  - split.
    + intros Hzero. rewrite Hd12 in Hzero. inversion Hzero as [Hnorm].
      destruct (Z.eq_dec ((x1 - x2) * (x1 - x2) + (y1 - y2) * (y1 - y2)) 0)
        as [H0|H0]; [nia|exfalso].
      assert (Hlt : Float.ltb (Float.norm2 (canon 0) (canon 0))
                      (Float.norm2 (canon (Z.abs (x1 - x2)))
                         (canon (Z.abs (y1 - y2)))) = true).
      { apply FloatExact.norm2_canon_lt; try assumption;
          try (change (2 ^ 53) with 9007199254740992; lia);
          rewrite !Z.abs_square; first [assumption|nia]. }
      rewrite Hnorm in Hlt. discriminate.
    + intros [-> ->]. apply Hself;
        pose proof (Z.pow_le_mono_r 2 24 1001 ltac:(lia) ltac:(lia));
        change (2 ^ 24) with 16777216 in *; lia.
  - intros H5 H6 H7 H8 Hlt.
    destruct (Hexact x3 y3 x4 y4 H5 H6 H7 H8) as (Hd34 & Hu' & Hw' & HN').
    eexists _, _. split; [exact Hd12|]. split; [exact Hd34|].
    unfold squared_distance in Hlt. cbn [fst snd] in Hlt.
    apply FloatExact.norm2_canon_lt; try assumption;
      rewrite !Z.abs_square; assumption.
Qed.

Lemma euclidean_distance_exact_order_witness :
  euclidean_distance 2 3 2 3 = Ok (S754_zero false) /\
  (euclidean_distance 2 3 0 0 = Ok (S754_zero false) <-> 2 = 0 /\ 3 = 0) /\
  exists v v',
    euclidean_distance 2 3 0 0 = Ok v /\
    euclidean_distance 0 0 3 4 = Ok v' /\ Float.ltb v v' = true.
Proof.
  destruct (euclidean_distance_exact_order 2 3 0 0 0 0 3 4) as [Hself Hrange].
  destruct (euclidean_distance_exact_order 2 3 2 3 0 0 3 4) as [Hself' _].
  split; [apply Hself'; vm_compute; reflexivity|].
  destruct Hrange as [Hzero Horder]; try (vm_compute; congruence).
  split; [exact Hzero|].
  apply Horder; vm_compute; congruence.
Defined.

(** ** What choose_direction returns, for any Pathfinder *)

(** A value [choose_direction] returns is a direction: the reverse of the
    heading when the lookahead tile has no exit, and one of the exits
    otherwise. *)
Lemma choose_direction_member (self : Pathfinder) (gx gy : Z) (h : Direction)
    (tx ty : Z) (r : option Direction) :
  choose_direction self gx gy h tx ty = Ok r ->
  exists exits d,
    get_available_exits self (fst (step gx gy h)) (snd (step gx gy h)) h
    = Ok exits /\
    r = Some d /\
    ((exits = [] /\ d = opposite h) \/ In d exits).
Proof.
  intros Hr. rewrite choose_direction_unfold in Hr.
  destruct (get_available_exits self (fst (step gx gy h))
              (snd (step gx gy h)) h) as [exits|e] eqn:Hexits;
    cbn [bind] in Hr; [|discriminate].
  exists exits.
  destruct exits as [|d0 [|d1 rest]].
  - inversion Hr; subst r. exists (opposite h). repeat split. now left.
  - inversion Hr; subst r. exists d0. repeat split. right. now left.
  - destruct (choose_loop_returns _ _ _ _ _ _ _ Hr)
      as (_ & _ & b & -> & Hin & _).
    exists b. repeat split. now right.
Qed.

(** On a rectangular grid, for a ghost and a target within [2^1000] of the
    origin, [choose_direction] returns a direction. *)
Lemma choose_direction_returns (maze0 : list (list Z)) (gx gy : Z)
    (h : Direction) (tx ty : Z) :
  is_rectangular maze0 = true ->
  Z.abs gx <= 2 ^ 1000 -> Z.abs gy <= 2 ^ 1000 ->
  Z.abs tx <= 2 ^ 1000 -> Z.abs ty <= 2 ^ 1000 ->
  exists d, choose_direction (Pathfinder_init maze0) gx gy h tx ty
            = Ok (Some d).
Proof.
  intros Hrect Hgx Hgy Htx Hty.
  pose proof (get_available_exits_spec maze0 (fst (step gx gy h))
                (snd (step gx gy h)) h Hrect) as Hexits.
  destruct (exits_spec maze0 (fst (step gx gy h)) (snd (step gx gy h)) h)
    as [|d0 [|d1 rest]] eqn:Hspec.
  - eexists. now apply choose_direction_empty.
  - exists d0. now apply choose_direction_one.
  - destruct (choose_direction_least_computed maze0 gx gy h tx ty
                (d0 :: d1 :: rest) Hgx Hgy Htx Hty Hexits) as (b & _ & Hb & _).
    + cbn [length]. lia.
    + now exists b.
Qed.

(** ** The drivers: simulate_ghost_path *)

Lemma tuple_eqb_eq (p q : Z * Z) : tuple_eqb p q = true <-> p = q.
Proof.
  destruct p as [a b], q as [c d]. unfold tuple_eqb. cbn [fst snd].
  rewrite andb_true_iff, !Z.eqb_eq. split.
  - intros [-> ->]. reflexivity.
  - intros H. inversion H. split; reflexivity.
Qed.

Lemma tuple_eqb_neq (p q : Z * Z) : tuple_eqb p q = false <-> p <> q.
Proof.
  rewrite <- tuple_eqb_eq. destruct (tuple_eqb p q); split; congruence.
Qed.

Lemma get_next_position_step (x y : Z) (d : Direction) :
  get_next_position x y d = step x y d.
Proof. now destruct d. Qed.

Lemma last_cons {A : Type} (a d : A) (l : list A) :
  last (a :: l) d = last l a.
Proof.
  revert a d. induction l as [|b l IH]; intros a d; [reflexivity|].
  change (last (a :: b :: l) d) with (last (b :: l) d).
  now rewrite !IH.
Qed.

(** The positions the loop adds: a walk from the current position, of at
    most [steps] moves, that meets the target at its end or not at all, and
    that ends on the target when it stops early. *)
Lemma simulate_loop_shape (pf : Pathfinder) (tx ty : Z) (steps : nat) :
  forall (x y : Z) (d : Direction) (path res : list (Z * Z)),
    simulate_loop pf tx ty steps x y d path = Return res ->
    exists added,
      res = path ++ added /\
      (length added <= steps)%nat /\
      walk (x, y) added /\
      Forall (fun p => p <> (tx, ty)) (removelast ((x, y) :: added)) /\
      ((length added < steps)%nat -> last added (x, y) = (tx, ty)).
Proof.
  induction steps as [|steps IH]; intros x y d path res Hres.
  - cbn [simulate_loop] in Hres. inversion Hres; subst res.
    exists []. rewrite app_nil_r. cbn. repeat split; try lia. constructor.
  - cbn [simulate_loop] in Hres.
    destruct (tuple_eqb (x, y) (tx, ty)) eqn:Hat.
    + inversion Hres; subst res. apply tuple_eqb_eq in Hat.
      exists []. rewrite app_nil_r. cbn. repeat split; try lia.
      * constructor.
      * intros _. exact Hat.
    + apply tuple_eqb_neq in Hat.
      destruct (choose_direction pf x y d tx ty) as [[d'|]|e];
        try discriminate.
      rewrite get_next_position_step in Hres.
      destruct (step x y d') as [x' y'] eqn:Hstep.
      destruct (IH _ _ _ _ _ Hres)
        as (added & -> & Hlen & Hwalk & Hnot & Hlast).
      exists ((x', y') :: added). rewrite <- app_assoc.
      repeat split.
      * cbn [length]. lia.
      * exists d'. now rewrite <- Hstep.
      * exact Hwalk.
      * change (removelast ((x, y) :: (x', y') :: added))
          with ((x, y) :: removelast ((x', y') :: added)).
        now constructor.
      * intros Hshort. rewrite last_cons. apply Hlast.
        cbn [length] in Hshort. lia.
Qed.

(** The direction is never [None] when [simulate_ghost_path] reads it. *)
Lemma simulate_loop_direction (pf : Pathfinder) (tx ty : Z) (steps : nat) :
  forall (x y : Z) (d : Direction) (path : list (Z * Z)),
    simulate_loop pf tx ty steps x y d path <> Throw AttributeError.
Proof.
  induction steps as [|steps IH]; intros x y d path; cbn [simulate_loop];
    [discriminate|].
  destruct (tuple_eqb (x, y) (tx, ty)); [discriminate|].
  destruct (choose_direction pf x y d tx ty) as [r|e] eqn:Hr;
    [|discriminate].
  destruct (choose_direction_member _ _ _ _ _ _ _ Hr) as (_ & d' & _ & -> & _).
  destruct (get_next_position x y d') as [x' y']. apply IH.
Qed.

Lemma simulate_loop_returns (maze0 : list (list Z)) (tx ty : Z) :
  is_rectangular maze0 = true ->
  Z.abs tx <= 2 ^ 1000 -> Z.abs ty <= 2 ^ 1000 ->
  forall (steps : nat) (x y : Z) (d : Direction) (path : list (Z * Z)),
    Z.abs x + Z.of_nat steps <= 2 ^ 1000 ->
    Z.abs y + Z.of_nat steps <= 2 ^ 1000 ->
    exists res,
      simulate_loop (Pathfinder_init maze0) tx ty steps x y d path
      = Return res.
Proof.
  intros Hrect Htx Hty. remember (2 ^ 1000) as B eqn:HB.
  induction steps as [|steps IH]; intros x y d path Hx Hy;
    cbn [simulate_loop]; [now eexists|].
  destruct (tuple_eqb (x, y) (tx, ty)); [now eexists|].
  destruct (choose_direction_returns maze0 x y d tx ty Hrect)
    as [d' ->]; try (subst B; lia).
  rewrite get_next_position_step.
  destruct (step x y d') as [x' y'] eqn:Hstep.
  apply IH.
  - destruct d'; cbv [step value fst snd] in Hstep; inversion Hstep; lia.
  - destruct d'; cbv [step value fst snd] in Hstep; inversion Hstep; lia.
Qed.

(** X10.  The path [simulate_ghost_path] returns, on any grid: it starts
    with the ghost's position, makes at most [max_steps] moves, each to a
    tile one step away from the tile before; the target is not among its
    positions before the last one; and a path of fewer than [max_steps]
    moves ends on the target. *)
Theorem simulate_ghost_path_shape (pf : Pathfinder) (gx gy : Z)
    (d : Direction) (tx ty max_steps : Z) (path : list (Z * Z)) :
  simulate_ghost_path pf gx gy d tx ty max_steps = Return path ->
  exists rest,
    path = (gx, gy) :: rest /\
    Z.of_nat (length rest) <= Z.max 0 max_steps /\
    walk (gx, gy) rest /\
    Forall (fun p => p <> (tx, ty)) (removelast path) /\
    (Z.of_nat (length rest) < Z.max 0 max_steps ->
     last path (gx, gy) = (tx, ty)).
Proof.
  unfold simulate_ghost_path. intros Hres.
  destruct (simulate_loop_shape _ _ _ _ _ _ _ _ _ Hres)
    as (rest & -> & Hlen & Hwalk & Hnot & Hlast).
  exists rest. cbn [app]. repeat split; trivial.
  - lia.
  - intros Hshort. rewrite last_cons. apply Hlast. lia.
Qed.

Lemma simulate_ghost_path_shape_witness :
  exists rest,
    [(1, 1); (2, 1)] = (1, 1) :: rest /\
    Z.of_nat (length rest) <= Z.max 0 100 /\
    walk (1, 1) rest /\
    Forall (fun p => p <> (2, 1)) (removelast [(1, 1); (2, 1)]) /\
    (Z.of_nat (length rest) < Z.max 0 100 ->
     last [(1, 1); (2, 1)] (1, 1) = (2, 1)).
Proof.
  apply (simulate_ghost_path_shape pathfinder 1 1 RIGHT 2 1 100).
  vm_compute. reflexivity.
Defined.

(** X11.  On any grid, jagged ones included, [simulate_ghost_path] never
    fails on a direction that is [None]; with no step to make, or with the
    ghost on the target, it returns the start alone without calling the
    navigator. *)
Theorem simulate_ghost_path_direction (pf : Pathfinder) (gx gy : Z)
    (d : Direction) (tx ty max_steps : Z) :
  simulate_ghost_path pf gx gy d tx ty max_steps <> Throw AttributeError /\
  (max_steps <= 0 \/ (gx, gy) = (tx, ty) ->
   simulate_ghost_path pf gx gy d tx ty max_steps = Return [(gx, gy)]).
Proof.
  split; [apply simulate_loop_direction|].
  unfold simulate_ghost_path. intros [Hsteps|Hat].
  - replace (Z.to_nat max_steps) with O by lia. reflexivity.
  - destruct (Z.to_nat max_steps); [reflexivity|]. cbn [simulate_loop].
    apply tuple_eqb_eq in Hat. now rewrite Hat.
Qed.

Lemma simulate_ghost_path_direction_witness :
  simulate_ghost_path pathfinder 1 1 RIGHT 3 3 0 = Return [(1, 1)].
Proof.
  destruct (simulate_ghost_path_direction pathfinder 1 1 RIGHT 3 3 0)
    as [_ H].
  apply H. left. lia.
Defined.

(** X12.  On a rectangular grid, for a start within [2^999] of the origin,
    a target within [2^1000] and at most [2^999] steps,
    [simulate_ghost_path] returns a path: no call of the navigator
    raises. *)
Theorem simulate_ghost_path_returns (maze0 : list (list Z)) (gx gy : Z)
    (d : Direction) (tx ty max_steps : Z) :
  is_rectangular maze0 = true ->
  Z.abs gx <= 2 ^ 999 -> Z.abs gy <= 2 ^ 999 ->
  Z.abs tx <= 2 ^ 1000 -> Z.abs ty <= 2 ^ 1000 ->
  max_steps <= 2 ^ 999 ->
  exists path,
    simulate_ghost_path (Pathfinder_init maze0) gx gy d tx ty max_steps
    = Return path.
Proof.
  intros Hrect Hgx Hgy Htx Hty Hsteps. unfold simulate_ghost_path.
  assert (Hpow : 2 ^ 1000 = 2 ^ 999 + 2 ^ 999)
    by (change 1000 with (Z.succ 999); rewrite Z.pow_succ_r; lia).
  apply simulate_loop_returns; trivial;
    remember (2 ^ 999) as B; remember (2 ^ 1000) as C; lia.
Qed.

Lemma simulate_ghost_path_returns_witness :
  exists path,
    simulate_ghost_path (Pathfinder_init simple_maze) 1 1 RIGHT 3 3 100
    = Return path.
Proof.
  apply (simulate_ghost_path_returns simple_maze 1 1 RIGHT 3 3 100);
    try reflexivity; vm_compute; congruence.
Defined.

(** One iteration of the loop away from the target. *)
Lemma simulate_loop_step (pf : Pathfinder) (tx ty : Z) (steps : nat)
    (x y : Z) (d d' : Direction) (path : list (Z * Z)) :
  tuple_eqb (x, y) (tx, ty) = false ->
  choose_direction pf x y d tx ty = Ok (Some d') ->
  simulate_loop pf tx ty (S steps) x y d path
  = simulate_loop pf tx ty steps (fst (step x y d')) (snd (step x y d')) d'
      (path ++ [step x y d']).
Proof.
  intros Hat Hd'. cbn [simulate_loop]. rewrite Hat, Hd'.
  rewrite get_next_position_step. now destruct (step x y d').
Qed.

(** On the 5x5 grid of the tests, with the target (3,3), the simulation
    that has reached (3,2) heading RIGHT goes round the wall tile (2,2) for
    ever: (3,2), (2,2), (2,3), (2,2), (3,2), ... *)
Lemma simulate_loop_round (steps : nat) :
  forall (x y : Z) (d : Direction) (path : list (Z * Z)),
    In (x, y, d) [(3, 2, RIGHT); (2, 2, LEFT); (2, 3, DOWN); (2, 2, UP)] ->
    ~ In (3, 3) path ->
    exists res,
      simulate_loop pathfinder 3 3 steps x y d path = Return res /\
      ~ In (3, 3) res /\ incl path res.
Proof.
  induction steps as [|steps IH]; intros x y d path Hstate Hpath.
  - exists path. split; [reflexivity|]. split; [exact Hpath|apply incl_refl].
  - assert (Hnext : exists d',
               choose_direction pathfinder x y d 3 3 = Ok (Some d') /\
               tuple_eqb (x, y) (3, 3) = false /\
               step x y d' <> (3, 3) /\
               In (fst (step x y d'), snd (step x y d'), d')
                 [(3, 2, RIGHT); (2, 2, LEFT); (2, 3, DOWN); (2, 2, UP)]).
    { destruct Hstate as [H|[H|[H|[H|[]]]]]; inversion H; subst x y d.
      - exists LEFT. repeat split; try (vm_compute; reflexivity);
          [discriminate|cbn; tauto].
      - exists DOWN. repeat split; try (vm_compute; reflexivity);
          [discriminate|cbn; tauto].
      - exists UP. repeat split; try (vm_compute; reflexivity);
          [discriminate|cbn; tauto].
      - exists RIGHT. repeat split; try (vm_compute; reflexivity);
          [discriminate|cbn; tauto]. }
    destruct Hnext as (d' & Hd' & Hat & Hnot & Hstate').
    rewrite (simulate_loop_step _ _ _ _ _ _ _ _ _ Hat Hd').
    destruct (IH _ _ _ (path ++ [step x y d']) Hstate')
      as (res & Hres & Hmiss & Hincl).
    + rewrite in_app_iff. intros [H|[H|[]]]; [now apply Hpath|].
      now apply Hnot.
    + exists res. split; [exact Hres|]. split; [exact Hmiss|].
      intros p Hp. apply Hincl. apply in_or_app. now left.
Qed.

(** X13.  [simulate_ghost_path] moves the ghost from its own tile along the
    direction chosen for the tile ahead, so its path is not confined to
    walkable tiles.  On the 5x5 grid of the tests, the ghost at (1,1)
    heading RIGHT, on a valid tile with a valid tile ahead, and the valid
    target (3,3): for every number of steps the path misses the target,
    and from two steps on it holds the wall tile (2,2).  In [animate_ghost],
    when [time.sleep] returns, the same ghost is shown on the target from
    five steps on. *)
Theorem simulate_ghost_path_enters_wall (max_steps : Z) :
  on_valid_tile simple_maze (1, 1) /\
  on_valid_tile simple_maze (step 1 1 RIGHT) /\
  on_valid_tile simple_maze (3, 3) /\
  ~ on_valid_tile simple_maze (2, 2) /\
  (exists path,
      simulate_ghost_path pathfinder 1 1 RIGHT 3 3 max_steps = Return path /\
      ~ In (3, 3) path /\
      (2 <= max_steps -> In (2, 2) path)) /\
  (5 <= max_steps ->
   forall delay,
     In (3, 3)
       (status_positions
          (fst (animate_ghost (fun _ => None) pathfinder simple_maze
                  1 1 RIGHT 3 3 delay max_steps)))).
Proof.
  split; [reflexivity|]. split; [reflexivity|]. split; [reflexivity|].
  split; [discriminate|]. split.
  - unfold simulate_ghost_path.
    destruct (Z.to_nat max_steps) as [|[|[|steps]]] eqn:Hsteps.
    + exists [(1, 1)]. split; [reflexivity|]. split; [|lia].
      intros [H|[]]. discriminate H.
    + exists [(1, 1); (2, 1)]. split; [vm_compute; reflexivity|].
      split; [|lia]. intros [H|[H|[]]]; discriminate H.
    + exists [(1, 1); (2, 1); (2, 2)]. split; [vm_compute; reflexivity|].
      split; [|intros _; cbn; tauto].
      intros [H|[H|[H|[]]]]; discriminate H.
    + rewrite (simulate_loop_step _ _ _ _ _ _ _ RIGHT)
        by (vm_compute; reflexivity).
      rewrite (simulate_loop_step _ _ _ _ _ _ _ DOWN)
        by (vm_compute; reflexivity).
      rewrite (simulate_loop_step _ _ _ _ _ _ _ RIGHT)
        by (vm_compute; reflexivity).
      destruct (simulate_loop_round steps 3 2 RIGHT
                  [(1, 1); (2, 1); (2, 2); (3, 2)])
        as (res & Hres & Hmiss & Hincl).
      * cbn; tauto.
      * intros [H|[H|[H|[H|[]]]]]; discriminate H.
      * exists res. split; [exact Hres|]. split; [exact Hmiss|].
        intros _. apply Hincl. cbn; tauto.
  - intros Hsteps delay. unfold animate_ghost.
    destruct (Z.to_nat max_steps) as [|[|[|[|[|steps]]]]] eqn:Hn; try lia.
    vm_compute. tauto.
Qed.

Lemma simulate_ghost_path_enters_wall_witness :
  (exists path,
      simulate_ghost_path pathfinder 1 1 RIGHT 3 3 100 = Return path /\
      ~ In (3, 3) path /\ In (2, 2) path) /\
  In (3, 3)
    (status_positions
       (fst (animate_ghost (fun _ => None) pathfinder simple_maze
               1 1 RIGHT 3 3 (S754_zero false) 100))).
Proof.
  destruct (simulate_ghost_path_enters_wall 100)
    as (_ & _ & _ & _ & (path & Hpath & Hmiss & Hwall) & Hshown).
  split.
  - exists path. split; [exact Hpath|]. split; [exact Hmiss|].
    apply Hwall. lia.
  - apply Hshown. lia.
Defined.

(** ** The drivers: animate_ghost *)

Lemma status_positions_app (a b : list event) :
  status_positions (a ++ b) = status_positions a ++ status_positions b.
Proof.
  induction a as [|e a IH]; [reflexivity|].
  destruct e; cbn [app status_positions]; now rewrite IH.
Qed.

Lemma status_positions_lines (l : list String.string) :
  status_positions (map PrintLine l) = [].
Proof. induction l as [|s l IH]; [reflexivity|exact IH]. Qed.

Lemma status_positions_frame (step0 x y : Z) (d : Direction)
    (l : list String.string) (rest : list event) :
  status_positions (([Clear; PrintStatus step0 x y d] ++ map PrintLine l)
                    ++ rest)
  = (x, y) :: status_positions rest.
Proof.
  rewrite !status_positions_app, status_positions_lines. reflexivity.
Qed.

Lemma step_back (x y : Z) (d : Direction) :
  step (fst (step x y d)) (snd (step x y d)) (opposite d) = (x, y).
Proof. destruct d; cbv [step value opposite fst snd]; f_equal; lia. Qed.

(** The invariant of the animation loop on a rectangular grid: the ghost is
    on a valid tile and the tile ahead of it is valid. *)
Lemma animate_loop_valid (time_sleep : Float.float -> option exn)
    (maze0 drawn : list (list Z)) (tx ty : Z) (delay : Float.float) :
  is_rectangular maze0 = true ->
  forall (steps : nat) (step0 x y : Z) (d : Direction)
         (visited : list (Z * Z)),
    on_valid_tile maze0 (x, y) ->
    on_valid_tile maze0 (step x y d) ->
    let run := animate_loop time_sleep (Pathfinder_init maze0) drawn tx ty
                 delay steps step0 x y (Some d) visited in
    Forall (on_valid_tile maze0) (status_positions (fst run)) /\
    snd run <> Some AttributeError /\
    (width (Pathfinder_init maze0) <= 2 ^ 1000 ->
     height (Pathfinder_init maze0) <= 2 ^ 1000 ->
     Z.abs tx <= 2 ^ 1000 -> Z.abs ty <= 2 ^ 1000 ->
     snd run = None \/
     exists e, time_sleep delay = Some e /\ snd run = Some (Clock e)).
Proof.
  intros Hrect.
  induction steps as [|steps IH]; intros step0 x y d visited Hhere Hahead;
    cbn [animate_loop]; cbv zeta.
  - cbn [fst snd status_positions]. repeat split; try discriminate.
    + constructor.
    + intros. now left.
  - destruct (tuple_eqb (x, y) (tx, ty)).
    { cbn [fst snd]. rewrite status_positions_frame.
      repeat split; try discriminate.
      - constructor; [exact Hhere|constructor].
      - intros. now left. }
    destruct (choose_direction (Pathfinder_init maze0) x y d tx ty)
      as [next|e] eqn:Hnext.
    2:{ cbn [fst snd]. rewrite <- (app_nil_r (_ ++ map PrintLine _)).
        rewrite status_positions_frame.
        repeat split; try discriminate.
        - constructor; [exact Hhere|constructor].
        - intros Hw Hh Htx Hty. exfalso.
          destruct (valid_tile_in_bounds _ _ _ Hhere) as (Hx & Hy & _).
          cbn [fst snd] in Hx, Hy.
          destruct (choose_direction_returns maze0 x y d tx ty Hrect)
            as [d' Hd']; try congruence;
            remember (2 ^ 1000) as B; lia. }
    destruct (choose_direction_member _ _ _ _ _ _ _ Hnext)
      as (exits & d' & Hexits & -> & Hd').
    assert (Hahead' : on_valid_tile maze0
                        (step (fst (step x y d)) (snd (step x y d)) d')).
    { destruct Hd' as [[_ ->]|Hin].
      - rewrite step_back. exact Hhere.
      - destruct (get_available_exits_sound _ _ _ _ _ Hexits d' Hin)
          as [_ Hvalid].
        rewrite is_valid_tile_spec in Hvalid by exact Hrect.
        unfold on_valid_tile. congruence. }
    rewrite get_next_position_step.
    destruct (step x y d) as [x' y'] eqn:Hstep. cbn [fst snd] in Hahead'.
    destruct (time_sleep delay) as [e|] eqn:Hsleep.
    { cbn [fst snd]. rewrite status_positions_frame.
      repeat split; try discriminate.
      - constructor; [exact Hhere|constructor].
      - intros. right. now exists e. }
    specialize (IH (step0 + 1) x' y' d' (visited ++ [(x, y)])
                  Hahead Hahead').
    cbv zeta in IH.
    destruct (animate_loop time_sleep (Pathfinder_init maze0) drawn tx ty
                delay steps (step0 + 1) x' y' (Some d')
                (visited ++ [(x, y)])) as [events failure].
    cbn [fst snd] in IH |- *. destruct IH as (Hall & Hattr & Hfail).
    change (?a ++ Sleep delay :: events)
      with (a ++ [Sleep delay] ++ events).
    rewrite status_positions_frame.
    repeat split; trivial.
    constructor; [exact Hhere|exact Hall].
Qed.

Lemma target_reached_frame (step0 x y : Z) (d : Direction)
    (l : list String.string) (rest : list event) :
  In PrintTargetReached
    (([Clear; PrintStatus step0 x y d] ++ map PrintLine l) ++ rest)
  <-> In PrintTargetReached rest.
Proof.
  rewrite !in_app_iff, in_map_iff. cbn [In]. split; [|tauto].
  intros [[[H|[H|[]]]|(s & H & _)]|H]; try discriminate H. exact H.
Qed.

(** The frames of the animation loop, on any grid: one per iteration, the
    ghost moving one step between two frames, the target shown by the last
    frame or by none, and Target reached! printed exactly when the last
    frame shows the ghost on the target. *)
Lemma animate_loop_shape (time_sleep : Float.float -> option exn)
    (pf : Pathfinder) (drawn : list (list Z)) (tx ty : Z)
    (delay : Float.float) :
  forall (steps : nat) (step0 x y : Z) (d : Direction)
         (visited : list (Z * Z)),
    let events := fst (animate_loop time_sleep pf drawn tx ty delay steps
                         step0 x y (Some d) visited) in
    steps = O \/
    exists rest,
      status_positions events = (x, y) :: rest /\
      (length rest < steps)%nat /\
      walk (x, y) rest /\
      Forall (fun p => p <> (tx, ty)) (removelast ((x, y) :: rest)) /\
      (In PrintTargetReached events <-> last rest (x, y) = (tx, ty)).
Proof.
  induction steps as [|steps IH]; intros step0 x y d visited; [now left|].
  right. cbn [animate_loop]; cbv zeta.
  destruct (tuple_eqb (x, y) (tx, ty)) eqn:Hat.
  { apply tuple_eqb_eq in Hat. exists []. cbn [fst].
    rewrite status_positions_frame, target_reached_frame.
    cbn [status_positions length walk removelast last In].
    split; [reflexivity|]. split; [lia|]. split; [exact I|].
    split; [constructor|]. split; [intros _; exact Hat|now left]. }
  apply tuple_eqb_neq in Hat.
  assert (Hstop : forall tail : list event,
             ~ In PrintTargetReached tail -> status_positions tail = [] ->
             exists rest,
               status_positions
                 (([Clear; PrintStatus step0 x y d]
                   ++ map PrintLine
                        (draw_maze drawn (visited ++ [(x, y)]) (x, y)
                           (tx, ty))) ++ tail) = (x, y) :: rest /\
               (length rest < S steps)%nat /\
               walk (x, y) rest /\
               Forall (fun p => p <> (tx, ty)) (removelast ((x, y) :: rest)) /\
               (In PrintTargetReached
                  (([Clear; PrintStatus step0 x y d]
                    ++ map PrintLine
                         (draw_maze drawn (visited ++ [(x, y)]) (x, y)
                            (tx, ty))) ++ tail)
                <-> last rest (x, y) = (tx, ty))).
  { intros tail Hno Hnone. exists [].
    rewrite status_positions_frame, target_reached_frame, Hnone.
    cbn [length walk removelast last].
    split; [reflexivity|]. split; [lia|]. split; [exact I|].
    split; [constructor|]. split; [intros H; now apply Hno in H|].
    intros H. now apply Hat in H. }
  destruct (choose_direction pf x y d tx ty) as [next|e] eqn:Hnext.
  2:{ cbn [fst]. rewrite <- (app_nil_r (_ ++ map PrintLine _)).
      apply Hstop; [intros []|reflexivity]. }
  destruct (choose_direction_member _ _ _ _ _ _ _ Hnext)
    as (_ & d' & _ & -> & _).
  rewrite get_next_position_step.
  pose proof (ex_intro (fun d0 => step x y d = step x y d0) d eq_refl)
    as Hadj.
  destruct (step x y d) as [x' y'] eqn:Hstep.
  destruct (time_sleep delay) as [e|].
  { cbn [fst]. apply Hstop; [|reflexivity].
    intros [H|[]]. discriminate H. }
  specialize (IH (step0 + 1) x' y' d' (visited ++ [(x, y)])).
  cbv zeta in IH.
  destruct IH as [->|(rest & Hpos & Hlen & Hwalk & Hnot & Hlast)].
  { cbn [animate_loop fst]. apply Hstop; [|reflexivity].
    intros [H|[]]. discriminate H. }
  destruct (animate_loop time_sleep pf drawn tx ty delay steps (step0 + 1)
              x' y' (Some d') (visited ++ [(x, y)])) as [events failure].
  cbn [fst] in Hpos, Hlast |- *.
  change (?a ++ Sleep delay :: events) with (a ++ [Sleep delay] ++ events).
  exists ((x', y') :: rest).
  rewrite status_positions_frame, target_reached_frame.
  cbn [app status_positions In]. rewrite Hpos, last_cons.
  split; [reflexivity|]. split; [cbn [length]; lia|].
  split; [split; [exact Hadj|exact Hwalk]|].
  split.
  - change (removelast ((x, y) :: (x', y') :: rest))
      with ((x, y) :: removelast ((x', y') :: rest)).
    now constructor.
  - split.
    + intros [H|H]; [discriminate H|]. now apply Hlast.
    + intros H. right. now apply Hlast.
Qed.

(** X14.  On a rectangular grid, a ghost that starts [animate_ghost] on a
    valid tile with a valid tile ahead of it is shown on valid tiles only,
    whatever the target, the delay and the number of steps; and its
    direction is never [None]. *)
Theorem animate_ghost_on_valid_tiles
    (time_sleep : Float.float -> option exn) (maze0 drawn : list (list Z))
    (gx gy : Z) (d : Direction) (tx ty : Z) (delay : Float.float)
    (max_steps : Z) :
  is_rectangular maze0 = true ->
  on_valid_tile maze0 (gx, gy) ->
  on_valid_tile maze0 (step gx gy d) ->
  Forall (on_valid_tile maze0)
    (status_positions
       (fst (animate_ghost time_sleep (Pathfinder_init maze0) drawn
               gx gy d tx ty delay max_steps))) /\
  snd (animate_ghost time_sleep (Pathfinder_init maze0) drawn
         gx gy d tx ty delay max_steps) <> Some AttributeError.
Proof.
  intros Hrect Hhere Hahead. unfold animate_ghost.
  destruct (animate_loop_valid time_sleep maze0 drawn tx ty delay Hrect
              (Z.to_nat max_steps) 0 gx gy d [] Hhere Hahead)
    as (Hall & Hattr & _).
  now split.
Qed.

Lemma animate_ghost_on_valid_tiles_witness :
  Forall (on_valid_tile main_maze)
    (status_positions
       (fst (animate_ghost (fun _ => None) (Pathfinder_init main_maze)
               main_maze 1 1 RIGHT 17 19
               (S754_finite false 7205759403792794 (-56)) 100))) /\
  snd (animate_ghost (fun _ => None) (Pathfinder_init main_maze)
         main_maze 1 1 RIGHT 17 19
         (S754_finite false 7205759403792794 (-56)) 100)
  <> Some AttributeError.
Proof.
  apply (animate_ghost_on_valid_tiles (fun _ => None) main_maze main_maze
           1 1 RIGHT 17 19 (S754_finite false 7205759403792794 (-56)) 100);
    reflexivity.
Defined.

(** X15.  Under the conditions of X14, with the grid and the target within
    [2^1000], [animate_ghost] ends without an exception, unless
    [time.sleep] rejects the delay: the navigator does not raise. *)
Theorem animate_ghost_completes
    (time_sleep : Float.float -> option exn) (maze0 drawn : list (list Z))
    (gx gy : Z) (d : Direction) (tx ty : Z) (delay : Float.float)
    (max_steps : Z) :
  is_rectangular maze0 = true ->
  on_valid_tile maze0 (gx, gy) ->
  on_valid_tile maze0 (step gx gy d) ->
  width (Pathfinder_init maze0) <= 2 ^ 1000 ->
  height (Pathfinder_init maze0) <= 2 ^ 1000 ->
  Z.abs tx <= 2 ^ 1000 -> Z.abs ty <= 2 ^ 1000 ->
  snd (animate_ghost time_sleep (Pathfinder_init maze0) drawn
         gx gy d tx ty delay max_steps) = None \/
  exists e,
    time_sleep delay = Some e /\
    snd (animate_ghost time_sleep (Pathfinder_init maze0) drawn
           gx gy d tx ty delay max_steps) = Some (Clock e).
Proof.
  intros Hrect Hhere Hahead Hw Hh Htx Hty. unfold animate_ghost.
  destruct (animate_loop_valid time_sleep maze0 drawn tx ty delay Hrect
              (Z.to_nat max_steps) 0 gx gy d [] Hhere Hahead)
    as (_ & _ & Hfail).
  now apply Hfail.
Qed.

Lemma animate_ghost_completes_witness :
  snd (animate_ghost (fun _ => Some ValueError) (Pathfinder_init main_maze)
         main_maze 1 1 RIGHT 17 19 (S754_finite true 4503599627370496 (-52))
         100) = None \/
  exists e,
    (fun _ : Float.float => Some ValueError)
      (S754_finite true 4503599627370496 (-52)) = Some e /\
    snd (animate_ghost (fun _ => Some ValueError) (Pathfinder_init main_maze)
           main_maze 1 1 RIGHT 17 19
           (S754_finite true 4503599627370496 (-52)) 100) = Some (Clock e).
Proof.
  apply (animate_ghost_completes (fun _ => Some ValueError) main_maze
           main_maze 1 1 RIGHT 17 19
           (S754_finite true 4503599627370496 (-52)) 100);
    try reflexivity; vm_compute; congruence.
Defined.

(** X16.  The frames of [animate_ghost], on any grid and for at least one
    step: the first shows the ghost's start, there are at most [max_steps]
    of them, the ghost moves one step between two frames, only the last
    frame can show the ghost on the target, and Target reached! is printed
    exactly when it does. *)
Theorem animate_ghost_frames
    (time_sleep : Float.float -> option exn) (pf : Pathfinder)
    (drawn : list (list Z)) (gx gy : Z) (d : Direction) (tx ty : Z)
    (delay : Float.float) (max_steps : Z) :
  0 < max_steps ->
  exists rest,
    status_positions
      (fst (animate_ghost time_sleep pf drawn gx gy d tx ty delay max_steps))
    = (gx, gy) :: rest /\
    Z.of_nat (length rest) < max_steps /\
    walk (gx, gy) rest /\
    Forall (fun p => p <> (tx, ty)) (removelast ((gx, gy) :: rest)) /\
    (In PrintTargetReached
       (fst (animate_ghost time_sleep pf drawn gx gy d tx ty delay
               max_steps))
     <-> last rest (gx, gy) = (tx, ty)).
Proof.
  intros Hsteps. unfold animate_ghost.
  destruct (animate_loop_shape time_sleep pf drawn tx ty delay
              (Z.to_nat max_steps) 0 gx gy d [])
    as [H0|(rest & Hpos & Hlen & Hrest)]; [lia|].
  exists rest. split; [exact Hpos|]. split; [lia|exact Hrest].
Qed.

Lemma animate_ghost_frames_witness :
  exists rest,
    status_positions
      (fst (animate_ghost (fun _ => None) pathfinder simple_maze 1 1 RIGHT
              3 3 (S754_zero false) 100))
    = (1, 1) :: rest /\
    Z.of_nat (length rest) < 100 /\
    walk (1, 1) rest /\
    Forall (fun p => p <> (3, 3)) (removelast ((1, 1) :: rest)) /\
    (In PrintTargetReached
       (fst (animate_ghost (fun _ => None) pathfinder simple_maze 1 1 RIGHT
               3 3 (S754_zero false) 100))
     <-> last rest (1, 1) = (3, 3)).
Proof.
  apply (animate_ghost_frames (fun _ => None) pathfinder simple_maze
           1 1 RIGHT 3 3 (S754_zero false) 100).
  reflexivity.
Defined.

(** ** The drivers: draw_maze *)

Lemma in_path_In (path : list (Z * Z)) (pos : Z * Z) :
  in_path path pos = true <-> In pos path.
Proof.
  unfold in_path. rewrite existsb_exists. split.
  - intros (q & Hin & Heq). apply tuple_eqb_eq in Heq. now subst q.
  - intros Hin. exists pos. split; [exact Hin|]. now apply tuple_eqb_eq.
Qed.

Lemma draw_cells_length (path : list (Z * Z)) (ghost target : Z * Z)
    (y : Z) (row : list Z) :
  forall x, length (draw_cells path ghost target y x row) = length row.
Proof.
  induction row as [|cell row IH]; intros x; [reflexivity|].
  cbn [draw_cells length]. now rewrite IH.
Qed.

Lemma draw_cells_nth (path : list (Z * Z)) (ghost target : Z * Z) (y : Z)
    (row : list Z) :
  forall (x : Z) (k : nat),
    (k < length row)%nat ->
    nth k (draw_cells path ghost target y x row) OPEN
    = cell_glyph path ghost target (x + Z.of_nat k, y) (nth k row 1).
Proof.
  induction row as [|cell row IH]; intros x k Hk; cbn [length] in Hk;
    [lia|].
  destruct k as [|k]; cbn [draw_cells nth].
  - now rewrite Z.add_0_r.
  - rewrite IH by lia.
    now replace (x + 1 + Z.of_nat k) with (x + Z.of_nat (S k)) by lia.
Qed.

Lemma draw_rows_length (path : list (Z * Z)) (ghost target : Z * Z)
    (maze0 : list (list Z)) :
  forall y, length (draw_rows path ghost target y maze0) = length maze0.
Proof.
  induction maze0 as [|row maze0 IH]; intros y; [reflexivity|].
  cbn [draw_rows length]. now rewrite IH.
Qed.

Lemma draw_rows_nth (path : list (Z * Z)) (ghost target : Z * Z)
    (maze0 : list (list Z)) :
  forall (y : Z) (j : nat),
    (j < length maze0)%nat ->
    nth j (draw_rows path ghost target y maze0) []
    = draw_cells path ghost target (y + Z.of_nat j) 0 (nth j maze0 []).
Proof.
  induction maze0 as [|row maze0 IH]; intros y j Hj; cbn [length] in Hj;
    [lia|].
  destruct j as [|j]; cbn [draw_rows nth].
  - now rewrite Z.add_0_r.
  - rewrite IH by lia.
    now replace (y + 1 + Z.of_nat j) with (y + Z.of_nat (S j)) by lia.
Qed.

(** X17.  [draw_maze] prints one line per row of the grid and one glyph per
    cell of the row, also on a jagged grid.  The glyph of the cell at
    column [x] of row [y] is the ghost's exactly at the ghost's position;
    the target's at the target when the ghost is elsewhere; the visited
    mark on the other positions of the path; and on the remaining cells a
    wall exactly when the cell holds [1], any other value being drawn as
    open floor. *)
Theorem draw_maze_glyphs (maze0 : list (list Z)) (path : list (Z * Z))
    (ghost target : Z * Z) (x y : Z) :
  0 <= y < len maze0 ->
  0 <= x < len (nth (Z.to_nat y) maze0 []) ->
  let row := nth (Z.to_nat y) (draw_rows path ghost target 0 maze0) [] in
  let g := nth (Z.to_nat x) row OPEN in
  length (draw_maze maze0 path ghost target) = length maze0 /\
  nth (Z.to_nat y) (draw_maze maze0 path ghost target) String.EmptyString
  = line_text row /\
  length row = length (nth (Z.to_nat y) maze0 []) /\
  g = cell_glyph path ghost target (x, y) (cell_at maze0 x y) /\
  (g = GHOST <-> (x, y) = ghost) /\
  (g = TARGET <-> (x, y) <> ghost /\ (x, y) = target) /\
  (g = VISITED <->
   (x, y) <> ghost /\ (x, y) <> target /\ In (x, y) path) /\
  (g = WALL <->
   (x, y) <> ghost /\ (x, y) <> target /\ ~ In (x, y) path /\
   cell_at maze0 x y = 1) /\
  (g = OPEN <->
   (x, y) <> ghost /\ (x, y) <> target /\ ~ In (x, y) path /\
   cell_at maze0 x y <> 1).
Proof.
  intros Hy Hx row g. unfold len in Hy, Hx.
  assert (Hrow : row = draw_cells path ghost target y 0
                         (nth (Z.to_nat y) maze0 [])).
  { unfold row. rewrite draw_rows_nth by lia.
    now replace (0 + Z.of_nat (Z.to_nat y)) with y by lia. }
  assert (Hg : g = cell_glyph path ghost target (x, y) (cell_at maze0 x y)).
  { unfold g. rewrite Hrow, draw_cells_nth by lia.
    unfold cell_at.
    now replace (0 + Z.of_nat (Z.to_nat x)) with x by lia. }
  split; [unfold draw_maze; now rewrite length_map, draw_rows_length|].
  split.
  { unfold draw_maze, row.
    change String.EmptyString with (line_text []).
    apply map_nth. }
  split; [rewrite Hrow; apply draw_cells_length|].
  split; [exact Hg|].
  rewrite Hg. unfold cell_glyph.
  destruct (tuple_eqb (x, y) ghost) eqn:E1;
    [apply tuple_eqb_eq in E1|apply tuple_eqb_neq in E1];
    (destruct (tuple_eqb (x, y) target) eqn:E2;
     [apply tuple_eqb_eq in E2|apply tuple_eqb_neq in E2]);
    (destruct (in_path path (x, y)) eqn:E3;
     [apply in_path_In in E3
     |assert (E3' : ~ In (x, y) path)
        by (rewrite <- in_path_In; congruence)]);
    (destruct (cell_at maze0 x y =? 1) eqn:E4;
     [apply Z.eqb_eq in E4|apply Z.eqb_neq in E4]);
    repeat split; intros; try discriminate; try tauto; try congruence.
Qed.

Lemma draw_maze_glyphs_witness :
  nth 1 (nth 1 (draw_rows [(1, 1)] (2, 1) (3, 3) 0 simple_maze) []) OPEN
  = VISITED /\
  length (draw_maze simple_maze [(1, 1)] (2, 1) (3, 3)) = 5%nat.
Proof.
  destruct (draw_maze_glyphs simple_maze [(1, 1)] (2, 1) (3, 3) 1 1)
    as (Hlines & _ & _ & _ & _ & _ & [_ Hvisited] & _).
  - vm_compute. split; [intros H; discriminate H|reflexivity].
  - vm_compute. split; [intros H; discriminate H|reflexivity].
  - split; [|exact Hlines].
    apply Hvisited. repeat split; try discriminate. now left.
Defined.

(** ** ScoreManager: sequences of calls *)

Module ScoreSequences.
Import ScoreManager.

Lemma run_cons (op : operation) (ops : list operation) (self : t) :
  run (op :: ops) self = run ops (call self op).
Proof. reflexivity. Qed.

Lemma run_app (ops1 ops2 : list operation) (self : t) :
  run (ops1 ++ ops2) self = run ops2 (run ops1 self).
Proof. apply fold_left_app. Qed.

Lemma combo_streak (ops : list operation) :
  forall self,
    ghost_eaten_combo (run ops self)
    = ghost_streak (ghost_eaten_combo self - 1) ops + 1.
Proof.
  induction ops as [|op ops IH]; intros self.
  - cbn. lia.
  - rewrite run_cons, IH.
    destruct op; cbn [call reset add_pellet_score add_power_pellet_score
                      add_ghost_score ghost_eaten_combo ghost_streak];
      f_equal; f_equal; lia.
Qed.

Lemma ghost_run (n : nat) :
  forall self,
    0 <= ghost_eaten_combo self ->
    run (repeat AddGhost n) self
    = {| score := score self
                  + 100 * 2 ^ ghost_eaten_combo self * (2 ^ Z.of_nat n - 1);
         ghost_eaten_combo := ghost_eaten_combo self + Z.of_nat n |}.
Proof.
  induction n as [|n IH]; intros [s c] Hc; cbn [ghost_eaten_combo score] in *.
  - cbn. f_equal; lia.
  - cbn [repeat]. rewrite run_cons, IH
      by (cbn [call add_ghost_score ghost_eaten_combo]; lia).
    cbn [call add_ghost_score ghost_eaten_combo score].
    rewrite Nat2Z.inj_succ, Z.pow_succ_r, (Z.pow_add_r 2 c 1) by lia.
    change (2 ^ 1) with 2. f_equal; [ring|lia].
Qed.

Lemma pellet_commutes (ops : list operation) :
  ~ In Reset ops ->
  forall self,
    run ops (add_pellet_score self) = add_pellet_score (run ops self).
Proof.
  induction ops as [|op ops IH]; intros Hno self; [reflexivity|].
  rewrite !run_cons, <- IH by (intros H; apply Hno; now right).
  f_equal.
  destruct op; unfold call, reset, add_pellet_score, add_power_pellet_score,
    add_ghost_score; cbn [ghost_eaten_combo score].
  - exfalso. apply Hno. now left.
  - reflexivity.
  - f_equal. lia.
  - f_equal. lia.
Qed.

End ScoreSequences.

(** X18.  After any sequence of calls on a fresh [ScoreManager], the combo
    is one more than the number of [add_ghost_score] calls made since the
    last [reset] or [add_power_pellet_score]: pellets do not touch it. *)
Theorem combo_counts_ghosts (ops : list ScoreManager.operation) :
  ScoreManager.ghost_eaten_combo (ScoreManager.run ops ScoreManager.init)
  = 1 + ghost_streak 0 ops.
Proof.
  rewrite ScoreSequences.combo_streak. cbn [ScoreManager.init
    ScoreManager.ghost_eaten_combo]. change (1 - 1) with 0. lia.
Qed.

(** X19.  From a state whose combo [c] is not negative, [n] calls of
    [add_ghost_score] in a row add [100 * 2^c * (2^n - 1)] to the score and
    [n] to the combo. *)
Theorem ghost_streak_score (n : nat) (self : ScoreManager.t) :
  0 <= ScoreManager.ghost_eaten_combo self ->
  ScoreManager.run (repeat ScoreManager.AddGhost n) self
  = {| ScoreManager.score :=
         ScoreManager.score self
         + 100 * 2 ^ ScoreManager.ghost_eaten_combo self
           * (2 ^ Z.of_nat n - 1);
       ScoreManager.ghost_eaten_combo :=
         ScoreManager.ghost_eaten_combo self + Z.of_nat n |}.
Proof. apply ScoreSequences.ghost_run. Qed.

Lemma ghost_streak_score_witness :
  ScoreManager.run (repeat ScoreManager.AddGhost 4) ScoreManager.init
  = {| ScoreManager.score := 3000; ScoreManager.ghost_eaten_combo := 5 |}.
Proof.
  apply (ghost_streak_score 4 ScoreManager.init). cbn. lia.
Defined.

(** X20.  From a state whose combo is not negative, a call of
    [add_pellet_score] can be moved to the end of a sequence with no
    [reset] after it: it adds 10 to the final score and leaves the final
    combo as it is, wherever it is made. *)
Theorem add_pellet_score_anywhere
    (before after : list ScoreManager.operation) (self : ScoreManager.t) :
  0 <= ScoreManager.ghost_eaten_combo self ->
  ~ In ScoreManager.Reset after ->
  ScoreManager.run (before ++ ScoreManager.AddPellet :: after) self
  = ScoreManager.add_pellet_score (ScoreManager.run (before ++ after) self).
Proof.
  intros _ Hno. rewrite !ScoreSequences.run_app, ScoreSequences.run_cons.
  now apply ScoreSequences.pellet_commutes.
Qed.

Lemma add_pellet_score_anywhere_witness :
  ScoreManager.run
    ([ScoreManager.AddPowerPellet]
     ++ ScoreManager.AddPellet :: [ScoreManager.AddGhost])
    ScoreManager.init
  = ScoreManager.add_pellet_score
      (ScoreManager.run
         ([ScoreManager.AddPowerPellet] ++ [ScoreManager.AddGhost])
         ScoreManager.init).
Proof.
  apply (add_pellet_score_anywhere [ScoreManager.AddPowerPellet]
           [ScoreManager.AddGhost] ScoreManager.init).
  - cbn. lia.
  - intros [H|[]]. discriminate H.
Defined.

(** ** The navigator next to the target *)

(** X21.  On a rectangular grid, when the target is a valid tile one step
    from the lookahead tile in a direction [d] that is not the reverse of
    the heading, [choose_direction] returns [d]: the distance [0] of that
    candidate is below the distance of every other one.  (Coordinates
    within [2^23], where the computed distances are ordered as the exact
    ones.) *)
Theorem choose_direction_adjacent_target (maze0 : list (list Z))
    (gx gy : Z) (h d : Direction) (tx ty : Z) :
  is_rectangular maze0 = true ->
  step (fst (step gx gy h)) (snd (step gx gy h)) d = (tx, ty) ->
  d <> opposite h ->
  valid_tile maze0 tx ty = true ->
  Z.abs tx <= 2 ^ 23 -> Z.abs ty <= 2 ^ 23 ->
  choose_direction (Pathfinder_init maze0) gx gy h tx ty = Ok (Some d).
Proof.
  intros Hrect Htarget Hrev Hvalid Htx Hty.
  set (lx := fst (step gx gy h)) in *.
  set (ly := snd (step gx gy h)) in *.
  assert (Hlx : lx = gx + fst (value h)) by reflexivity.
  assert (Hly : ly = gy + snd (value h)) by reflexivity.
  assert (Htx' : tx = lx + fst (value d))
    by (unfold step in Htarget; congruence).
  assert (Hty' : ty = ly + snd (value d))
    by (unfold step in Htarget; congruence).
  pose proof (get_available_exits_spec maze0 lx ly h Hrect) as Hexits.
  assert (Hin : In d (exits_spec maze0 lx ly h)).
  { unfold exits_spec. apply filter_In. split.
    - destruct d; cbn; tauto.
    - unfold keeps_exit. rewrite Htarget. cbn [fst snd]. rewrite Hvalid.
      destruct (Direction_eqb d (opposite h)) eqn:Heq; [|reflexivity].
      apply Direction_eqb_eq in Heq. contradiction. }
  assert (Hbig : 8388610 <= 2 ^ 1000) by (intros H; discriminate H).
  change (2 ^ 23) with 8388608 in *.
  assert (Hdx : -1 <= fst (value d) <= 1 /\ -1 <= snd (value d) <= 1
                /\ -1 <= fst (value h) <= 1 /\ -1 <= snd (value h) <= 1)
    by (destruct d, h; cbn; lia).
  destruct (exits_spec maze0 lx ly h) as [|d0 [|d1 rest]] eqn:Hspec.
  - destruct Hin.
  - destruct Hin as [<-|[]]. now apply choose_direction_one.
  - destruct (choose_direction_least_computed maze0 gx gy h tx ty
                (d0 :: d1 :: rest)) as (b & vb & Hb & _ & Hvb & Hall);
      try exact Hexits; try (cbn [length]; lia);
      try (remember (2 ^ 1000) as B; lia).
    fold lx ly in Hvb, Hall.
    destruct (Hall d Hin) as (v & Hv & Hlt & _).
    destruct (test_distance_order lx ly tx ty d b)
      as (v1 & v2 & H1 & H2 & Hless & _);
      try (change (2 ^ 23) with 8388608; lia).
    assert (Hcases : b = d \/
                     squared_distance (step lx ly d) (tx, ty)
                     < squared_distance (step lx ly b) (tx, ty)).
    { rewrite Htx', Hty'. unfold squared_distance, step. cbn [fst snd].
      destruct b, d; cbn [value fst snd];
        first [left; reflexivity|right; lia]. }
    destruct Hcases as [->|Hcloser]; [exact Hb|].
    apply Hless in Hcloser. congruence.
Qed.

Lemma choose_direction_adjacent_target_witness :
  choose_direction (Pathfinder_init main_maze) 3 1 RIGHT 4 2
  = Ok (Some DOWN).
Proof.
  apply (choose_direction_adjacent_target main_maze 3 1 RIGHT DOWN 4 2);
    try reflexivity; try discriminate; vm_compute; congruence.
Defined.
